(** * A shallow embedding of the better-cmdk command palette core

    The development follows the TypeScript sources:
    - [types/core.ts]                 the command tree and the view state;
    - [lib/utils.ts]                  [findNavigableById], [flattenNavigables];
    - [lib/search/algorithms.ts]      the two ranking algorithms;
    - [types/store.ts]                the navigation store;
    - [lib/search/usePrefixTrigger.ts] the prefix-shortcut detector;
    - [lib/useGlobalKeyboardNavigation.ts] the keyboard controller.

    Conventions.  A JavaScript string is a [string]; an optional field
    [f?: T] is an [option T]; a JavaScript number that is an index or a
    count is a [Z]; a relevance score is a rational [Q] (every finite
    double is a rational, [a - b] has the sign of the comparison of [a]
    and [b], and no double lies between [1/10] and the double closest to
    it, so [score >= 0.1] is decided alike on both sides).  Stateful code is
    written in state-passing style over a [World]: the store's closure
    variables together with the parts of the host the store talks to (the
    microtask queue, the clock, extension storage) and a trace of the
    callbacks that were invoked. *)

From Stdlib Require Import ZArith QArith Qminmax Lqa String Ascii List Lia Bool.
From Stdlib Require Import Sorted Permutation DecimalString Qround.
From stdpp Require Import base option list gmap strings.
Import ListNotations.

Set Warnings "-register-all".

Local Open Scope string_scope.
Local Open Scope list_scope.
Local Open Scope Z_scope.

(* ===================================================================== *)
(** * types/core.ts *)
(* ===================================================================== *)

Inductive ViewType := root | portal | category.

Record ViewState := {
  type : ViewType;
  portalId : option string;
  categoryId : option string;
  query : option string;
  showSearchInput : option bool
}.

(** What a call of a user-supplied [execute: () => void | Promise<void>]
    does to its caller: it returns, returns a promise that resolves, throws,
    or returns a promise that rejects. *)
Inductive ExecOutcome := Returns | Resolves | Throws | Rejects.

Definition execThrows (e : ExecOutcome) : bool :=
  match e with
  | Throws | Rejects => true
  | Returns | Resolves => false
  end.

Record BaseCommand := {
  id : string;
  name : string;
  icon : option string;
  description : option string;
  keywords : option (list string)
}.

(** [Command = ActionCommand | PortalCommand | CategoryCommand].  The
    [render] callback of a portal is opaque to the core and left out. *)
Inductive Command :=
| ActionCommand (base : BaseCommand) (prefixes : option (list string))
                (execute : ExecOutcome)
| PortalCommand (base : BaseCommand) (prefixes : option (list string))
                (portalShowSearchInput : option bool)
| CategoryCommand (base : BaseCommand) (children : list Command).

Definition baseOf (c : Command) : BaseCommand :=
  match c with
  | ActionCommand b _ _ | PortalCommand b _ _ | CategoryCommand b _ => b
  end.

(** [item.children]: only a category has the field. *)
Definition childrenOf (c : Command) : option (list Command) :=
  match c with
  | CategoryCommand _ ch => Some ch
  | _ => None
  end.

(** [item.prefixes]: actions and portals may have the field. *)
Definition prefixesOf (c : Command) : option (list string) :=
  match c with
  | ActionCommand _ p _ | PortalCommand _ p _ => p
  | CategoryCommand _ _ => None
  end.

(** [item.type === 'action' || item.type === 'portal'] *)
Definition isActionOrPortal (c : Command) : bool :=
  match c with
  | ActionCommand _ _ _ | PortalCommand _ _ _ => true
  | CategoryCommand _ _ => false
  end.

(** Induction over the tree, with the children of a category as a forest. *)
Section CommandInd.
Variable P : Command -> Prop.
Hypothesis Haction : forall b p e, P (ActionCommand b p e).
Hypothesis Hportal : forall b p s, P (PortalCommand b p s).
Hypothesis Hcategory :
    forall b ch, Forall P ch -> P (CategoryCommand b ch).

Fixpoint Command_forest_ind (c : Command) : P c :=
    match c with
    | ActionCommand b p e => Haction b p e
    | PortalCommand b p s => Hportal b p s
    | CategoryCommand b ch =>
        Hcategory b ch
          ((fix all (l : list Command) : Forall P l :=
              match l with
              | [] => @List.Forall_nil _ P
              | x :: r => @List.Forall_cons _ P x r (Command_forest_ind x) (all r)
              end) ch)
    end.
End CommandInd.

(* ===================================================================== *)
(** * lib/utils.ts: tree utilities *)
(* ===================================================================== *)

(** The body of the [for] loop of [findNavigableById] for one [item] whose
    own id did not match: the search of its subtree. *)
Fixpoint findInSubtree (i : string) (item : Command) : option Command :=
  match item with
  | CategoryCommand _ ch =>
      (fix loop (items : list Command) : option Command :=
         match items with
         | [] => None
         | x :: rest =>
             if String.eqb (id (baseOf x)) i then Some x
             else match findInSubtree i x with
                  | Some found => Some found
                  | None => loop rest
                  end
         end) ch
  | _ => None
  end.

(** [findNavigableById(id, items)]: the loop over [items]. *)
Fixpoint findNavigableById (i : string) (items : list Command)
  : option Command :=
  match items with
  | [] => None
  | item :: rest =>
      if String.eqb (id (baseOf item)) i then Some item
      else match findInSubtree i item with
           | Some found => Some found
           | None => findNavigableById i rest
           end
  end.

(** [recurse] pushes onto the array [result] of the enclosing call; the
    array is threaded through.  This is [recurse] for one [item] of the
    loop. *)
Fixpoint recurseItem (item : Command) (result : list Command)
  : list Command :=
  let result := result ++ [item] in
  match item with
  | CategoryCommand _ ch =>
      if (0 <? Z.of_nat (length ch)) then
        (fix loop (items : list Command) (result : list Command) :=
           match items with
           | [] => result
           | x :: rest => loop rest (recurseItem x result)
           end) ch result
      else result
  | _ => result
  end.

Fixpoint recurse (items : list Command) (result : list Command)
  : list Command :=
  match items with
  | [] => result
  | item :: rest => recurse rest (recurseItem item result)
  end.

Definition flattenNavigables (navigables : list Command) : list Command :=
  recurse navigables [].

(** The pre-order listing in the words of the specification: a node, then
    the listings of its children in child order. *)
Fixpoint preorder (c : Command) : list Command :=
  c :: match c with
       | CategoryCommand _ ch =>
           (fix forest (l : list Command) : list Command :=
              match l with
              | [] => []
              | x :: r => preorder x ++ forest r
              end) ch
       | _ => []
       end.

Fixpoint preorderForest (l : list Command) : list Command :=
  match l with
  | [] => []
  | x :: r => preorder x ++ preorderForest r
  end.

(** The number of nodes of a tree and of a forest. *)
Fixpoint nodeCount (c : Command) : nat :=
  S match c with
    | CategoryCommand _ ch =>
        (fix forest (l : list Command) : nat :=
           match l with
           | [] => O
           | x :: r => (nodeCount x + forest r)%nat
           end) ch
    | _ => O
    end.

Fixpoint nodeCountForest (l : list Command) : nat :=
  match l with
  | [] => O
  | x :: r => (nodeCount x + nodeCountForest r)%nat
  end.

(** [InTree c items]: the node [c] occurs in the forest [items]. *)
Inductive InTree (c : Command) : list Command -> Prop :=
| InTree_here rest : InTree c (c :: rest)
| InTree_child b ch rest :
    InTree c ch -> InTree c (CategoryCommand b ch :: rest)
| InTree_later x rest : InTree c rest -> InTree c (x :: rest).

(** The first element of a list with a given id: [list.find(x => x.id === i)]. *)
Definition firstWithId (i : string) (l : list Command) : option Command :=
  List.find (fun c => String.eqb (id (baseOf c)) i) l.

(* ===================================================================== *)
(** * JavaScript array helpers *)
(* ===================================================================== *)

(** [arr.slice(0, end)]: a negative [end] counts from the end of the array. *)
Definition slice0 {A} (arr : list A) (finish : Z) : list A :=
  let len := Z.of_nat (length arr) in
  let k := if finish <? 0 then Z.max (len + finish) 0 else Z.min finish len in
  take (Z.to_nat k) arr.

(** [arr.slice(0, -1)], as [goBack] uses it. *)
Definition dropLast {A} (arr : list A) : list A := slice0 arr (-1).

(** [arr.sort(cmp)].  The sort of ECMAScript is stable, and with a
    comparator that is a difference of keys its result is the one stable
    sorted arrangement; insertion from the right computes it: an element
    goes in front of the first one it does not have to follow. *)
Fixpoint insertSorted {A} (cmp : A -> A -> Q) (x : A) (l : list A) : list A :=
  match l with
  | [] => [x]
  | y :: r =>
      if Qle_bool (cmp x y) 0 then x :: y :: r
      else y :: insertSorted cmp x r
  end.

Fixpoint sortJs {A} (cmp : A -> A -> Q) (l : list A) : list A :=
  match l with
  | [] => []
  | x :: r => insertSorted cmp x (sortJs cmp r)
  end.

(** [arr.findIndex(p)]: the first index whose element satisfies [p], or -1. *)
Fixpoint findIndexFrom {A} (p : A -> bool) (arr : list A) (i : Z) : Z :=
  match arr with
  | [] => -1
  | x :: r => if p x then i else findIndexFrom p r (i + 1)
  end.

Definition findIndex {A} (p : A -> bool) (arr : list A) : Z :=
  findIndexFrom p arr 0.

(** [arr[i]] for a number [i]: [undefined] out of range. *)
Definition at_index {A} (arr : list A) (i : Z) : option A :=
  if i <? 0 then None else arr !! Z.to_nat i.

(** A string is falsy exactly when it is empty. *)
Definition truthyString (s : string) : bool := negb (String.eqb s "").

(* ===================================================================== *)
(** * lib/search/algorithms.ts *)
(* ===================================================================== *)

Inductive SearchAlgorithm := commandscore | fuse.

(** The outcome of a call that may throw. *)
Inductive Outcome (A : Type) :=
| Returned (value : A)
| Threw (message : string).
Arguments Returned {A} value.
Arguments Threw {A} message.

(** One entry of what [fuse.search(query)] returns over a list of strings. *)
Record FuseResult := {
  fuseItem : string;
  refIndex : Z;
  fuseScore : option Q
}.

(** [{ item, score }]; an item object is its position in [items], which
    stands for its reference, with its contents. *)
Record Scored (A : Type) := { item : A; score : Q }.
Arguments item {A} s.
Arguments score {A} s.

Definition ItemObject : Type := nat * Command.

(** The order a descending sort by score has to produce, and the test for
    one score. *)
Definition scoreGe {A} (x y : Scored A) : Prop := (score y <= score x)%Q.
Definition hasScore {A} (v : Q) (x : Scored A) : bool := Qeq_bool (score x) v.

Definition MIN_SCORE : Q := 1 # 10.

Section Search.
(** The two matching libraries are outside the repository: the scoring
    function of command-score, and the module Fuse.js once it is loaded
    ([fuseModule] is [null] until then), as the search it performs over a
    list of strings. *)
Variable commandScore : string -> string -> Q.
Variable fuseModule : option (list string -> string -> list FuseResult).

(** The body of the [items.map] callback of [searchWithCommandScore]. *)
Definition scoreItem (query : string) (it : Command) : Scored Command :=
  let score := commandScore (name (baseOf it)) query in
  let score :=
    match keywords (baseOf it) with
    | Some kws =>
        if (0 <? Z.of_nat (length kws)) then
          fold_left (fun score keyword =>
                       let keywordScore := commandScore keyword query in
                       Qmax score keywordScore) kws score
        else score
    | None => score
    end in
  let score :=
    if isActionOrPortal it
       && match prefixesOf it with
          | Some ps => 0 <? Z.of_nat (length ps)
          | None => false
          end
    then
      fold_left (fun score prefix =>
                   let prefixScore := commandScore prefix query in
                   Qmax score prefixScore)
                (default [] (prefixesOf it)) score
    else score in
  {| item := it; score := score |}.

(** The score [searchWithCommandScore] gives an item. *)
Definition scoreOf (query : string) (it : Command) : Q :=
  score (scoreItem query it).

(** [(a, b) => b.score - a.score] *)
Definition byScoreDesc {A} (a b : Scored A) : Q := (score b - score a)%Q.

Definition searchWithCommandScore
    (items : list Command) (query : string) (maxResults : Z)
  : list Command :=
  let scoredItems := map (scoreItem query) items in
  map item
    (slice0
       (sortJs byScoreDesc
          (List.filter (fun s => Qle_bool MIN_SCORE (score s)) scoredItems))
       maxResults).

(** The strings of one item, in the order of the [flatMap] callback. *)
Definition stringsOf (it : Command) : list string :=
  name (baseOf it)
    :: default [] (keywords (baseOf it))
    ++ (if isActionOrPortal it then default [] (prefixesOf it) else []).

Definition searchableStrings (items : list Command) : list string :=
  flat_map stringsOf items.

(** [strs?.forEach(s => stringToItemMap.set(s, item))] *)
Definition setEach (strs : option (list string)) (obj : ItemObject)
    (m : gmap string ItemObject) : gmap string ItemObject :=
  match strs with
  | Some l => fold_left (fun m s => <[s := obj]> m) l m
  | None => m
  end.

(** The body of the [items.forEach] callback that fills the map. *)
Definition setItem (obj : ItemObject) (m : gmap string ItemObject)
  : gmap string ItemObject :=
  let it := snd obj in
  let m := <[name (baseOf it) := obj]> m in
  let m := setEach (keywords (baseOf it)) obj m in
  if isActionOrPortal it then setEach (prefixesOf it) obj m else m.

Definition itemObjects (items : list Command) : list ItemObject :=
  imap (fun i it => (i, it)) items.

Definition stringToItemMap (items : list Command)
  : gmap string ItemObject :=
  fold_left (fun m obj => setItem obj m) (itemObjects items) ∅.

(** The [for (const result of results)] loop, over the set
    [matchedItems] and the array [scoredResults]. *)
Fixpoint collectResults (m : gmap string ItemObject)
    (results : list FuseResult) (matchedItems : gset nat)
    (scoredResults : list (Scored ItemObject))
  : list (Scored ItemObject) :=
  match results with
  | [] => scoredResults
  | result :: rest =>
      match fuseScore result with
      | Some resultScore =>
          match m !! fuseItem result with
          | Some obj =>
              if decide (fst obj ∈ matchedItems)
              then collectResults m rest matchedItems scoredResults
              else
                let score := Qmax 0 (Qmin 1 (1 - resultScore)) in
                collectResults m rest ({[fst obj]} ∪ matchedItems)
                  (scoredResults ++ [{| item := obj; score := score |}])
          | None => collectResults m rest matchedItems scoredResults
          end
      | None => collectResults m rest matchedItems scoredResults
      end
  end.

Definition searchWithFuse
    (items : list Command) (query : string) (maxResults : Z)
  : Outcome (list Command) :=
  match fuseModule with
  | None => Threw "Fuse.js not loaded"
  | Some fuseSearch =>
      let m := stringToItemMap items in
      let results := fuseSearch (searchableStrings items) query in
      let scoredResults := collectResults m results ∅ [] in
      Returned
        (map (fun s => snd (item s))
           (slice0 (sortJs byScoreDesc scoredResults) maxResults))
  end.

Definition searchItems
    (items : list Command) (query : string)
    (algorithm : SearchAlgorithm) (maxResults : Z)
  : list Command :=
  if negb (truthyString query) then slice0 items maxResults
  else
    match algorithm with
    | fuse =>
        match searchWithFuse items query maxResults with
        | Returned r => r
        | Threw _ => searchWithCommandScore items query maxResults
        end
    | commandscore => searchWithCommandScore items query maxResults
    end.
End Search.

(** The items that own a searchable string, in input order: the first of
    them (the owner in the words of the specification) and the last. *)
Definition ownsString (s : string) (obj : ItemObject) : bool :=
  bool_decide (s ∈ stringsOf (snd obj)).

Definition firstOwner (s : string) (items : list Command) : option ItemObject :=
  head (List.filter (ownsString s) (itemObjects items)).

Definition lastOwner (s : string) (items : list Command) : option ItemObject :=
  last (List.filter (ownsString s) (itemObjects items)).

(* ===================================================================== *)
(** * types/store.ts: the state *)
(* ===================================================================== *)

Record VirtualizationConfig := {
  itemHeight : option Q;
  overscan : option Q;
  pinnedIndices : option (list Z);
  dynamicSizing : option bool
}.

(** The data fields of [FuseConfig]; its function-valued fields ([getFn],
    [sortFn]) and [keys] are never read by the store and are left out. *)
Record FuseConfig := {
  threshold : option Q;
  location : option Q;
  distance : option Q;
  ignoreLocation : option bool;
  includeMatches : option bool;
  minMatchCharLength : option Q;
  shouldSort : option bool;
  findAllMatches : option bool;
  debounceMs : option Q;
  enableCaching : option bool;
  enablePrefixBoosting : option bool;
  minScore : option Q;
  maxResults : option Q
}.

(** An entry [{ id, index }] of [items]. *)
Record NavItem := { navId : string; navIndex : Z }.

Inductive ScrollTrigger := keyboard | auto | hover.
Inductive NavigationDirection := up | down.

(** [CommandState].  [activeId: string | null | undefined] is read for its
    truthiness only; [null] and [undefined] are both [None]. *)
Record CommandState := {
  open : bool;
  activeId : option string;
  loop : bool;
  view : ViewState;
  history : list ViewState;
  recentCommands : list string;
  lastNavigationWasBack : option bool;
  searchLibrary : option SearchAlgorithm;
  fuseConfig : option FuseConfig;
  virtualization : option bool;
  virtualizationConfig : option VirtualizationConfig;
  items : option (list NavItem);
  scrollTrigger : option ScrollTrigger;
  keyboardNavigationActive : option bool;
  navigationDirection : option NavigationDirection
}.

(** [Partial<CommandState>]: the keys an object literal gives, with their
    values, in the order they are written. *)
Inductive FieldUpdate :=
| SetOpen (value : bool)
| SetActiveId (value : option string)
| SetLoop (value : bool)
| SetView (value : ViewState)
| SetHistory (value : list ViewState)
| SetRecentCommands (value : list string)
| SetLastNavigationWasBack (value : option bool)
| SetSearchLibrary (value : option SearchAlgorithm)
| SetFuseConfig (value : option FuseConfig)
| SetVirtualization (value : option bool)
| SetVirtualizationConfig (value : option VirtualizationConfig)
| SetItems (value : option (list NavItem))
| SetScrollTrigger (value : option ScrollTrigger)
| SetKeyboardNavigationActive (value : option bool)
| SetNavigationDirection (value : option NavigationDirection).

Definition PartialState : Type := list FieldUpdate.

(** Copying one key of the partial over the state. *)
Definition applyUpdate (s : CommandState) (u : FieldUpdate) : CommandState :=
  match u with
  | SetOpen value =>
      {| open := value; activeId := activeId s; loop := loop s; view :=
         view s; history := history s; recentCommands := recentCommands s;
         lastNavigationWasBack := lastNavigationWasBack s; searchLibrary :=
         searchLibrary s; fuseConfig := fuseConfig s; virtualization :=
         virtualization s; virtualizationConfig := virtualizationConfig s;
         items := items s; scrollTrigger := scrollTrigger s;
         keyboardNavigationActive := keyboardNavigationActive s;
         navigationDirection := navigationDirection s |}
  | SetActiveId value =>
      {| open := open s; activeId := value; loop := loop s; view := view
         s; history := history s; recentCommands := recentCommands s;
         lastNavigationWasBack := lastNavigationWasBack s; searchLibrary :=
         searchLibrary s; fuseConfig := fuseConfig s; virtualization :=
         virtualization s; virtualizationConfig := virtualizationConfig s;
         items := items s; scrollTrigger := scrollTrigger s;
         keyboardNavigationActive := keyboardNavigationActive s;
         navigationDirection := navigationDirection s |}
  | SetLoop value =>
      {| open := open s; activeId := activeId s; loop := value; view :=
         view s; history := history s; recentCommands := recentCommands s;
         lastNavigationWasBack := lastNavigationWasBack s; searchLibrary :=
         searchLibrary s; fuseConfig := fuseConfig s; virtualization :=
         virtualization s; virtualizationConfig := virtualizationConfig s;
         items := items s; scrollTrigger := scrollTrigger s;
         keyboardNavigationActive := keyboardNavigationActive s;
         navigationDirection := navigationDirection s |}
  | SetView value =>
      {| open := open s; activeId := activeId s; loop := loop s; view :=
         value; history := history s; recentCommands := recentCommands s;
         lastNavigationWasBack := lastNavigationWasBack s; searchLibrary :=
         searchLibrary s; fuseConfig := fuseConfig s; virtualization :=
         virtualization s; virtualizationConfig := virtualizationConfig s;
         items := items s; scrollTrigger := scrollTrigger s;
         keyboardNavigationActive := keyboardNavigationActive s;
         navigationDirection := navigationDirection s |}
  | SetHistory value =>
      {| open := open s; activeId := activeId s; loop := loop s; view :=
         view s; history := value; recentCommands := recentCommands s;
         lastNavigationWasBack := lastNavigationWasBack s; searchLibrary :=
         searchLibrary s; fuseConfig := fuseConfig s; virtualization :=
         virtualization s; virtualizationConfig := virtualizationConfig s;
         items := items s; scrollTrigger := scrollTrigger s;
         keyboardNavigationActive := keyboardNavigationActive s;
         navigationDirection := navigationDirection s |}
  | SetRecentCommands value =>
      {| open := open s; activeId := activeId s; loop := loop s; view :=
         view s; history := history s; recentCommands := value;
         lastNavigationWasBack := lastNavigationWasBack s; searchLibrary :=
         searchLibrary s; fuseConfig := fuseConfig s; virtualization :=
         virtualization s; virtualizationConfig := virtualizationConfig s;
         items := items s; scrollTrigger := scrollTrigger s;
         keyboardNavigationActive := keyboardNavigationActive s;
         navigationDirection := navigationDirection s |}
  | SetLastNavigationWasBack value =>
      {| open := open s; activeId := activeId s; loop := loop s; view :=
         view s; history := history s; recentCommands := recentCommands s;
         lastNavigationWasBack := value; searchLibrary := searchLibrary s;
         fuseConfig := fuseConfig s; virtualization := virtualization s;
         virtualizationConfig := virtualizationConfig s; items := items s;
         scrollTrigger := scrollTrigger s; keyboardNavigationActive :=
         keyboardNavigationActive s; navigationDirection :=
         navigationDirection s |}
  | SetSearchLibrary value =>
      {| open := open s; activeId := activeId s; loop := loop s; view :=
         view s; history := history s; recentCommands := recentCommands s;
         lastNavigationWasBack := lastNavigationWasBack s; searchLibrary :=
         value; fuseConfig := fuseConfig s; virtualization := virtualization
         s; virtualizationConfig := virtualizationConfig s; items := items s;
         scrollTrigger := scrollTrigger s; keyboardNavigationActive :=
         keyboardNavigationActive s; navigationDirection :=
         navigationDirection s |}
  | SetFuseConfig value =>
      {| open := open s; activeId := activeId s; loop := loop s; view :=
         view s; history := history s; recentCommands := recentCommands s;
         lastNavigationWasBack := lastNavigationWasBack s; searchLibrary :=
         searchLibrary s; fuseConfig := value; virtualization :=
         virtualization s; virtualizationConfig := virtualizationConfig s;
         items := items s; scrollTrigger := scrollTrigger s;
         keyboardNavigationActive := keyboardNavigationActive s;
         navigationDirection := navigationDirection s |}
  | SetVirtualization value =>
      {| open := open s; activeId := activeId s; loop := loop s; view :=
         view s; history := history s; recentCommands := recentCommands s;
         lastNavigationWasBack := lastNavigationWasBack s; searchLibrary :=
         searchLibrary s; fuseConfig := fuseConfig s; virtualization :=
         value; virtualizationConfig := virtualizationConfig s; items :=
         items s; scrollTrigger := scrollTrigger s; keyboardNavigationActive
         := keyboardNavigationActive s; navigationDirection :=
         navigationDirection s |}
  | SetVirtualizationConfig value =>
      {| open := open s; activeId := activeId s; loop := loop s; view :=
         view s; history := history s; recentCommands := recentCommands s;
         lastNavigationWasBack := lastNavigationWasBack s; searchLibrary :=
         searchLibrary s; fuseConfig := fuseConfig s; virtualization :=
         virtualization s; virtualizationConfig := value; items := items s;
         scrollTrigger := scrollTrigger s; keyboardNavigationActive :=
         keyboardNavigationActive s; navigationDirection :=
         navigationDirection s |}
  | SetItems value =>
      {| open := open s; activeId := activeId s; loop := loop s; view :=
         view s; history := history s; recentCommands := recentCommands s;
         lastNavigationWasBack := lastNavigationWasBack s; searchLibrary :=
         searchLibrary s; fuseConfig := fuseConfig s; virtualization :=
         virtualization s; virtualizationConfig := virtualizationConfig s;
         items := value; scrollTrigger := scrollTrigger s;
         keyboardNavigationActive := keyboardNavigationActive s;
         navigationDirection := navigationDirection s |}
  | SetScrollTrigger value =>
      {| open := open s; activeId := activeId s; loop := loop s; view :=
         view s; history := history s; recentCommands := recentCommands s;
         lastNavigationWasBack := lastNavigationWasBack s; searchLibrary :=
         searchLibrary s; fuseConfig := fuseConfig s; virtualization :=
         virtualization s; virtualizationConfig := virtualizationConfig s;
         items := items s; scrollTrigger := value; keyboardNavigationActive
         := keyboardNavigationActive s; navigationDirection :=
         navigationDirection s |}
  | SetKeyboardNavigationActive value =>
      {| open := open s; activeId := activeId s; loop := loop s; view :=
         view s; history := history s; recentCommands := recentCommands s;
         lastNavigationWasBack := lastNavigationWasBack s; searchLibrary :=
         searchLibrary s; fuseConfig := fuseConfig s; virtualization :=
         virtualization s; virtualizationConfig := virtualizationConfig s;
         items := items s; scrollTrigger := scrollTrigger s;
         keyboardNavigationActive := value; navigationDirection :=
         navigationDirection s |}
  | SetNavigationDirection value =>
      {| open := open s; activeId := activeId s; loop := loop s; view :=
         view s; history := history s; recentCommands := recentCommands s;
         lastNavigationWasBack := lastNavigationWasBack s; searchLibrary :=
         searchLibrary s; fuseConfig := fuseConfig s; virtualization :=
         virtualization s; virtualizationConfig := virtualizationConfig s;
         items := items s; scrollTrigger := scrollTrigger s;
         keyboardNavigationActive := keyboardNavigationActive s;
         navigationDirection := value |}
  end.

(** [{ ...state, ...partial }], as far as the fields go. *)
Definition spread (s : CommandState) (partial : PartialState) : CommandState :=
  fold_left applyUpdate partial s.

(* ===================================================================== *)
(** * lib/storage.ts *)
(* ===================================================================== *)

Definition MAX_RECENT_COMMANDS : Z := 10.

(** What [chrome.storage.local] holds under the two keys the store uses
    (['commandPalette_recent'], ['commandPalette_searchLibrary']), and
    whether its calls fail.  [SimpleStorageManager] catches every failure:
    [get] then answers the default, [set] does nothing. *)
Record Storage := {
  storedRecent : option (list string);
  storedSearchLibrary : option string;
  storageFails : bool
}.

Definition loadRecentCommandsFrom (st : Storage) : list string :=
  if storageFails st then []
  else default [] (storedRecent st).

Definition loadSearchLibraryFrom (st : Storage) : option SearchAlgorithm :=
  if storageFails st then None
  else match storedSearchLibrary st with
       | Some library =>
           if String.eqb library "fuse" then Some fuse
           else if String.eqb library "commandscore" then Some commandscore
           else None
       | None => None
       end.

Definition saveRecentCommandsTo (commands : list string) (st : Storage)
  : Storage :=
  if storageFails st then st
  else {| storedRecent := Some commands;
          storedSearchLibrary := storedSearchLibrary st;
          storageFails := storageFails st |}.

(* ===================================================================== *)
(** * types/store.ts: the store *)
(* ===================================================================== *)

(** A subscriber callback, as far as the store can tell: a name for the
    function and whether a call of it throws.  A callback does not call
    back into the store while it runs. *)
Record Subscriber := { subscriberName : nat; subscriberThrows : bool }.

Record SubscriptionMeta := {
  callback : Subscriber;
  metaId : nat;
  mountedAt : Z;
  lastActive : Z
}.

Record CommandStoreConfig := { enableRecentCommands : bool }.

(** The two closures the store hands to [queueMicrotask]: the notification
    pass, and the removal of the subscribers whose callback threw. *)
Inductive Microtask :=
| NotifyTask
| CleanupTask (brokenSubscribers : list nat).

(** What the store does to the outside, in order. *)
Inductive Event :=
| Notified (subscription : nat)
| SelectCommandCalled (commandId : string) (onClose : option nat)
| Executed (commandId : string)
| Closed (onClose : nat)
| PreventDefault
| StopPropagation.

(** The closure variables of [createStore] ([state] with the identity of
    the object it points to, [initialState], [storeConfig], [subscribers],
    [nextSubscriptionId]) and the host: the next unused object identity,
    the microtask queue, [Date.now()], extension storage and the trace. *)
Record World := {
  state : CommandState;
  stateRef : nat;
  initialState : CommandState;
  initialRef : nat;
  nextRef : nat;
  storeConfig : CommandStoreConfig;
  subscribers : list (nat * SubscriptionMeta);
  nextSubscriptionId : nat;
  microtasks : list Microtask;
  clock : Z;
  storage : Storage;
  trace : list Event
}.

Definition set_state (v : CommandState) (w : World) : World :=
  {| state := v; stateRef := stateRef w; initialState := initialState w;
     initialRef := initialRef w; nextRef := nextRef w; storeConfig :=
     storeConfig w; subscribers := subscribers w; nextSubscriptionId :=
     nextSubscriptionId w; microtasks := microtasks w; clock := clock w;
     storage := storage w; trace := trace w |}.

Definition set_stateRef (v : nat) (w : World) : World :=
  {| state := state w; stateRef := v; initialState := initialState w;
     initialRef := initialRef w; nextRef := nextRef w; storeConfig :=
     storeConfig w; subscribers := subscribers w; nextSubscriptionId :=
     nextSubscriptionId w; microtasks := microtasks w; clock := clock w;
     storage := storage w; trace := trace w |}.

Definition set_nextRef (v : nat) (w : World) : World :=
  {| state := state w; stateRef := stateRef w; initialState :=
     initialState w; initialRef := initialRef w; nextRef := v; storeConfig :=
     storeConfig w; subscribers := subscribers w; nextSubscriptionId :=
     nextSubscriptionId w; microtasks := microtasks w; clock := clock w;
     storage := storage w; trace := trace w |}.

Definition set_subscribers (v : list (nat * SubscriptionMeta)) (w : World) : World :=
  {| state := state w; stateRef := stateRef w; initialState :=
     initialState w; initialRef := initialRef w; nextRef := nextRef w;
     storeConfig := storeConfig w; subscribers := v; nextSubscriptionId :=
     nextSubscriptionId w; microtasks := microtasks w; clock := clock w;
     storage := storage w; trace := trace w |}.

Definition set_nextSubscriptionId (v : nat) (w : World) : World :=
  {| state := state w; stateRef := stateRef w; initialState :=
     initialState w; initialRef := initialRef w; nextRef := nextRef w;
     storeConfig := storeConfig w; subscribers := subscribers w;
     nextSubscriptionId := v; microtasks := microtasks w; clock := clock w;
     storage := storage w; trace := trace w |}.

Definition set_microtasks (v : list Microtask) (w : World) : World :=
  {| state := state w; stateRef := stateRef w; initialState :=
     initialState w; initialRef := initialRef w; nextRef := nextRef w;
     storeConfig := storeConfig w; subscribers := subscribers w;
     nextSubscriptionId := nextSubscriptionId w; microtasks := v; clock :=
     clock w; storage := storage w; trace := trace w |}.

Definition set_storage (v : Storage) (w : World) : World :=
  {| state := state w; stateRef := stateRef w; initialState :=
     initialState w; initialRef := initialRef w; nextRef := nextRef w;
     storeConfig := storeConfig w; subscribers := subscribers w;
     nextSubscriptionId := nextSubscriptionId w; microtasks := microtasks w;
     clock := clock w; storage := v; trace := trace w |}.

Definition set_trace (v : list Event) (w : World) : World :=
  {| state := state w; stateRef := stateRef w; initialState :=
     initialState w; initialRef := initialRef w; nextRef := nextRef w;
     storeConfig := storeConfig w; subscribers := subscribers w;
     nextSubscriptionId := nextSubscriptionId w; microtasks := microtasks w;
     clock := clock w; storage := storage w; trace := v |}.

Definition log (e : Event) (w : World) : World :=
  set_trace (trace w ++ [e]) w.

(** [queueMicrotask(task)] *)
Definition queueMicrotask (task : Microtask) (w : World) : World :=
  set_microtasks (microtasks w ++ [task]) w.

(** [Map.prototype.set] and [delete] on a map kept in insertion order. *)
Fixpoint mapSet {V} (k : nat) (v : V) (m : list (nat * V)) : list (nat * V) :=
  match m with
  | [] => [(k, v)]
  | (k', v') :: rest =>
      if Nat.eqb k' k then (k, v) :: rest else (k', v') :: mapSet k v rest
  end.

Definition mapDelete {V} (k : nat) (m : list (nat * V)) : list (nat * V) :=
  List.filter (fun entry => negb (Nat.eqb (fst entry) k)) m.

Definition createStore (initial : CommandState) (config : CommandStoreConfig)
    (host : Storage) (now : Z) : World :=
  {| state := initial; stateRef := 0%nat;
     initialState := initial; initialRef := 0%nat;
     nextRef := 1%nat;
     storeConfig := config;
     subscribers := []; nextSubscriptionId := 0%nat;
     microtasks := []; clock := now; storage := host; trace := [] |}.

(** [subscribe(callback)]; the closure it returns is [unsubscribe id] for
    the id given back here. *)
Definition subscribe (cb : Subscriber) (w : World) : nat * World :=
  let id := nextSubscriptionId w in
  let w := set_nextSubscriptionId (S id) w in
  let now := clock w in
  let meta := {| callback := cb; metaId := id;
                 mountedAt := now; lastActive := now |} in
  (id, set_subscribers (mapSet id meta (subscribers w)) w).

Definition unsubscribe (id : nat) (w : World) : World :=
  set_subscribers (mapDelete id (subscribers w)) w.

(** [meta.lastActive = now] *)
Definition touch (now : Z) (meta : SubscriptionMeta) : SubscriptionMeta :=
  {| callback := callback meta; metaId := metaId meta;
     mountedAt := mountedAt meta; lastActive := now |}.

(** [subscribers.forEach((meta, id) => { try { ... } catch { ... } })]:
    the entries with their new [lastActive], the array [brokenSubscribers]
    and the calls made. *)
Fixpoint forEachSubscriber (now : Z) (entries : list (nat * SubscriptionMeta))
    (brokenSubscribers : list nat) (calls : list Event)
  : list (nat * SubscriptionMeta) * list nat * list Event :=
  match entries with
  | [] => ([], brokenSubscribers, calls)
  | (id, meta) :: rest =>
      let meta := touch now meta in
      let calls := calls ++ [Notified id] in
      let brokenSubscribers :=
        if subscriberThrows (callback meta)
        then brokenSubscribers ++ [id] else brokenSubscribers in
      let '(rest, brokenSubscribers, calls) :=
        forEachSubscriber now rest brokenSubscribers calls in
      ((id, meta) :: rest, brokenSubscribers, calls)
  end.

(** The closure [notifySubscribers] queues, when the host runs it;
    [unstable_batchedUpdates(f)] runs [f]. *)
Definition runNotify (w : World) : World :=
  let now := clock w in
  let '(entries, brokenSubscribers, calls) :=
    forEachSubscriber now (subscribers w) [] [] in
  let w := set_trace (trace w ++ calls) (set_subscribers entries w) in
  if (0 <? Z.of_nat (length brokenSubscribers))
  then queueMicrotask (CleanupTask brokenSubscribers) w
  else w.

Definition runCleanup (brokenSubscribers : list nat) (w : World) : World :=
  fold_left (fun w id => unsubscribe id w) brokenSubscribers w.

Definition runMicrotask (task : Microtask) (w : World) : World :=
  match task with
  | NotifyTask => runNotify w
  | CleanupTask brokenSubscribers => runCleanup brokenSubscribers w
  end.

(** The host empties the microtask queue when the running task ends: it
    takes the oldest microtask and runs it, until none is left. *)
Fixpoint drain (fuel : nat) (w : World) : World :=
  match fuel with
  | O => w
  | S fuel =>
      match microtasks w with
      | [] => w
      | task :: queue => drain fuel (runMicrotask task (set_microtasks queue w))
      end
  end.

(** A notification pass queues at most one more microtask, which queues
    nothing: two steps for each microtask are enough. *)
Definition flushMicrotasks (w : World) : World :=
  drain (2 * length (microtasks w)) w.

Definition notifySubscribers (w : World) : World :=
  queueMicrotask NotifyTask w.

Definition getState (w : World) : CommandState := state w.

(** The identities in use are below the next unused one. *)
Definition wellFormed (w : World) : Prop :=
  (stateRef w < nextRef w)%nat /\ (initialRef w < nextRef w)%nat.

(** The calls one notification pass makes, and how often a trace shows a
    call of the callback of subscription [i]. *)
Definition passCalls (entries : list (nat * SubscriptionMeta)) : list Event :=
  map (fun entry => Notified (fst entry)) entries.

Definition isNotified (i : nat) (e : Event) : bool :=
  match e with
  | Notified j => Nat.eqb j i
  | _ => false
  end.

Definition notifiedCount (i : nat) (tr : list Event) : nat :=
  length (List.filter (isNotified i) tr).

Definition subscriptionCount (i : nat) (entries : list (nat * SubscriptionMeta))
  : nat :=
  length (List.filter (fun entry => Nat.eqb (fst entry) i) entries).

(** [setState(partial)]: the object spread makes a new object, whose
    identity is the next unused one. *)
Definition setState (partial : PartialState) (w : World) : World :=
  let oldState := stateRef w in
  let fresh := nextRef w in
  let w := set_nextRef (S fresh) w in
  let w := set_stateRef fresh (set_state (spread (state w) partial) w) in
  if negb (Nat.eqb oldState (stateRef w)) then notifySubscribers w else w.

(** A burst of [setState] calls made one after the other in one task. *)
Definition setStateBurst (partials : list PartialState) (w : World) : World :=
  fold_left (fun w partial => setState partial w) partials w.

Definition navigate (newView : ViewState) (w : World) : World :=
  let currentView := view (state w) in
  setState [SetView newView;
            SetHistory (history (state w) ++ [currentView])] w.

(** [goBack()]: a [ViewState] is an object, so [!previousView] holds only
    when the array has no last element. *)
Definition goBack (w : World) : bool * World :=
  let history := history (state w) in
  if (Z.of_nat (length history) =? 0) then (false, w)
  else
    match at_index history (Z.of_nat (length history) - 1) with
    | None => (false, w)
    | Some previousView =>
        (true,
         setState [SetView previousView;
                   SetHistory (dropLast history);
                   SetLastNavigationWasBack (Some true)] w)
    end.

Definition loadSearchLibrary (w : World) : option SearchAlgorithm :=
  loadSearchLibraryFrom (storage w).

Definition loadRecentCommands (w : World) : list string :=
  loadRecentCommandsFrom (storage w).

Definition saveRecentCommands (commands : list string) (w : World) : World :=
  set_storage (saveRecentCommandsTo commands (storage w)) w.

Definition sameLibrary (a b : option SearchAlgorithm) : bool :=
  match a, b with
  | Some commandscore, Some commandscore => true
  | Some fuse, Some fuse => true
  | None, None => true
  | _, _ => false
  end.

(** [init()]: neither load throws, so the [catch] is never entered. *)
Definition init (w : World) : World :=
  let savedSearchLibrary := loadSearchLibrary w in
  let library :=
    match savedSearchLibrary with
    | Some saved => Some saved
    | None => searchLibrary (state w)
    end in
  let w :=
    if negb (sameLibrary library (searchLibrary (state w)))
    then setState [SetSearchLibrary library] w else w in
  if enableRecentCommands (storeConfig w) then
    let recent := loadRecentCommands w in
    setState [SetRecentCommands recent] w
  else w.

Definition addRecentCommand (commandId : string) (w : World) : World :=
  let current := recentCommands (state w) in
  let withoutThis :=
    List.filter (fun id => negb (String.eqb id commandId)) current in
  let updated := slice0 (commandId :: withoutThis) MAX_RECENT_COMMANDS in
  let w := setState [SetRecentCommands updated] w in
  saveRecentCommands updated w.

Definition destroy (w : World) : World :=
  let w := set_subscribers [] w in
  let w := set_stateRef (initialRef w) (set_state (initialState w) w) in
  set_nextSubscriptionId 0%nat w.

(* ===================================================================== *)
(** * JavaScript string helpers *)
(* ===================================================================== *)

(** The white space [String.prototype.trim] removes, among the characters
    a [string] can hold (code units below 256): tab, line feed, vertical
    tab, form feed, carriage return, space and no-break space. *)
Definition isWhiteSpace (c : ascii) : bool :=
  existsb (Nat.eqb (nat_of_ascii c)) [9; 10; 11; 12; 13; 32; 160]%nat.

Fixpoint trimStart (s : string) : string :=
  match s with
  | EmptyString => EmptyString
  | String c rest => if isWhiteSpace c then trimStart rest else s
  end.

Fixpoint trimEnd (s : string) : string :=
  match s with
  | EmptyString => EmptyString
  | String c rest =>
      let rest := trimEnd rest in
      if isWhiteSpace c && negb (truthyString rest) then EmptyString
      else String c rest
  end.

Definition trim (s : string) : string := trimEnd (trimStart s).

(** [s.endsWith(suffix)] *)
Definition endsWith (s suffix : string) : bool :=
  let n := String.length s in
  let k := String.length suffix in
  (k <=? n)%nat && String.eqb (substring (n - k) k s) suffix.

(** [arr?.includes(x)] on an optional array of strings. *)
Definition includes (arr : option (list string)) (x : string) : bool :=
  match arr with
  | Some l => existsb (String.eqb x) l
  | None => false
  end.

(* ===================================================================== *)
(** * The operations that read the command tree *)
(* ===================================================================== *)

Record KeyboardEvent := { targetTagName : string; key : string }.

(** [isNavigationKey] *)
Definition isNavigationKey (key : string) : bool :=
  existsb (String.eqb key) ["ArrowUp"; "ArrowDown"; "Enter"].

(** [calculateNextIndex] *)
Definition calculateNextIndex
    (currentIndex : Z) (key : string) (itemsLength : Z) (loop : bool) : Z :=
  if String.eqb key "ArrowDown" then
    if currentIndex <? itemsLength - 1 then currentIndex + 1
    else if loop then 0
    else currentIndex
  else
    if 0 <? currentIndex then currentIndex - 1
    else if loop then itemsLength - 1
    else currentIndex.

(** [findCommandForPrefix] of [usePrefixTrigger]: the search of the subtree
    of one [item] that did not match itself, and the loop. *)
Fixpoint findPrefixInSubtree (prefix : string) (item : Command)
  : option Command :=
  match item with
  | CategoryCommand _ ch =>
      (fix loop (items : list Command) : option Command :=
         match items with
         | [] => None
         | x :: rest =>
             if includes (prefixesOf x) prefix then Some x
             else match findPrefixInSubtree prefix x with
                  | Some found => Some found
                  | None => loop rest
                  end
         end) ch
  | _ => None
  end.

Fixpoint findCommandForPrefix (prefix : string) (items : list Command)
  : option Command :=
  match items with
  | [] => None
  | item :: rest =>
      if includes (prefixesOf item) prefix then Some item
      else match findPrefixInSubtree prefix item with
           | Some found => Some found
           | None => findCommandForPrefix prefix rest
           end
  end.

(** [findCommandById] of [selectCommand] is, statement for statement, the
    loop of [findNavigableById]. *)
Definition findCommandById (i : string) (items : list Command)
  : option Command :=
  findNavigableById i items.

Section Palette.
(** [commandPaletteConfig.commands || []], the command tree the palette was
    configured with. *)
Variable commands : list Command.

(** The [try] block of [selectCommand], for the [command] that was found:
    whether it completed or threw, and the world it left.  The awaited
    steps run in the order they are written; [addRecentCommand] and
    [navigate] do not throw, [execute] may. *)
Definition selectCommandBody (command : Command) (commandId : string)
    (onClose : option nat) (w : World) : Outcome unit * World :=
  let w :=
    if enableRecentCommands (storeConfig w)
    then addRecentCommand commandId w else w in
  match command with
  | ActionCommand b _ execute =>
      let w := log (Executed (id b)) w in
      if execThrows execute then (Threw "execute", w)
      else
        match onClose with
        | Some f => (Returned tt, log (Closed f) w)
        | None => (Returned tt, w)
        end
  | CategoryCommand _ _ =>
      (Returned tt,
       navigate {| type := category; portalId := None;
                   categoryId := Some commandId; query := Some "";
                   showSearchInput := None |} w)
  | PortalCommand _ _ show =>
      (Returned tt,
       navigate {| type := portal; portalId := Some commandId;
                   categoryId := None; query := Some "";
                   showSearchInput := show |} w)
  end.

(** [selectCommand(commandId, onClose)].  The optional [onClose] is the
    name of the function passed, if one was.  The [catch] block is empty:
    the promise resolves whether the [try] block completed or threw, and
    what the block did before it threw stays done. *)
Definition selectCommand (commandId : string) (onClose : option nat)
    (w : World) : Outcome unit * World :=
  let w := log (SelectCommandCalled commandId onClose) w in
  match findCommandById commandId commands with
  | None => (Returned tt, w)
  | Some command =>
      match selectCommandBody command commandId onClose w with
      | (Returned _, w) => (Returned tt, w)
      | (Threw _, w) => (Returned tt, w)
      end
  end.

(** The effect of [usePrefixTrigger(query, onClose)], run for a new
    [query]; [lastQueryRef.current] goes in and comes out. *)
Definition usePrefixTrigger (query : string) (onClose : nat)
    (lastQueryRef : string) (w : World) : string * World :=
  let st := getState w in
  if default false (lastNavigationWasBack st) then
    (lastQueryRef, setState [SetLastNavigationWasBack (Some false)] w)
  else if String.eqb query lastQueryRef then (lastQueryRef, w)
  else
    let lastQueryRef := query in
    if negb (truthyString query) || negb (endsWith query " ")
    then (lastQueryRef, w)
    else
      let prefix := trim query in
      if negb (truthyString prefix) then (lastQueryRef, w)
      else
        match findCommandForPrefix prefix commands with
        | None => (lastQueryRef, w)
        | Some matchingCommand =>
            (lastQueryRef,
             snd (selectCommand (id (baseOf matchingCommand))
                    (Some onClose) w))
        end.

(** [state.activeId ? items.findIndex(item => item.id === state.activeId)
    : -1] *)
Definition currentIndexOf (st : CommandState) (items : list NavItem) : Z :=
  match activeId st with
  | Some active =>
      if truthyString active
      then findIndex (fun it => String.eqb (navId it) active) items
      else -1
  | None => -1
  end.

(** [handleGlobalKeyDown(e)] *)
Definition handleGlobalKeyDown (e : KeyboardEvent) (w : World) : World :=
  if String.eqb (targetTagName e) "INPUT"
     || String.eqb (targetTagName e) "TEXTAREA" then w
  else if negb (isNavigationKey (key e)) then w
  else
    let st := getState w in
    let items := default [] (items st) in
    let w := log StopPropagation (log PreventDefault w) in
    if (Z.of_nat (length items) =? 0) then w
    else
      let currentIndex := currentIndexOf st items in
      if String.eqb (key e) "Enter" && (0 <=? currentIndex) then
        match at_index items currentIndex with
        | Some currentItem => snd (selectCommand (navId currentItem) None w)
        | None => w
        end
      else
        let newIndex :=
          calculateNextIndex currentIndex (key e)
            (Z.of_nat (length items)) (loop st) in
        if (newIndex =? currentIndex) || (newIndex <? 0)
           || (Z.of_nat (length items) <=? newIndex) then w
        else
          match at_index items newIndex with
          | None => w
          | Some targetItem =>
              setState
                [SetActiveId (Some (navId targetItem));
                 SetScrollTrigger (Some keyboard);
                 SetKeyboardNavigationActive (Some true);
                 SetNavigationDirection
                   (Some (if String.eqb (key e) "ArrowDown"
                          then down else up))] w
          end.
End Palette.


(** The calls of [selectCommand] a trace shows. *)
Definition selectCalls (tr : list Event) : list (string * option nat) :=
  flat_map (fun e => match e with
                     | SelectCommandCalled i f => [(i, f)]
                     | _ => []
                     end) tr.

(** When the prefix detector selects a command, in the words of the
    specification: the query ends with a single trailing space, and a node
    of the tree has the trimmed query among its prefixes. *)
Definition endsWithSingleSpace (q : string) : bool :=
  endsWith q " " && negb (endsWith q "  ").

Definition claimedTrigger (commands : list Command) (q : string) : bool :=
  endsWithSingleSpace q
  && existsb (fun c => includes (prefixesOf c) (trim q))
       (preorderForest commands).

(** The command the prefix detector selects, as the code decides it: none
    after a navigation back, none for the query processed last; otherwise,
    for a query that ends with a space and is not white space only, the
    first node in pre-order that has the trimmed query among its
    prefixes. *)
Definition prefixTarget (commands : list Command) (q lastQuery : string)
    (st : CommandState) : option Command :=
  if default false (lastNavigationWasBack st) then None
  else if String.eqb q lastQuery then None
  else if endsWith q " " && truthyString (trim q)
       then List.find (fun c => includes (prefixesOf c) (trim q))
              (preorderForest commands)
       else None.

(* ===================================================================== *)
(** * Example data *)
(* ===================================================================== *)

(** The tree of the scenario of the specification: a category "Dev Tools"
    with the action [devtools] and the portal [calculator]. *)
Definition plain (i n : string) : BaseCommand :=
  {| id := i; name := n; icon := None; description := None;
     keywords := None |}.

Definition devtools : Command :=
  ActionCommand (plain "devtools" "Open DevTools") None Returns.

Definition calculator : Command :=
  PortalCommand (plain "calculator" "Calculator") (Some ["!calc"]) None.

Definition devToolsCategory : Command :=
  CategoryCommand (plain "dev-tools" "Dev Tools") [devtools; calculator].

Definition exampleTree : list Command := [devToolsCategory].

(** Two actions with one name, an action whose [execute] throws, and an
    action that lists the empty string among its prefixes. *)
Definition openFirst : Command :=
  ActionCommand (plain "open-first" "open") None Returns.

Definition openSecond : Command :=
  ActionCommand (plain "open-second" "open") None Returns.

Definition failing : Command :=
  ActionCommand (plain "boom" "Explode") None Throws.

Definition blankPrefix : Command :=
  ActionCommand (plain "blank" "Blank") (Some [""]) Returns.

(** A scoring function and a search over strings to run the algorithms
    with: 1 for the query itself, 1/2 for a string that starts with it; and
    the strings equal to the query, at distance 0. *)
Definition exampleScore (s q : string) : Q :=
  if String.eqb s q then 1
  else if String.prefix q s then 1 # 2
  else 0.

Definition exactFuse (strings : list string) (q : string) : list FuseResult :=
  omap (fun entry =>
          if String.eqb (snd entry) q
          then Some {| fuseItem := snd entry;
                       refIndex := Z.of_nat (fst entry);
                       fuseScore := Some 0%Q |}
          else None)
       (imap (fun i s => (i, s)) strings).

(** The initial state [Command.tsx] creates the store with, and stores
    over it. *)
Definition exampleInitial : CommandState :=
  {| open := false; activeId := None; loop := false;
     view := {| type := root; portalId := None; categoryId := None;
                query := Some ""; showSearchInput := None |};
     history := []; recentCommands := [];
     lastNavigationWasBack := None; searchLibrary := Some fuse;
     fuseConfig := None; virtualization := Some false;
     virtualizationConfig := None; items := None; scrollTrigger := None;
     keyboardNavigationActive := None; navigationDirection := None |}.

Definition emptyStorage : Storage :=
  {| storedRecent := None; storedSearchLibrary := None;
     storageFails := false |}.

Definition exampleWorld : World :=
  createStore exampleInitial {| enableRecentCommands := true |}
    emptyStorage 0.


(** A store whose list of recent commands is full: ten ids, ["k"] the
    most recent and ["b"] the oldest. *)
Definition busyWorld : World :=
  fold_left (fun w i => addRecentCommand i w)
    ["b"; "c"; "d"; "e"; "f"; "g"; "h"; "i"; "j"; "k"] exampleWorld.

(** The store with one subscriber. *)
Definition watchedWorld : World :=
  snd (subscribe {| subscriberName := 7; subscriberThrows := false |}
         exampleWorld).

(** Two navigable rows, the second one active. *)
Definition twoRows : list NavItem :=
  [{| navId := "devtools"; navIndex := 0 |};
   {| navId := "calculator"; navIndex := 1 |}].

Definition rowsWorld : World :=
  setState [SetItems (Some twoRows); SetActiveId (Some "calculator")]
    exampleWorld.

Definition arrowDown : KeyboardEvent :=
  {| targetTagName := "DIV"; key := "ArrowDown" |}.

(** The two rows with no active one, and a move-up. *)
Definition idleRowsWorld : World :=
  setState [SetItems (Some twoRows)] exampleWorld.

Definition arrowUp : KeyboardEvent :=
  {| targetTagName := "DIV"; key := "ArrowUp" |}.

(* ===================================================================== *)
(** * Further definitions: the store *)
(* ===================================================================== *)

(** The ids [brokenSubscribers] collects in one notification pass. *)
Definition brokenKeys (entries : list (nat * SubscriptionMeta)) : list nat :=
  map fst (List.filter (fun entry => subscriberThrows (callback (snd entry)))
             entries).

(** Every id in the map was handed out by the counter. *)
Definition subscriptionsFresh (w : World) : Prop :=
  Forall (fun entry => (fst entry < nextSubscriptionId w)%nat) (subscribers w).

(** [addRecentCommand] for one id after the other. *)
Definition addRecentCommands (ids : list string) (w : World) : World :=
  fold_left (fun w i => addRecentCommand i w) ids w.

(** No node of the forest has the id. *)
Definition idAbsent (i : string) (T : list Command) : Prop :=
  forall c, InTree c T -> id (baseOf c) <> i.

(* ===================================================================== *)
(** * Further definitions: the callers of the search *)
(* ===================================================================== *)

(** [CommandItemData], without its [onSelect] closure: what the category
    view lists for a child. *)
Record CommandItemData := {
  itemId : string;
  itemName : string;
  itemIcon : string;
  itemDescription : string;
  itemKeywords : list string
}.

Inductive PortalRendererResult :=
| CategoryData (title : string) (categoryCommands : list CommandItemData)
| PortalData (shown : Command)
| NoResult.

(** The body of the [filteredChildren.map] callback of [PortalRenderer]. *)
Definition toItemData (child : Command) : CommandItemData :=
  {| itemId := id (baseOf child);
     itemName := name (baseOf child);
     itemIcon := default "" (icon (baseOf child));
     itemDescription := default "" (description (baseOf child));
     itemKeywords := default [] (keywords (baseOf child)) |}.

Section Callers.
Variable commandScore : string -> string -> Q.
Variable fuseModule : option (list string -> string -> list FuseResult).
(** [commandPaletteConfig.commands || []] *)
Variable commands : list Command.

(** [query ? searchItems(children, query, searchAlgorithm, children.length)
    : children], where [searchAlgorithm] is the store's [searchLibrary] or
    ['commandscore']. *)
Definition filteredChildren (children : list Command) (query : string)
    (library : option SearchAlgorithm) : list Command :=
  let searchAlgorithm := default commandscore library in
  if truthyString query
  then searchItems commandScore fuseModule children query searchAlgorithm
         (Z.of_nat (length children))
  else children.

(** [PortalRenderer({ portalId, query, store })]; its [findCommandById] is
    the loop of [findNavigableById] again.  What a portal renders is
    opaque: the result names the portal command. *)
Definition PortalRenderer (viewId : string) (query : string)
    (library : option SearchAlgorithm) : PortalRendererResult :=
  match findNavigableById viewId commands with
  | Some (CategoryCommand b children) =>
      CategoryData (name b)
        (map toItemData (filteredChildren children query library))
  | Some (PortalCommand b p s) => PortalData (PortalCommand b p s)
  | _ => NoResult
  end.
End Callers.

(* ===================================================================== *)
(** * Further definitions: the search hook ([useSearch]) *)
(* ===================================================================== *)

(** ["${algorithm}"] *)
Definition algorithmName (a : SearchAlgorithm) : string :=
  match a with
  | commandscore => "commandscore"
  | fuse => "fuse"
  end.

(** [cacheRef.current], a [Map<string, Command[]>] in insertion order. *)
Definition SearchCache : Type := list (string * list Command).

Fixpoint cacheGet (key : string) (cache : SearchCache)
  : option (list Command) :=
  match cache with
  | [] => None
  | (k, v) :: rest => if String.eqb k key then Some v else cacheGet key rest
  end.

Fixpoint cacheSet (key : string) (v : list Command) (cache : SearchCache)
  : SearchCache :=
  match cache with
  | [] => [(key, v)]
  | (k, v') :: rest =>
      if String.eqb k key then (key, v) :: rest
      else (k, v') :: cacheSet key v rest
  end.

Definition cacheDelete (key : string) (cache : SearchCache) : SearchCache :=
  List.filter (fun entry => negb (String.eqb (fst entry) key)) cache.

(** At most 51 entries, none under the empty key. *)
Definition cacheBounded (cache : SearchCache) : Prop :=
  (length cache <= 51)%nat
  /\ Forall (fun entry => truthyString (fst entry) = true) cache.

Section SearchHook.
Variable commandScore : string -> string -> Q.
Variable fuseModule : option (list string -> string -> list FuseResult).
(** ["${maxResults}"], the decimal form JavaScript gives a number. *)
Variable numberToString : Z -> string.

(** ["${debouncedQuery}:${algorithm}:${maxResults}"] *)
Definition cacheKeyOf (q : string) (algorithm : SearchAlgorithm)
    (maxResults : Z) : string :=
  String.append q
    (String.append ":"
       (String.append (algorithmName algorithm)
          (String.append ":" (numberToString maxResults)))).

(** The [useMemo] callback that computes [filteredCommands], over the
    cache it reads and writes. *)
Definition filteredCommands (flattenedItems : list Command)
    (debouncedQuery : string) (algorithm : SearchAlgorithm) (maxResults : Z)
    (cache : SearchCache) : list Command * SearchCache :=
  if negb (truthyString debouncedQuery)
  then (slice0 flattenedItems maxResults, cache)
  else
    let cacheKey := cacheKeyOf debouncedQuery algorithm maxResults in
    match cacheGet cacheKey cache with
    | Some cached => (cached, cache)
    | None =>
        let results :=
          searchItems commandScore fuseModule flattenedItems debouncedQuery
            algorithm maxResults in
        let cache :=
          if (50 <? Z.of_nat (length cache)) then
            match cache with
            | (firstKey, _) :: _ =>
                if truthyString firstKey then cacheDelete firstKey cache
                else cache
            | [] => cache
            end
          else cache in
        (results, cacheSet cacheKey results cache)
    end.
End SearchHook.

(** [flatten] of [useSearch] writes every node into the map [result] under
    its id; this is [flatten] for one [item] of the loop, and the loop. *)
Fixpoint flattenItemInto (item : Command) (result : gmap string Command)
  : gmap string Command :=
  let result := <[id (baseOf item) := item]> result in
  match item with
  | CategoryCommand _ ch =>
      (fix loop (cmds : list Command) (result : gmap string Command) :=
         match cmds with
         | [] => result
         | x :: rest => loop rest (flattenItemInto x result)
         end) ch result
  | _ => result
  end.

Fixpoint flattenInto (cmds : list Command) (result : gmap string Command)
  : gmap string Command :=
  match cmds with
  | [] => result
  | item :: rest => flattenInto rest (flattenItemInto item result)
  end.

Definition flattenedCommands (items : list Command) : gmap string Command :=
  flattenInto items ∅.

(** [cmd !== null] for a value that is a command or [undefined]: what
    [Map.get] gives is never [null]. *)
Definition notNull (cmd : option Command) : bool := true.

(** [recentCommandObjects]: an entry is a command or [undefined]. *)
Definition recentCommandObjects (recent : list string)
    (flattened : gmap string Command) : list (option Command) :=
  if (Z.of_nat (length recent) =? 0) then []
  else List.filter notNull (map (fun i => flattened !! i) recent).

(** The ids of the nodes of a forest, in pre-order. *)
Definition treeIds (T : list Command) : list string :=
  map (fun c => id (baseOf c)) (preorderForest T).

(* ===================================================================== *)
(** * Further definitions: lib/utils.ts and the virtual list *)
(* ===================================================================== *)

(** The [for] loop of [shallowEqualArrays], from index [i], for the
    iterations that are left; [a[i] !== b[i]] compares strings, or
    [undefined] past the end. *)
Fixpoint shallowEqualLoop (a b : list string) (i : nat) (remaining : nat)
  : bool :=
  match remaining with
  | O => true
  | S remaining =>
      match a !! i, b !! i with
      | Some x, Some y =>
          if negb (String.eqb x y) then false
          else shallowEqualLoop a b (S i) remaining
      | None, None => shallowEqualLoop a b (S i) remaining
      | _, _ => false
      end
  end.

Definition shallowEqualArrays (a b : list string) : bool :=
  if negb (Nat.eqb (length a) (length b)) then false
  else shallowEqualLoop a b 0 (length a).

(** [for (let i = range.startIndex; i <= range.endIndex; i++)
    visibleIndices.push(i)] *)
Fixpoint countUp (i : Z) (steps : nat) : list Z :=
  match steps with
  | O => []
  | S steps => i :: countUp (i + 1) steps
  end.

Definition visibleIndices (startIndex endIndex : Z) : list Z :=
  countUp startIndex (Z.to_nat (endIndex - startIndex + 1)).

(** [[...new Set(xs)]]: the first occurrence of each number, in order. *)
Fixpoint setOf (xs : list Z) (seen : list Z) : list Z :=
  match xs with
  | [] => []
  | x :: rest =>
      if existsb (Z.eqb x) seen then setOf rest seen
      else x :: setOf rest (x :: seen)
  end.

(** [(a, b) => a - b] *)
Definition ascending (a b : Z) : Q := inject_Z (a - b).

(** The [rangeExtractor] handed to the virtualizer. *)
Definition rangeExtractor (pinnedIndices : list Z) (startIndex endIndex : Z)
  : list Z :=
  sortJs ascending
    (setOf (pinnedIndices ++ visibleIndices startIndex endIndex) []).

(* ===================================================================== *)
(** * Further definitions: loading Fuse.js *)
(* ===================================================================== *)

(** The promise [import('fuse.js')] returned. *)
Inductive ImportPromise := Pending | Fulfilled | Rejected.

(** The two module variables [fuseModule] and [fuseLoadingPromise]. *)
Record FuseLoader := {
  loadedModule : option (list string -> string -> list FuseResult);
  fuseLoadingPromise : option ImportPromise
}.

Inductive FuseStatus := not_loaded | loading | loaded | failed.

(** [getFuseStatus()] *)
Definition getFuseStatus (s : FuseLoader) : FuseStatus :=
  match loadedModule s with
  | Some _ => loaded
  | None =>
      match fuseLoadingPromise s with
      | Some _ => loading
      | None => not_loaded
      end
  end.

(** [loadFuse()] up to its [await]: it starts the import only when there
    is neither a module nor a promise. *)
Definition loadFuse (s : FuseLoader) : FuseLoader :=
  match loadedModule s with
  | Some _ => s
  | None =>
      match fuseLoadingPromise s with
      | Some _ => s
      | None => {| loadedModule := None; fuseLoadingPromise := Some Pending |}
      end
  end.

(** [preloadFuse()] *)
Definition preloadFuse (s : FuseLoader) : FuseLoader :=
  match loadedModule s, fuseLoadingPromise s with
  | None, None => loadFuse s
  | _, _ => s
  end.

(** The import settles: [loadFuse] resumes after its [await] and stores
    the module, or the [await] throws and nothing is stored. *)
Definition importSettles
    (outcome : option (list string -> string -> list FuseResult))
    (s : FuseLoader) : FuseLoader :=
  match fuseLoadingPromise s with
  | Some Pending =>
      match outcome with
      | Some module => {| loadedModule := Some module;
                          fuseLoadingPromise := Some Fulfilled |}
      | None => {| loadedModule := loadedModule s;
                   fuseLoadingPromise := Some Rejected |}
      end
  | _ => s
  end.

(** What the rest of the program can do to the loader. *)
Inductive LoaderStep :=
| CallLoadFuse
| CallPreloadFuse
| ImportSettles (outcome : option (list string -> string -> list FuseResult)).

Definition loaderStep (s : FuseLoader) (step : LoaderStep) : FuseLoader :=
  match step with
  | CallLoadFuse => loadFuse s
  | CallPreloadFuse => preloadFuse s
  | ImportSettles outcome => importSettles outcome s
  end.

(* ===================================================================== *)
(** * Further definitions: the height estimator *)
(* ===================================================================== *)

(** [s.includes(sub)] *)
Fixpoint stringIncludes (s sub : string) : bool :=
  String.prefix sub s
  || match s with
     | EmptyString => false
     | String _ rest => stringIncludes rest sub
     end.

(** A number is falsy exactly when it is zero. *)
Definition truthyNumber (x : Q) : bool := negb (Qeq_bool x 0).

(** [VirtualItem], without [data] and [render]. *)
Record VirtualItem := { virtualId : string; virtualHeight : option Q }.

(** [item.height], when it is there and truthy. *)
Definition explicitHeight (it : VirtualItem) : option Q :=
  match virtualHeight it with
  | Some h => if truthyNumber h then Some h else None
  | None => None
  end.

Record ContentAnalysis := {
  isHeader : bool;
  isDivider : bool;
  hasDescription : bool;
  hasLongDescription : bool;
  isCompact : bool;
  isLarge : bool
}.

(** [analyzeItemContent(item)], for an item that is there. *)
Definition analyzeItemContent (it : VirtualItem) : ContentAnalysis :=
  if String.eqb (virtualId it) "recent-commands-header"
     || stringIncludes (virtualId it) "header" then
    {| isHeader := true; isDivider := false; hasDescription := false;
       hasLongDescription := false; isCompact := false; isLarge := false |}
  else if String.eqb (virtualId it) "recent-commands-divider"
          || stringIncludes (virtualId it) "divider" then
    {| isHeader := false; isDivider := true; hasDescription := false;
       hasLongDescription := false; isCompact := false; isLarge := false |}
  else if String.prefix "recent-" (virtualId it) then
    {| isHeader := false; isDivider := false; hasDescription := false;
       hasLongDescription := false; isCompact := true; isLarge := false |}
  else
    {| isHeader := false; isDivider := false; hasDescription := true;
       hasLongDescription := false; isCompact := false; isLarge := false |}.

(** [HeightConfig]; the field [default] is [standard] here. *)
Record HeightConfig := {
  standard : Q;
  header : Q;
  divider : Q;
  withDescription : Q;
  withLongDescription : Q;
  compact : Q;
  large : Q
}.

Definition DEFAULT_HEIGHTS : HeightConfig :=
  {| standard := 56; header := 32; divider := 16; withDescription := 64;
     withLongDescription := 72; compact := 48; large := 80 |}.

(** [Partial<HeightConfig>] and [{ ...DEFAULT_HEIGHTS, ...config }]. *)
Record PartialHeights := {
  standard' : option Q;
  header' : option Q;
  divider' : option Q;
  withDescription' : option Q;
  withLongDescription' : option Q;
  compact' : option Q;
  large' : option Q
}.

Definition mergeHeights (config : PartialHeights) : HeightConfig :=
  {| standard := default (standard DEFAULT_HEIGHTS) (standard' config);
     header := default (header DEFAULT_HEIGHTS) (header' config);
     divider := default (divider DEFAULT_HEIGHTS) (divider' config);
     withDescription :=
       default (withDescription DEFAULT_HEIGHTS) (withDescription' config);
     withLongDescription :=
       default (withLongDescription DEFAULT_HEIGHTS)
         (withLongDescription' config);
     compact := default (compact DEFAULT_HEIGHTS) (compact' config);
     large := default (large DEFAULT_HEIGHTS) (large' config) |}.

(** The chain of rules of [estimateHeight]. *)
Definition heightFor (heights : HeightConfig) (a : ContentAnalysis) : Q :=
  if isHeader a then header heights
  else if isDivider a then divider heights
  else if hasLongDescription a then withLongDescription heights
  else if hasDescription a then withDescription heights
  else if isCompact a then compact heights
  else if isLarge a then large heights
  else standard heights.

Record HeightCacheEntry := {
  entryHeight : Q;
  entryKey : string;
  lastAccessed : Z;
  accessCount : Z
}.

(** The [Map<string, HeightCacheEntry>] of [HeightCache], in insertion
    order, and its [maxSize]. *)
Definition HeightCache : Type := list (string * HeightCacheEntry).

Definition maxSize : Z := 200.

Fixpoint entryGet (key : string) (cache : HeightCache)
  : option HeightCacheEntry :=
  match cache with
  | [] => None
  | (k, v) :: rest => if String.eqb k key then Some v else entryGet key rest
  end.

Fixpoint entrySet (key : string) (v : HeightCacheEntry) (cache : HeightCache)
  : HeightCache :=
  match cache with
  | [] => [(key, v)]
  | (k, v') :: rest =>
      if String.eqb k key then (key, v) :: rest
      else (k, v') :: entrySet key v rest
  end.

Definition entryDelete (key : string) (cache : HeightCache) : HeightCache :=
  List.filter (fun entry => negb (String.eqb (fst entry) key)) cache.

(** The loop of [evictOldest], over [oldestKey] and [oldestTime]. *)
Fixpoint findOldest (entries : HeightCache) (oldestKey : option string)
    (oldestTime : Z) : option string :=
  match entries with
  | [] => oldestKey
  | (key, entry) :: rest =>
      if lastAccessed entry <? oldestTime
      then findOldest rest (Some key) (lastAccessed entry)
      else findOldest rest oldestKey oldestTime
  end.

(** [evictOldest()], with the value of [Date.now()] it reads. *)
Definition evictOldest (now : Z) (cache : HeightCache) : HeightCache :=
  match findOldest cache None now with
  | Some oldestKey =>
      if truthyString oldestKey then entryDelete oldestKey cache else cache
  | None => cache
  end.

(** At most [maxSize] entries, none under the empty key. *)
Definition heightCacheBounded (cache : HeightCache) : Prop :=
  Z.of_nat (length cache) <= maxSize
  /\ Forall (fun entry => truthyString (fst entry) = true) cache.

Section HeightEstimator.
(** The decimal form JavaScript gives a number. *)
Variable numberToString : Q -> string.

(** ["${item.id || 'unknown'}-${item.height || 'auto'}-${index}"] *)
Definition getCacheKey (it : VirtualItem) (index : Z) : string :=
  String.append
    (if truthyString (virtualId it) then virtualId it else "unknown")
    (String.append "-"
       (String.append
          (match explicitHeight it with
           | Some h => numberToString h
           | None => "auto"
           end)
          (String.append "-" (numberToString (inject_Z index))))).

(** [HeightCache.get], with the value of [Date.now()] it reads. *)
Definition heightCacheGet (it : VirtualItem) (index : Z) (now : Z)
    (cache : HeightCache) : option Q * HeightCache :=
  let key := getCacheKey it index in
  match entryGet key cache with
  | Some entry =>
      (Some (entryHeight entry),
       entrySet key {| entryHeight := entryHeight entry;
                       entryKey := entryKey entry;
                       lastAccessed := now;
                       accessCount := accessCount entry |} cache)
  | None => (None, cache)
  end.

(** [HeightCache.set], with the two values of [Date.now()] it reads. *)
Definition heightCacheSet (it : VirtualItem) (index : Z) (height : Q)
    (nowEvict nowSet : Z) (cache : HeightCache) : HeightCache :=
  let key := getCacheKey it index in
  let cache :=
    if (maxSize <=? Z.of_nat (length cache)) then evictOldest nowEvict cache
    else cache in
  entrySet key {| entryHeight := height; entryKey := key;
                  lastAccessed := nowSet; accessCount := 0 |} cache.

(** [estimateHeight(item, index)] of [createHeightEstimator(config)], over
    the one cache all estimators share. *)
Definition estimateHeight (heights : HeightConfig) (it : VirtualItem)
    (index : Z) (nowGet nowEvict nowSet : Z) (cache : HeightCache)
  : Q * HeightCache :=
  match explicitHeight it with
  | Some h => (h, cache)
  | None =>
      match heightCacheGet it index nowGet cache with
      | (Some cachedHeight, cache) => (cachedHeight, cache)
      | (None, cache) =>
          let contentAnalysis := analyzeItemContent it in
          let calculatedHeight := heightFor heights contentAnalysis in
          (calculatedHeight,
           heightCacheSet it index calculatedHeight nowEvict nowSet cache)
      end
  end.
End HeightEstimator.

(** [commandVirtualItems] of [CommandList]: a row becomes a virtual item
    with its id and no explicit height. *)
Definition commandVirtualItems (rows : list CommandItemData)
  : list VirtualItem :=
  map (fun cmd => {| virtualId := itemId cmd; virtualHeight := None |}) rows.

Section RecentSection.
(** The icon of the header row, an emoji outside the characters a
    [string] holds here. *)
Variable clockIcon : string.

(** [useRecentCommandsSection]: the rows of the recent section, without
    their [onSelect] closures. *)
Definition useRecentCommandsSection (query : string)
    (recentObjects : list Command) : list CommandItemData :=
  if truthyString query || (Z.of_nat (length recentObjects) =? 0) then []
  else
    {| itemId := "recent-commands-header"; itemName := "Recent Commands";
       itemIcon := clockIcon; itemDescription := ""; itemKeywords := [] |}
    :: map (fun cmd =>
              {| itemId := String.append "recent-" (id (baseOf cmd));
                 itemName := name (baseOf cmd);
                 itemIcon := default "" (icon (baseOf cmd));
                 itemDescription := default "" (description (baseOf cmd));
                 itemKeywords := default [] (keywords (baseOf cmd)) |})
         recentObjects
    ++ [{| itemId := "recent-commands-divider"; itemName := "";
           itemIcon := ""; itemDescription := ""; itemKeywords := [] |}].
End RecentSection.

(* ===================================================================== *)
(** * More example data *)
(* ===================================================================== *)

(** Whole numbers in decimal, to run the cache keys with. *)
Definition showZ (z : Z) : string := NilZero.string_of_int (Z.to_int z).
Definition showQ (q : Q) : string := showZ (Qfloor q).

(** A store with two subscribers; the callback of the first throws. *)
Definition crowdedWorld : World :=
  snd (subscribe {| subscriberName := 2; subscriberThrows := false |}
         (snd (subscribe {| subscriberName := 1; subscriberThrows := true |}
                 exampleWorld))).

Definition elevenIds : list string :=
  ["a"; "b"; "c"; "d"; "e"; "f"; "g"; "h"; "i"; "j"; "k"].

(** A store that navigated into the category of the example tree. *)
Definition insideCategory : World :=
  snd (selectCommand exampleTree "dev-tools" None exampleWorld).

Definition headerRow : VirtualItem :=
  {| virtualId := "recent-commands-header"; virtualHeight := None |}.

(* ===================================================================== *)
(** * Tree utilities: flattening agrees with the direct search *)
(* ===================================================================== *)

Lemma preorder_category b ch :
  preorder (CategoryCommand b ch) = CategoryCommand b ch :: preorderForest ch.
Proof.
  reflexivity.
Qed.

Lemma nodeCount_category b ch :
  nodeCount (CategoryCommand b ch) = S (nodeCountForest ch).
Proof.
  reflexivity.
Qed.

Lemma findInSubtree_category i b ch :
  findInSubtree i (CategoryCommand b ch) = findNavigableById i ch.
Proof.
  simpl. induction ch as [|x r IH]; [reflexivity|simpl].
  now rewrite IH.
Qed.

Lemma recurseItem_category b ch result :
  recurseItem (CategoryCommand b ch) result
  = recurse ch (result ++ [CategoryCommand b ch]).
Proof.
  destruct ch as [|x r]; reflexivity.
Qed.

(** The accumulator of [recurse] grows by the pre-order listing. *)
Lemma recurseItem_preorder c :
  forall result, recurseItem c result = result ++ preorder c.
Proof.
  induction c as [b p e|b p s|b ch IH] using Command_forest_ind;
    intros result; try reflexivity.
  rewrite recurseItem_category, preorder_category.
  change (CategoryCommand b ch :: preorderForest ch)
    with ([CategoryCommand b ch] ++ preorderForest ch).
  rewrite app_assoc. generalize (result ++ [CategoryCommand b ch]).
  induction IH as [|x r Hx _ IHr]; intros acc; simpl.
  - now rewrite app_nil_r.
  - rewrite Hx, IHr. now rewrite app_assoc.
Qed.

Lemma recurse_preorder l :
  forall result, recurse l result = result ++ preorderForest l.
Proof.
  induction l as [|x r IH]; intros result; simpl.
  - now rewrite app_nil_r.
  - rewrite IH, recurseItem_preorder. now rewrite app_assoc.
Qed.

Lemma flattenNavigables_preorder T : flattenNavigables T = preorderForest T.
Proof. unfold flattenNavigables. now rewrite recurse_preorder. Qed.

Lemma preorder_length c : length (preorder c) = nodeCount c.
Proof.
  induction c as [b p e|b p s|b ch IH] using Command_forest_ind;
    try reflexivity.
  rewrite preorder_category, nodeCount_category. simpl. f_equal.
  induction IH as [|x r Hx _ IHr]; [reflexivity|simpl].
  rewrite length_app. congruence.
Qed.

Lemma preorderForest_length l : length (preorderForest l) = nodeCountForest l.
Proof.
  induction l as [|x r IH]; [reflexivity|simpl].
  rewrite length_app, preorder_length. congruence.
Qed.

Lemma find_app_first {A} (p : A -> bool) (l1 l2 : list A) :
  List.find p (l1 ++ l2)
  = match List.find p l1 with
    | Some x => Some x
    | None => List.find p l2
    end.
Proof.
  induction l1 as [|x r IH]; [reflexivity|simpl].
  destruct (p x); [reflexivity|apply IH].
Qed.

(** The first node with id [i] in the listing of a tree is the root when
    its id matches, and what the search of the subtree finds otherwise. *)
Lemma firstWithId_preorder i c :
  firstWithId i (preorder c)
  = if String.eqb (id (baseOf c)) i then Some c else findInSubtree i c.
Proof.
  induction c as [b p e|b p s|b ch IH] using Command_forest_ind.
  - unfold firstWithId. simpl. now destruct (String.eqb (id b) i).
  - unfold firstWithId. simpl. now destruct (String.eqb (id b) i).
  - rewrite preorder_category, findInSubtree_category.
    unfold firstWithId at 1.
    cbn [List.find baseOf]. destruct (String.eqb (id b) i); [reflexivity|].
    fold (firstWithId i (preorderForest ch)).
    induction IH as [|x r Hx _ IHr]; [reflexivity|].
    cbn [preorderForest findNavigableById]. unfold firstWithId in *.
    rewrite find_app_first, Hx.
    destruct (String.eqb (id (baseOf x)) i); [reflexivity|].
    destruct (findInSubtree i x); [reflexivity|apply IHr].
Qed.

Lemma firstWithId_preorderForest i l :
  firstWithId i (preorderForest l) = findNavigableById i l.
Proof.
  induction l as [|x r IH]; [reflexivity|].
  cbn [preorderForest findNavigableById]. unfold firstWithId in *.
  rewrite find_app_first.
  pose proof (firstWithId_preorder i x) as Hx. unfold firstWithId in Hx.
  rewrite Hx.
  destruct (String.eqb (id (baseOf x)) i); [reflexivity|].
  destruct (findInSubtree i x); [reflexivity|apply IH].
Qed.

Lemma preorder_head c : In c (preorder c).
Proof. destruct c; simpl; now left. Qed.

Lemma InTree_preorderForest c l : InTree c l -> In c (preorderForest l).
Proof.
  induction 1 as [rest|b ch rest _ IH|x rest _ IH];
    cbn [preorderForest]; apply in_or_app.
  - left. apply preorder_head.
  - left. rewrite preorder_category. now right.
  - now right.
Qed.

Lemma firstWithId_present i c l :
  In c l -> id (baseOf c) = i ->
  exists n, firstWithId i l = Some n /\ id (baseOf n) = i.
Proof.
  intros Hin Hid. unfold firstWithId.
  destruct (List.find (fun c0 => String.eqb (id (baseOf c0)) i) l) as [n|] eqn:E.
  - exists n. split; [reflexivity|].
    apply find_some in E. now apply String.eqb_eq.
  - exfalso. pose proof (find_none _ _ E c Hin) as Hnone. simpl in Hnone.
    apply String.eqb_neq in Hnone. contradiction.
Qed.

(** C9.  For a forest [T] and the id [i] of a node [c] of [T]: the
    flattened list is the pre-order listing of [T] (a node, then its
    children in child order), it holds each node once (its length is the
    number of nodes), and the first element with id [i] in it is the node
    that the direct search [findNavigableById i T] returns. *)
Theorem flatten_agrees_with_find (T : list Command) (i : string) (c : Command) :
  InTree c T -> id (baseOf c) = i ->
  flattenNavigables T = preorderForest T
  /\ length (flattenNavigables T) = nodeCountForest T
  /\ firstWithId i (flattenNavigables T) = findNavigableById i T
  /\ exists n, findNavigableById i T = Some n
               /\ firstWithId i (flattenNavigables T) = Some n
               /\ id (baseOf n) = i.
Proof.
  intros Hin Hid.
  rewrite flattenNavigables_preorder.
  repeat split.
  - apply preorderForest_length.
  - apply firstWithId_preorderForest.
  - destruct (firstWithId_present i c (preorderForest T)) as [n [Hn Hi]];
      [now apply InTree_preorderForest|assumption|].
    exists n. rewrite <- firstWithId_preorderForest. auto.
Qed.

(* ===================================================================== *)
(** * JavaScript array helpers: facts *)
(* ===================================================================== *)

Lemma slice0_take {A} (arr : list A) (n : Z) :
  0 <= n -> slice0 arr n = take (Z.to_nat n) arr.
Proof.
  intros Hn. unfold slice0.
  destruct (n <? 0) eqn:E; [apply Z.ltb_lt in E; lia|].
  destruct (Z.le_gt_cases n (Z.of_nat (length arr))) as [Hle|Hgt].
  - now rewrite Z.min_l.
  - rewrite Z.min_r by lia. rewrite Nat2Z.id.
    rewrite !firstn_all2; [reflexivity|lia|lia].
Qed.

Lemma slice0_length {A} (arr : list A) (n : Z) :
  0 <= n -> Z.of_nat (length (slice0 arr n)) <= n.
Proof.
  intros Hn. rewrite slice0_take by assumption. rewrite length_take. lia.
Qed.

Lemma dropLast_snoc {A} (arr : list A) (x : A) : dropLast (arr ++ [x]) = arr.
Proof.
  unfold dropLast, slice0. rewrite length_app. simpl.
  change (-1 <? 0) with true. cbv iota.
  replace (Z.to_nat (Z.max (Z.of_nat (length arr + 1) + -1) 0))
    with (length arr) by lia.
  now rewrite take_app_length.
Qed.

Section SortFacts.
Context {A : Type}.
Implicit Types (x y : Scored A) (l : list (Scored A)).

Lemma byScoreDesc_le x y :
  Qle_bool (byScoreDesc x y) 0 = true <-> (score y <= score x)%Q.
Proof. rewrite Qle_bool_iff. unfold byScoreDesc. split; intros H; lra. Qed.

Lemma insertSorted_perm x l : Permutation (insertSorted byScoreDesc x l) (x :: l).
Proof.
  induction l as [|y r IH]; [reflexivity|simpl].
  destruct (Qle_bool (byScoreDesc x y) 0); [reflexivity|].
  rewrite IH. apply perm_swap.
Qed.

Lemma sortJs_perm l : Permutation (sortJs byScoreDesc l) l.
Proof.
  induction l as [|x r IH]; [reflexivity|simpl].
  rewrite insertSorted_perm. now constructor.
Qed.

Lemma insertSorted_sorted x l :
  StronglySorted scoreGe l -> StronglySorted scoreGe (insertSorted byScoreDesc x l).
Proof.
  induction 1 as [|y r Hr IH Hy]; simpl.
  - repeat constructor.
  - destruct (Qle_bool (byScoreDesc x y) 0) eqn:E.
    + apply byScoreDesc_le in E. constructor.
      * now constructor.
      * constructor; [exact E|].
        eapply Forall_impl; [exact Hy|]. unfold scoreGe. intros z Hz. lra.
    + assert (score x < score y)%Q as Hlt.
      { apply Qnot_le_lt. intros Hle. apply byScoreDesc_le in Hle. congruence. }
      constructor; [exact IH|].
      rewrite (insertSorted_perm x r). constructor; [|exact Hy].
      unfold scoreGe. lra.
Qed.

Lemma sortJs_sorted l : StronglySorted scoreGe (sortJs byScoreDesc l).
Proof.
  induction l as [|x r IH]; simpl; [constructor|].
  now apply insertSorted_sorted.
Qed.

(** Stability: the elements of one score keep their order. *)
Lemma insertSorted_stable v x l :
  List.filter (hasScore v) (insertSorted byScoreDesc x l)
  = List.filter (hasScore v) (x :: l).
Proof.
  induction l as [|y r IH]; [reflexivity|].
  cbn [insertSorted]. destruct (Qle_bool (byScoreDesc x y) 0) eqn:E;
    [reflexivity|].
  cbn [List.filter] in *. rewrite IH.
  destruct (hasScore v x) eqn:Ex; [|reflexivity].
  destruct (hasScore v y) eqn:Ey; [|reflexivity].
  exfalso. unfold hasScore in *.
  apply Qeq_bool_iff in Ex, Ey.
  assert (Qle_bool (byScoreDesc x y) 0 = true) as Hle.
  { apply byScoreDesc_le. rewrite Ex, Ey. apply Qle_refl. }
  congruence.
Qed.

Lemma sortJs_stable v l :
  List.filter (hasScore v) (sortJs byScoreDesc l) = List.filter (hasScore v) l.
Proof.
  induction l as [|x r IH]; [reflexivity|].
  cbn [sortJs]. rewrite insertSorted_stable. cbn [List.filter].
  now rewrite IH.
Qed.
End SortFacts.

Lemma In_take {A} (x : A) (n : nat) (l : list A) : In x (take n l) -> In x l.
Proof.
  intros H. rewrite <- (take_drop n l). apply in_or_app. now left.
Qed.

Lemma filter_take_prefix {A} (p : A -> bool) (n : nat) (l : list A) :
  List.filter p (take n l) `prefix_of` List.filter p l.
Proof.
  rewrite <- (take_drop n l) at 2. rewrite List.filter_app.
  now apply prefix_app_r.
Qed.

Lemma StronglySorted_take {A} (R : A -> A -> Prop) (n : nat) (l : list A) :
  StronglySorted R l -> StronglySorted R (take n l).
Proof.
  intros H. revert n. induction H as [|x r Hr IH Hx]; intros [|n]; simpl;
    try constructor.
  - apply IH.
  - apply Forall_take. exact Hx.
Qed.

Lemma StronglySorted_map {A B} (f : A -> B) (R : A -> A -> Prop)
    (S : B -> B -> Prop) (l : list A) :
  (forall a b, In a l -> In b l -> R a b -> S (f a) (f b)) ->
  StronglySorted R l -> StronglySorted S (map f l).
Proof.
  intros Hf H. induction H as [|x r Hr IH Hx]; simpl; constructor.
  - apply IH. intros a b Ha Hb. apply Hf; now right.
  - rewrite List.Forall_forall in *. intros y Hy.
    apply in_map_iff in Hy as [a [<- Ha]].
    apply Hf; [now left|now right|]. now apply Hx.
Qed.

(* ===================================================================== *)
(** * The lexical-score algorithm *)
(* ===================================================================== *)

Section CommandScoreFacts.
Variable commandScore : string -> string -> Q.
Variable query : string.

Let itemScore := scoreOf commandScore query.
Let fieldScore := fun s => commandScore s query.

Lemma Qmax_either (a b : Q) : Qmax a b = a \/ Qmax a b = b.
Proof.
  unfold Qmax, GenericMinMax.gmax. destruct (a ?= b)%Q; auto.
Qed.

Lemma fold_Qmax_ge (l : list string) (a : Q) :
  (a <= fold_left (fun acc s => Qmax acc (fieldScore s)) l a)%Q
  /\ Forall (fun s => (fieldScore s
                       <= fold_left (fun acc s => Qmax acc (fieldScore s)) l a)%Q) l.
Proof.
  revert a. induction l as [|s r IH]; intros a; simpl.
  - split; [apply Qle_refl|constructor].
  - destruct (IH (Qmax a (fieldScore s))) as [H1 H2]. split.
    + eapply Qle_trans; [apply Q.le_max_l|exact H1].
    + constructor; [|exact H2].
      eapply Qle_trans; [apply Q.le_max_r|exact H1].
Qed.

Lemma fold_Qmax_in (l : list string) (a : Q) :
  let m := fold_left (fun acc s => Qmax acc (fieldScore s)) l a in
  m = a \/ In m (map fieldScore l).
Proof.
  revert a. induction l as [|s r IH]; intros a; simpl.
  - now left.
  - destruct (IH (Qmax a (fieldScore s))) as [H|H].
    + rewrite H. destruct (Qmax_either a (fieldScore s)) as [E|E];
        rewrite E; auto.
    + right. now right.
Qed.

Lemma scoreOf_fold (it : Command) :
  itemScore it
  = fold_left (fun acc s => Qmax acc (fieldScore s))
      (default [] (keywords (baseOf it))
       ++ (if isActionOrPortal it then default [] (prefixesOf it) else []))
      (fieldScore (name (baseOf it))).
Proof.
  unfold itemScore, scoreOf, scoreItem. cbn [score].
  rewrite fold_left_app.
  destruct (keywords (baseOf it)) as [[|k l]|];
    destruct (isActionOrPortal it);
    destruct (prefixesOf it) as [[|p ps]|]; reflexivity.
Qed.

(** The score of an item is the greatest score of its strings: its name,
    its keywords and, for an action or a portal, its prefixes. *)
Lemma scoreItem_is_max (it : Command) :
  In (itemScore it) (map fieldScore (stringsOf it))
  /\ Forall (fun s => (fieldScore s <= itemScore it)%Q) (stringsOf it).
Proof.
  rewrite scoreOf_fold. unfold stringsOf.
  set (rest := default [] (keywords (baseOf it)) ++ _).
  set (n := name (baseOf it)).
  destruct (fold_Qmax_ge rest (fieldScore n)) as [Hn Hall].
  destruct (fold_Qmax_in rest (fieldScore n)) as [Hin|Hin]; cbv zeta in Hin.
  - split; [left; now rewrite Hin|]. constructor; assumption.
  - split; [right; exact Hin|]. constructor; assumption.
Qed.

Lemma filter_scoreOf (v : Q) (l : list Command) :
  List.filter (fun it => Qeq_bool (itemScore it) v) l
  = map item (List.filter (hasScore v) (map (scoreItem commandScore query) l)).
Proof.
  unfold itemScore, scoreOf, hasScore.
  induction l as [|x r IH]; [reflexivity|]. cbn [map List.filter].
  destruct (Qeq_bool (score (scoreItem commandScore query x)) v); cbn [map];
    now rewrite IH.
Qed.

Lemma scored_fixed (l : list (Scored Command)) (items : list Command) :
  (forall s, In s l -> In s (map (scoreItem commandScore query) items)) ->
  map (scoreItem commandScore query) (map item l) = l.
Proof.
  intros H. induction l as [|s r IH]; [reflexivity|]. cbn [map].
  rewrite IH by (intros; apply H; now right). f_equal.
  destruct (proj1 (in_map_iff _ _ _) (H s (or_introl eq_refl))) as [it [<- _]].
  reflexivity.
Qed.

Lemma filter_filter_swap {X} (p q : X -> bool) (l : list X) :
  List.filter p (List.filter q l) = List.filter q (List.filter p l).
Proof.
  induction l as [|x r IH]; [reflexivity|]. cbn [List.filter].
  destruct (p x) eqn:Ep, (q x) eqn:Eq; cbn [List.filter];
    rewrite ?Ep, ?Eq, IH; reflexivity.
Qed.

(** C4.  For every item list and every query, with a count [maxResults]:
    the lexical-score algorithm returns only items whose best field score
    (the greatest score among name, keywords and, for actions and portals,
    prefixes) is at least 0.1; the result is in descending score order;
    the items of one score come in input order (for each score they are an
    initial part of the input items of that score); and there are at most
    [maxResults] of them.  A non-empty query sent to [searchItems] with the
    lexical algorithm is answered by this function. *)
Theorem searchWithCommandScore_ranked
    (fuseModule : option (list string -> string -> list FuseResult))
    (items : list Command) (maxResults : Z) :
  0 <= maxResults ->
  let result := searchWithCommandScore commandScore items query maxResults in
  Forall (fun it =>
            In (itemScore it) (map fieldScore (stringsOf it))
            /\ Forall (fun s => (fieldScore s <= itemScore it)%Q) (stringsOf it)
            /\ (MIN_SCORE <= itemScore it)%Q
            /\ In it items) result
  /\ StronglySorted (fun a b => (itemScore b <= itemScore a)%Q) result
  /\ (forall v : Q,
        List.filter (fun it => Qeq_bool (itemScore it) v) result
        `prefix_of` List.filter (fun it => Qeq_bool (itemScore it) v) items)
  /\ Z.of_nat (length result) <= maxResults
  /\ (truthyString query = true ->
      searchItems commandScore fuseModule items query commandscore maxResults
      = result).
Proof.
  intros Hmax result. subst result. unfold searchWithCommandScore.
  rewrite slice0_take by assumption.
  set (f := scoreItem commandScore query).
  set (kept := List.filter (fun s => Qle_bool MIN_SCORE (score s)) (map f items)).
  set (sorted := sortJs byScoreDesc kept).
  set (n := Z.to_nat maxResults).
  assert (forall s, In s (take n sorted) -> In s kept) as Hkept.
  { intros s Hs. apply (Permutation_in s (sortJs_perm kept)).
    eapply In_take. exact Hs. }
  assert (forall s, In s (take n sorted) -> In s (map f items)) as Hin.
  { intros s Hs. apply Hkept in Hs. now apply filter_In in Hs. }
  repeat split.
  - apply List.Forall_forall. intros it Hit.
    apply in_map_iff in Hit as [s [<- Hs]].
    pose proof (Hkept s Hs) as Hk. apply filter_In in Hk as [Hm Hscore].
    apply in_map_iff in Hm as [it [<- Hit]]. cbn [item f scoreItem].
    destruct (scoreItem_is_max it) as [H1 H2].
    repeat split; try assumption. now apply Qle_bool_iff in Hscore.
  - apply (StronglySorted_map item scoreGe).
    + intros a b Ha Hb Hab.
      destruct (proj1 (in_map_iff _ _ _) (Hin a Ha)) as [x [<- _]].
      destruct (proj1 (in_map_iff _ _ _) (Hin b Hb)) as [y [<- _]].
      exact Hab.
    + apply StronglySorted_take, sortJs_sorted.
  - intros v.
    rewrite !filter_scoreOf.
    rewrite (scored_fixed (take n sorted) items Hin). fold f.
    assert (List.filter (hasScore v) (take n sorted)
            `prefix_of` List.filter (hasScore v) kept) as Hpre.
    { rewrite <- (sortJs_stable v kept). apply filter_take_prefix. }
    subst kept. rewrite filter_filter_swap in Hpre.
    destruct Hpre as [k Hk].
    set (same := List.filter (hasScore v) (map f items)) in *.
    (* the kept part of [same] is all of it or none of it *)
    destruct (Qle_bool MIN_SCORE v) eqn:Ev.
    + assert (List.filter (fun s => Qle_bool MIN_SCORE (score s)) same = same)
        as Hall.
      { subst same. generalize (map f items). intros l.
        induction l as [|x r IH]; [reflexivity|]. cbn [List.filter].
        destruct (hasScore v x) eqn:Ex; [|exact IH]. cbn [List.filter].
        unfold hasScore in Ex. apply Qeq_bool_iff in Ex.
        assert (Qle_bool MIN_SCORE (score x) = true) as ->.
        { apply Qle_bool_iff. apply Qle_bool_iff in Ev. now rewrite Ex. }
        now rewrite IH. }
      rewrite Hall in Hk. exists (map item k). rewrite Hk.
      apply map_app.
    + assert (List.filter (hasScore v) (take n sorted) = []) as ->.
      { destruct (List.filter (hasScore v) (take n sorted)) as [|x r] eqn:E;
          [reflexivity|exfalso].
        assert (In x (List.filter (hasScore v) (take n sorted))) as Hx
          by (rewrite E; now left).
        apply filter_In in Hx as [Hx Hv].
        apply Hkept, filter_In in Hx as [_ Hs].
        unfold hasScore in Hv. apply Qeq_bool_iff in Hv.
        apply Qle_bool_iff in Hs. rewrite Hv in Hs.
        apply Qle_bool_iff in Hs. congruence. }
      apply prefix_nil.
  - rewrite length_map, length_take. lia.
  - intros Hq. unfold searchItems. rewrite Hq. cbn [negb].
    unfold searchWithCommandScore. now rewrite slice0_take by assumption.
Qed.
End CommandScoreFacts.

(* ===================================================================== *)
(** * The fuzzy-index algorithm: who owns a searchable string *)
(* ===================================================================== *)

Lemma setEach_lookup (strs : option (list string)) (obj : ItemObject)
    (m : gmap string ItemObject) (s : string) :
  setEach strs obj m !! s
  = if bool_decide (s ∈ default [] strs) then Some obj else m !! s.
Proof.
  destruct strs as [l|]; cbn [setEach default].
  2:{ rewrite bool_decide_eq_false_2; [reflexivity|]. apply not_elem_of_nil. }
  revert m. induction l as [|x r IH]; intros m; cbn [fold_left].
  - rewrite bool_decide_eq_false_2; [reflexivity|]. apply not_elem_of_nil.
  - rewrite IH. destruct (decide (s ∈ r)) as [Hr|Hr].
    + rewrite !bool_decide_eq_true_2; [reflexivity| |assumption].
      now apply list_elem_of_further.
    + rewrite (bool_decide_eq_false_2 _ Hr).
      destruct (decide (x = s)) as [->|Hne].
      * rewrite lookup_insert_eq.
        rewrite bool_decide_eq_true_2; [reflexivity|]. apply list_elem_of_here.
      * rewrite lookup_insert_ne by assumption.
        rewrite bool_decide_eq_false_2; [reflexivity|].
        intros Hin. apply elem_of_cons in Hin as [->|Hin]; contradiction.
Qed.

(** [setItem] makes the item the owner of each of its strings and leaves
    the other strings alone. *)
Lemma setItem_lookup (obj : ItemObject) (m : gmap string ItemObject)
    (s : string) :
  setItem obj m !! s = if ownsString s obj then Some obj else m !! s.
Proof.
  unfold setItem, ownsString, stringsOf.
  set (it := snd obj). set (n := name (baseOf it)).
  set (kws := keywords (baseOf it)).
  assert (forall m' : gmap string ItemObject,
    (if isActionOrPortal it then setEach (prefixesOf it) obj m' else m') !! s
    = if bool_decide (s ∈ (if isActionOrPortal it
                             then default [] (prefixesOf it) else []))
      then Some obj else m' !! s) as Hp.
  { intros m'. destruct (isActionOrPortal it); [apply setEach_lookup|].
    rewrite bool_decide_eq_false_2; [reflexivity|]. apply not_elem_of_nil. }
  rewrite Hp, setEach_lookup. clear Hp.
  set (ps := if isActionOrPortal it then _ else _).
  destruct (decide (s ∈ ps)) as [H3|H3].
  { rewrite !bool_decide_eq_true_2; [reflexivity| |assumption].
    apply list_elem_of_further, elem_of_app. now right. }
  rewrite (bool_decide_eq_false_2 _ H3).
  destruct (decide (s ∈ default [] kws)) as [H2|H2].
  { rewrite !bool_decide_eq_true_2; [reflexivity| |assumption].
    apply list_elem_of_further, elem_of_app. now left. }
  rewrite (bool_decide_eq_false_2 _ H2).
  destruct (decide (n = s)) as [<-|Hne].
  - rewrite lookup_insert_eq.
    rewrite bool_decide_eq_true_2; [reflexivity|]. apply list_elem_of_here.
  - rewrite lookup_insert_ne by assumption.
    rewrite bool_decide_eq_false_2; [reflexivity|].
    intros Hin. apply elem_of_cons in Hin as [->|Hin]; [contradiction|].
    apply elem_of_app in Hin as [Hin|Hin]; contradiction.
Qed.

Lemma fillMap_lookup (objs : list ItemObject) (m : gmap string ItemObject)
    (s : string) :
  fold_left (fun m obj => setItem obj m) objs m !! s
  = match last (List.filter (ownsString s) objs) with
    | Some obj => Some obj
    | None => m !! s
    end.
Proof.
  revert m. induction objs as [|o r IH]; intros m; [reflexivity|].
  cbn [fold_left List.filter]. rewrite IH, setItem_lookup.
  destruct (ownsString s o); [|reflexivity].
  rewrite last_cons. now destruct (last (List.filter (ownsString s) r)).
Qed.

(** Every entry of [scoredResults] comes from a result with a score whose
    string the map sends to that entry's item. *)
Lemma collectResults_from_map (m : gmap string ItemObject)
    (results : list FuseResult) (matched : gset nat)
    (acc : list (Scored ItemObject)) (x : Scored ItemObject) :
  In x (collectResults m results matched acc) ->
  In x acc
  \/ exists r, In r results /\ is_Some (fuseScore r)
               /\ m !! fuseItem r = Some (item x).
Proof.
  revert matched acc. induction results as [|r rest IH]; intros matched acc;
    cbn [collectResults]; [now left|].
  assert (forall matched' acc',
            (In x acc' -> In x acc
               \/ (is_Some (fuseScore r) /\ m !! fuseItem r = Some (item x))) ->
            In x (collectResults m rest matched' acc') ->
            In x acc
            \/ exists r0, In r0 (r :: rest) /\ is_Some (fuseScore r0)
                          /\ m !! fuseItem r0 = Some (item x)) as Hstep.
  { intros matched' acc' Hacc Hx. apply IH in Hx as [Hx|[r0 [Hr0 H]]].
    - apply Hacc in Hx as [Hx|Hx]; [now left|].
      right. exists r. split; [now left|exact Hx].
    - right. exists r0. split; [now right|exact H]. }
  destruct (fuseScore r) as [sc|] eqn:Esc; [|apply Hstep; auto].
  destruct (m !! fuseItem r) as [obj|] eqn:Em; [|apply Hstep; auto].
  destruct (decide (fst obj ∈ matched)); apply Hstep; auto.
  intros Hx. apply in_app_or in Hx as [Hx|[<-|[]]]; [now left|].
  right. split; [eauto|reflexivity].
Qed.

(** C3, as the code has it.  The map from a searchable string to its item
    holds, for each string, the last item in input order that has it among
    its name, keywords and (for an action or a portal) prefixes; and every
    item [searchWithFuse] returns is the item the map gives for the string
    of one of the results of the query. *)
Theorem stringToItemMap_last_wins
    (fuseSearch : list string -> string -> list FuseResult)
    (items : list Command) (query : string) (maxResults : Z) (s : string) :
  stringToItemMap items !! s = lastOwner s items
  /\ exists found,
       searchWithFuse (Some fuseSearch) items query maxResults = Returned found
       /\ Forall (fun it =>
                    exists r ref,
                      In r (fuseSearch (searchableStrings items) query)
                      /\ lastOwner (fuseItem r) items = Some (ref, it)) found.
Proof.
  assert (forall s, stringToItemMap items !! s = lastOwner s items) as Hmap.
  { intros s'. unfold stringToItemMap, lastOwner. rewrite fillMap_lookup.
    rewrite lookup_empty. now destruct (last _). }
  split; [apply Hmap|].
  eexists. split; [reflexivity|].
  apply List.Forall_forall. intros it Hit.
  apply in_map_iff in Hit as [x [<- Hx]].
  unfold slice0 in Hx. apply In_take in Hx.
  apply (Permutation_in x (sortJs_perm _)) in Hx.
  apply collectResults_from_map in Hx as [[]|[r [Hr [_ Hm]]]].
  exists r, (fst (item x)). split; [exact Hr|].
  rewrite <- Hmap, Hm. f_equal. apply surjective_pairing.
Qed.

(* ===================================================================== *)
(** * The store: [setState] and the notification passes *)
(* ===================================================================== *)

Lemma setState_state partial w :
  state (setState partial w) = spread (state w) partial.
Proof. unfold setState. now destruct (negb _). Qed.

Lemma setState_trace partial w : trace (setState partial w) = trace w.
Proof. unfold setState. now destruct (negb _). Qed.

Lemma setState_storage partial w : storage (setState partial w) = storage w.
Proof. unfold setState. now destruct (negb _). Qed.

Lemma setState_storeConfig partial w :
  storeConfig (setState partial w) = storeConfig w.
Proof. unfold setState. now destruct (negb _). Qed.

Lemma setState_subscribers partial w :
  subscribers (setState partial w) = subscribers w.
Proof. unfold setState. now destruct (negb _). Qed.

Lemma setState_initialState partial w :
  initialState (setState partial w) = initialState w.
Proof. unfold setState. now destruct (negb _). Qed.

Lemma setState_clock partial w : clock (setState partial w) = clock w.
Proof. unfold setState. now destruct (negb _). Qed.

(** The object spread always makes an object other than the old one, so
    the test [oldState !== state] never fails. *)
Lemma setState_queues partial w :
  wellFormed w ->
  microtasks (setState partial w) = microtasks w ++ [NotifyTask].
Proof.
  intros [Href _]. unfold setState. cbn [stateRef set_stateRef set_state set_nextRef].
  destruct (Nat.eqb_spec (stateRef w) (nextRef w)) as [E|E]; [lia|].
  reflexivity.
Qed.

Lemma setState_wellFormed partial w :
  wellFormed w -> wellFormed (setState partial w).
Proof.
  intros [H1 H2]. unfold wellFormed, setState.
  destruct (negb _); cbn; lia.
Qed.

Lemma createStore_wellFormed initial config host now :
  wellFormed (createStore initial config host now).
Proof. unfold wellFormed. cbn. lia. Qed.

Lemma subscribe_wellFormed cb w :
  wellFormed w -> wellFormed (snd (subscribe cb w)).
Proof. intros H. exact H. Qed.

Lemma setStateBurst_spec partials w :
  wellFormed w ->
  let w' := setStateBurst partials w in
  wellFormed w'
  /\ microtasks w' = microtasks w ++ replicate (length partials) NotifyTask
  /\ trace w' = trace w
  /\ subscribers w' = subscribers w.
Proof.
  revert w. induction partials as [|p r IH]; intros w Hw; cbn.
  - now rewrite app_nil_r.
  - destruct (IH (setState p w) (setState_wellFormed p w Hw))
      as (H1 & H2 & H3 & H4).
    repeat split; try apply H1.
    + fold (setStateBurst r (setState p w)). rewrite H2.
      rewrite setState_queues by assumption. now rewrite <- app_assoc.
    + fold (setStateBurst r (setState p w)). rewrite H3.
      apply setState_trace.
    + fold (setStateBurst r (setState p w)). rewrite H4.
      apply setState_subscribers.
Qed.

Lemma forEachSubscriber_spec now entries broken calls :
  forEachSubscriber now entries broken calls
  = (map (fun entry => (fst entry, touch now (snd entry))) entries,
     broken ++ map fst (List.filter
                          (fun entry => subscriberThrows (callback (snd entry)))
                          entries),
     calls ++ passCalls entries).
Proof.
  revert broken calls. induction entries as [|[i meta] r IH];
    intros broken calls; cbn [forEachSubscriber].
  - cbn. now rewrite !app_nil_r.
  - rewrite IH. cbn [map fst snd List.filter touch callback passCalls].
    destruct (subscriberThrows (callback meta)); cbn [map fst];
      rewrite <- ?app_assoc; reflexivity.
Qed.

Lemma passCalls_touch now entries :
  passCalls (map (fun entry => (fst entry, touch now (snd entry))) entries)
  = passCalls entries.
Proof.
  unfold passCalls. rewrite map_map. reflexivity.
Qed.

(** One notification pass: every callback is called once, in subscription
    order, and at most one clean-up is queued behind what is waiting. *)
Lemma runNotify_spec w :
  exists cleanups,
    (length cleanups <= 1)%nat
    /\ microtasks (runNotify w) = microtasks w ++ map CleanupTask cleanups
    /\ trace (runNotify w) = trace w ++ passCalls (subscribers w)
    /\ passCalls (subscribers (runNotify w)) = passCalls (subscribers w).
Proof.
  unfold runNotify. rewrite forEachSubscriber_spec. cbn [app].
  set (broken := map fst _).
  destruct (0 <? Z.of_nat (length broken)).
  - exists [broken]. cbn. rewrite passCalls_touch. auto.
  - exists []. cbn. rewrite passCalls_touch, app_nil_r. auto.
Qed.

Lemma runCleanup_spec broken w :
  microtasks (runCleanup broken w) = microtasks w
  /\ trace (runCleanup broken w) = trace w.
Proof.
  unfold runCleanup. revert w.
  induction broken as [|i r IH]; intros w; [now split|].
  cbn [fold_left]. destruct (IH (unsubscribe i w)) as [-> ->]. now split.
Qed.

Lemma drain_cleanups cleanups : forall fuel w,
  microtasks w = map CleanupTask cleanups ->
  (length cleanups <= fuel)%nat ->
  microtasks (drain fuel w) = [] /\ trace (drain fuel w) = trace w.
Proof.
  induction cleanups as [|c r IH]; intros fuel w Hq Hfuel.
  - destruct fuel; cbn [drain]; [now split|]. rewrite Hq. now split.
  - destruct fuel as [|fuel]; [cbn in Hfuel; lia|].
    cbn [drain]. rewrite Hq. cbn [map runMicrotask].
    destruct (runCleanup_spec c (set_microtasks (map CleanupTask r) w))
      as [Hm Ht].
    destruct (IH fuel (runCleanup c (set_microtasks (map CleanupTask r) w)))
      as [H1 H2]; [exact Hm|cbn in Hfuel; lia|].
    split; [exact H1|]. now rewrite H2, Ht.
Qed.

(** Draining a queue of [n] notification passes followed by clean-ups runs
    each callback [n] times: the clean-up a pass queues runs after the
    passes that were already waiting. *)
Lemma drain_notifies n : forall cleanups fuel w,
  microtasks w = replicate n NotifyTask ++ map CleanupTask cleanups ->
  (2 * n + length cleanups <= fuel)%nat ->
  microtasks (drain fuel w) = []
  /\ trace (drain fuel w)
     = trace w ++ concat (replicate n (passCalls (subscribers w))).
Proof.
  induction n as [|n IH]; intros cleanups fuel w Hq Hfuel.
  - cbn [replicate concat app] in *. rewrite app_nil_r.
    apply (drain_cleanups cleanups); [exact Hq|lia].
  - destruct fuel as [|fuel]; [lia|].
    cbn [drain]. rewrite Hq. cbn [replicate app runMicrotask].
    set (w1 := set_microtasks _ w).
    destruct (runNotify_spec w1) as (extra & Hlen & Hm & Ht & Hc).
    destruct (IH (cleanups ++ extra) fuel (runNotify w1)) as [H1 H2].
    + rewrite Hm. subst w1. cbn [microtasks set_microtasks].
      now rewrite map_app, app_assoc.
    + rewrite length_app. lia.
    + split; [exact H1|]. rewrite H2, Ht, Hc. subst w1.
      cbn [trace subscribers set_microtasks concat].
      now rewrite <- app_assoc.
Qed.

Lemma notifiedCount_app i tr1 tr2 :
  notifiedCount i (tr1 ++ tr2) = (notifiedCount i tr1 + notifiedCount i tr2)%nat.
Proof. unfold notifiedCount. now rewrite List.filter_app, length_app. Qed.

Lemma notifiedCount_passCalls i entries :
  notifiedCount i (passCalls entries) = subscriptionCount i entries.
Proof.
  unfold notifiedCount, subscriptionCount, passCalls.
  induction entries as [|[j meta] r IH]; [reflexivity|].
  cbn [map List.filter fst isNotified].
  destruct (Nat.eqb j i); cbn [length]; now rewrite IH.
Qed.

Lemma notifiedCount_passes i n calls :
  notifiedCount i (concat (replicate n calls)) = (n * notifiedCount i calls)%nat.
Proof.
  induction n as [|n IH]; [reflexivity|].
  cbn [replicate concat]. rewrite notifiedCount_app, IH. lia.
Qed.

(** C1, on the code.  An update that changes nothing is announced all the
    same: after [setState] with the empty partial the state has the fields
    it had, and the one subscriber of a new store is called once when
    the microtasks run. *)
Theorem setState_empty_partial_notifies
    (initial : CommandState) (config : CommandStoreConfig) (host : Storage)
    (now : Z) (cb : Subscriber) :
  let w := snd (subscribe cb (createStore initial config host now)) in
  state (setState [] w) = state w
  /\ microtasks (setState [] w) = [NotifyTask]
  /\ trace (flushMicrotasks (setState [] w)) = [Notified 0%nat].
Proof.
  destruct cb as [f [|]]; cbn; repeat split; reflexivity.
Qed.

(** C2, as the code has it.  In a task that starts with no microtask
    waiting, a burst of [k] calls of [setState] calls no subscriber while
    the task runs and queues [k] notification passes; when the host then
    empties the queue each pass calls every subscriber, so the callback of
    each subscription runs [k] times, once for each call of [setState]. *)
Theorem setState_burst_notifies_each_time
    (w : World) (partials : list PartialState) :
  wellFormed w ->
  microtasks w = [] ->
  let k := length partials in
  let w1 := setStateBurst partials w in
  trace w1 = trace w
  /\ microtasks w1 = replicate k NotifyTask
  /\ microtasks (flushMicrotasks w1) = []
  /\ trace (flushMicrotasks w1)
     = trace w ++ concat (replicate k (passCalls (subscribers w)))
  /\ forall i,
       notifiedCount i (trace (flushMicrotasks w1))
       = (notifiedCount i (trace w) + k * subscriptionCount i (subscribers w))%nat.
Proof.
  intros Hw Hq k w1.
  destruct (setStateBurst_spec partials w Hw) as (_ & Hm & Ht & Hs).
  fold w1 in Hm, Ht, Hs. rewrite Hq in Hm. cbn [app] in Hm. fold k in Hm.
  destruct (drain_notifies k [] (2 * length (microtasks w1)) w1) as [H1 H2].
  { rewrite Hm. cbn [map]. now rewrite app_nil_r. }
  { rewrite Hm, length_replicate. cbn [length]. lia. }
  fold (flushMicrotasks w1) in H1, H2. rewrite Hs, Ht in H2.
  repeat split; try assumption.
  intros i. rewrite H2, notifiedCount_app, notifiedCount_passes,
    notifiedCount_passCalls. reflexivity.
Qed.

(* ===================================================================== *)
(** * The store: navigation *)
(* ===================================================================== *)

(** C5.  [navigate(v)] followed at once by [goBack()]: [goBack] returns
    true, the view is the view before the [navigate], and the history is
    the history before it, so it has its length; [goBack()] on an empty
    history returns false and changes nothing. *)
Theorem navigate_then_goBack (w : World) (v : ViewState) :
  (let back := goBack (navigate v w) in
   fst back = true
   /\ view (state (snd back)) = view (state w)
   /\ history (state (snd back)) = history (state w)
   /\ length (history (state (snd back))) = length (history (state w))
   /\ lastNavigationWasBack (state (snd back)) = Some true)
  /\ (history (state w) = [] -> goBack w = (false, w)).
Proof.
  split.
  - unfold goBack, navigate. rewrite !setState_state.
    cbn [spread fold_left applyUpdate history view].
    set (h := history (state w)). set (cur := view (state w)).
    rewrite length_app. cbn [length].
    destruct (Z.eqb_spec (Z.of_nat (length h + 1)) 0) as [E|_]; [lia|].
    unfold at_index.
    destruct (Z.ltb_spec (Z.of_nat (length h + 1) - 1) 0) as [E|_]; [lia|].
    replace (Z.to_nat (Z.of_nat (length h + 1) - 1)) with (length h) by lia.
    rewrite list_lookup_middle by reflexivity.
    cbn [fst snd]. rewrite setState_state.
    cbn [spread fold_left applyUpdate history view lastNavigationWasBack].
    rewrite dropLast_snoc. auto.
  - intros Hh. unfold goBack. now rewrite Hh.
Qed.

(* ===================================================================== *)
(** * The store: recent commands *)
(* ===================================================================== *)

Lemma NoDup_take_keep {A} (n : nat) (l : list A) : List.NoDup l -> List.NoDup (take n l).
Proof.
  intros H. revert n. induction H as [|x r Hx Hr IH]; intros [|n]; cbn;
    try constructor.
  - intros Hin. apply Hx. eapply In_take. exact Hin.
  - apply IH.
Qed.

Lemma filter_ne_absent (i : string) (l : list string) :
  ~ In i (List.filter (fun j => negb (String.eqb j i)) l).
Proof.
  intros H. apply filter_In in H as [_ H].
  rewrite String.eqb_refl in H. discriminate.
Qed.

Lemma filter_ne_id (i : string) (l : list string) :
  ~ In i l -> List.filter (fun j => negb (String.eqb j i)) l = l.
Proof.
  induction l as [|x r IH]; intros H; [reflexivity|]. cbn [List.filter].
  destruct (String.eqb_spec x i) as [->|_].
  - exfalso. apply H. now left.
  - cbn [negb]. f_equal. apply IH. intros Hin. apply H. now right.
Qed.

Lemma addRecentCommand_recent (i : string) (w : World) :
  recentCommands (state (addRecentCommand i w))
  = take 10 (i :: List.filter (fun j => negb (String.eqb j i))
                    (recentCommands (state w))).
Proof.
  unfold addRecentCommand, saveRecentCommands. cbn [state set_storage].
  rewrite setState_state. cbn [spread fold_left applyUpdate recentCommands].
  now rewrite slice0_take.
Qed.


Lemma init_recent (w : World) :
  recentCommands (state (init w))
  = if enableRecentCommands (storeConfig w)
    then loadRecentCommands w
    else recentCommands (state w).
Proof.
  unfold init.
  set (w1 := if negb _ then _ else w).
  assert (storeConfig w1 = storeConfig w /\ storage w1 = storage w
          /\ recentCommands (state w1) = recentCommands (state w))
    as (Hc & Hs & Hr).
  { subst w1. destruct (negb _); [|auto].
    rewrite setState_storeConfig, setState_storage, setState_state. auto. }
  rewrite Hc. destruct (enableRecentCommands (storeConfig w)); [|exact Hr].
  rewrite setState_state. cbn [spread fold_left applyUpdate recentCommands].
  unfold loadRecentCommands. now rewrite Hs.
Qed.

Lemma addRecentCommand_front (i : string) (w : World) :
  exists others,
    recentCommands (state (addRecentCommand i w)) = i :: others
    /\ ~ In i others.
Proof.
  rewrite addRecentCommand_recent.
  exists (take 9 (List.filter (fun j => negb (String.eqb j i))
                    (recentCommands (state w)))).
  split; [reflexivity|].
  intros Hin. apply In_take in Hin. now apply filter_ne_absent in Hin.
Qed.


(* ===================================================================== *)
(** * The store: [selectCommand] *)
(* ===================================================================== *)

Lemma addRecentCommand_trace i w : trace (addRecentCommand i w) = trace w.
Proof.
  unfold addRecentCommand, saveRecentCommands. cbn [trace set_storage].
  apply setState_trace.
Qed.

Lemma addRecentCommand_storeConfig i w :
  storeConfig (addRecentCommand i w) = storeConfig w.
Proof.
  unfold addRecentCommand, saveRecentCommands. cbn [storeConfig set_storage].
  apply setState_storeConfig.
Qed.

Lemma navigate_trace v w : trace (navigate v w) = trace w.
Proof. apply setState_trace. Qed.

Lemma findNavigableById_id i T c :
  findNavigableById i T = Some c -> id (baseOf c) = i.
Proof.
  rewrite <- firstWithId_preorderForest. unfold firstWithId. intros H.
  apply find_some in H as [_ H]. now apply String.eqb_eq.
Qed.

Lemma selectCalls_app tr1 tr2 :
  selectCalls (tr1 ++ tr2) = selectCalls tr1 ++ selectCalls tr2.
Proof. unfold selectCalls. apply flat_map_app. Qed.

Lemma selectCommandBody_calls c i f w :
  selectCalls (trace (snd (selectCommandBody c i f w))) = selectCalls (trace w).
Proof.
  unfold selectCommandBody.
  set (w1 := if enableRecentCommands (storeConfig w) then _ else w).
  assert (trace w1 = trace w) as Ht.
  { subst w1. destruct (enableRecentCommands _); [|reflexivity].
    apply addRecentCommand_trace. }
  destruct c as [b p e|b p s|b ch]; cbn [snd].
  - destruct (execThrows e); [|destruct f]; cbn [snd log trace set_trace];
      rewrite ?selectCalls_app, Ht; cbn; now rewrite ?app_nil_r.
  - now rewrite navigate_trace, Ht.
  - now rewrite navigate_trace, Ht.
Qed.

Lemma selectCommand_calls commands i f w :
  selectCalls (trace (snd (selectCommand commands i f w)))
  = selectCalls (trace w) ++ [(i, f)].
Proof.
  unfold selectCommand.
  set (w1 := log (SelectCommandCalled i f) w).
  assert (selectCalls (trace w1) = selectCalls (trace w) ++ [(i, f)]) as H1.
  { subst w1. cbn [log trace set_trace]. now rewrite selectCalls_app. }
  destruct (findCommandById i commands) as [c|]; [|exact H1].
  pose proof (selectCommandBody_calls c i f w1) as H2.
  destruct (selectCommandBody c i f w1) as [[u|m] w2]; cbn [snd] in *;
    now rewrite H2.
Qed.

Lemma addRecentCommand_state (i : string) (w : World) :
  state (addRecentCommand i w)
  = spread (state w)
      [SetRecentCommands
         (slice0 (i :: List.filter (fun j => negb (String.eqb j i))
                         (recentCommands (state w)))
            MAX_RECENT_COMMANDS)].
Proof.
  unfold addRecentCommand, saveRecentCommands. cbn [state set_storage].
  apply setState_state.
Qed.

Lemma addRecentCommand_storage (i : string) (w : World) :
  storage (addRecentCommand i w)
  = saveRecentCommandsTo
      (slice0 (i :: List.filter (fun j => negb (String.eqb j i))
                      (recentCommands (state w)))
         MAX_RECENT_COMMANDS)
      (storage w).
Proof.
  unfold addRecentCommand, saveRecentCommands. cbn [storage set_storage].
  now rewrite setState_storage.
Qed.

(** C10.  When the command found for the id is an action whose [execute]
    throws or rejects, [selectCommand] resolves: the error stays inside;
    [execute] was called and [onClose] was not; and the update of the
    recent commands made before [execute] is not rolled back: with
    recent-commands tracking enabled the state and storage are what
    [addRecentCommand] left, with the id at the front of
    [recentCommands], exactly once.  With tracking disabled no update is
    made and [recentCommands] is what it was. *)
Theorem selectCommand_failed_action
    (commands : list Command) (w : World) (commandId : string)
    (onClose : option nat) (b : BaseCommand) (p : option (list string))
    (e : ExecOutcome) :
  findCommandById commandId commands = Some (ActionCommand b p e) ->
  execThrows e = true ->
  let r := selectCommand commands commandId onClose w in
  fst r = Returned tt
  /\ trace (snd r)
     = trace w ++ [SelectCommandCalled commandId onClose; Executed commandId]
  /\ (enableRecentCommands (storeConfig w) = true ->
      (exists others,
         recentCommands (state (snd r)) = commandId :: others
         /\ ~ In commandId others)
      /\ state (snd r) = state (addRecentCommand commandId w)
      /\ storage (snd r) = storage (addRecentCommand commandId w))
  /\ (enableRecentCommands (storeConfig w) = false ->
      recentCommands (state (snd r)) = recentCommands (state w)).
Proof.
  intros Hfind Hthrows r. subst r. unfold selectCommand. rewrite Hfind.
  pose proof (findNavigableById_id _ _ _ Hfind) as Hid. cbn [baseOf] in Hid.
  unfold selectCommandBody. rewrite Hthrows, Hid.
  set (w1 := log (SelectCommandCalled commandId onClose) w).
  assert (storeConfig w1 = storeConfig w) as -> by reflexivity.
  assert (trace w1 = trace w ++ [SelectCommandCalled commandId onClose])
    as Ht by reflexivity.
  assert (recentCommands (state w1) = recentCommands (state w))
    as Hr by reflexivity.
  destruct (enableRecentCommands (storeConfig w)) eqn:En;
    cbn [fst snd]; (split; [reflexivity|]);
    unfold log at 1; cbn [trace state storage set_trace].
  - rewrite addRecentCommand_trace, Ht, <- app_assoc.
    split; [reflexivity|]. split; [|discriminate].
    intros _. split; [apply addRecentCommand_front|].
    split.
    + change (state (addRecentCommand commandId w1)
              = state (addRecentCommand commandId w)).
      now rewrite !addRecentCommand_state.
    + change (storage (addRecentCommand commandId w1)
              = storage (addRecentCommand commandId w)).
      now rewrite !addRecentCommand_storage.
  - rewrite Ht, <- app_assoc.
    split; [reflexivity|]. split; [discriminate|]. intros _. exact Hr.
Qed.

(* ===================================================================== *)
(** * The prefix-shortcut detector *)
(* ===================================================================== *)

Lemma findPrefixInSubtree_category prefix b ch :
  findPrefixInSubtree prefix (CategoryCommand b ch)
  = findCommandForPrefix prefix ch.
Proof.
  cbn [findPrefixInSubtree].
  induction ch as [|x r IH]; [reflexivity|].
  cbn [findCommandForPrefix]. now rewrite IH.
Qed.

Lemma findPrefix_preorder prefix c :
  List.find (fun x => includes (prefixesOf x) prefix) (preorder c)
  = if includes (prefixesOf c) prefix then Some c
    else findPrefixInSubtree prefix c.
Proof.
  induction c as [b p e|b p s|b ch IH] using Command_forest_ind.
  - simpl. now destruct (includes p prefix).
  - simpl. now destruct (includes p prefix).
  - rewrite preorder_category, findPrefixInSubtree_category.
    cbn [List.find prefixesOf includes].
    induction IH as [|x r Hx _ IHr]; [reflexivity|].
    cbn [preorderForest findCommandForPrefix].
    rewrite find_app_first, Hx.
    destruct (includes (prefixesOf x) prefix); [reflexivity|].
    destruct (findPrefixInSubtree prefix x); [reflexivity|apply IHr].
Qed.

(** [findCommandForPrefix] returns the first node, in pre-order, that has
    the prefix. *)
Lemma findCommandForPrefix_preorder prefix T :
  findCommandForPrefix prefix T
  = List.find (fun x => includes (prefixesOf x) prefix) (preorderForest T).
Proof.
  induction T as [|x r IH]; [reflexivity|].
  cbn [preorderForest findCommandForPrefix].
  rewrite find_app_first, findPrefix_preorder.
  destruct (includes (prefixesOf x) prefix); [reflexivity|].
  destruct (findPrefixInSubtree prefix x); [reflexivity|apply IH].
Qed.

Lemma endsWith_nonempty q suffix :
  endsWith q suffix = true -> truthyString suffix = true ->
  truthyString q = true.
Proof.
  destruct q; [|reflexivity]. destruct suffix; [discriminate|].
  intros H _. discriminate H.
Qed.

(** C7, as the code has it.  For one change of the query: after a
    navigation back the detector clears the flag and calls nothing; for
    the query it processed last it does nothing; otherwise it remembers
    the query, and it calls [selectCommand], with the [onClose] it was
    given, exactly when the query ends with a space, the trimmed query is
    not empty, and some node has the trimmed query among its prefixes: the
    call is for the first such node in pre-order.  In every other case it
    leaves the store as it is. *)
Theorem usePrefixTrigger_fires
    (commands : list Command) (q : string) (onClose : nat)
    (lastQuery : string) (w : World) :
  let r := usePrefixTrigger commands q onClose lastQuery w in
  let target := prefixTarget commands q lastQuery (state w) in
  selectCalls (trace (snd r))
  = selectCalls (trace w)
    ++ match target with
       | Some c => [(id (baseOf c), Some onClose)]
       | None => []
       end
  /\ match target with
     | Some c =>
         r = (q, snd (selectCommand commands (id (baseOf c)) (Some onClose) w))
     | None =>
         if default false (lastNavigationWasBack (state w)) then
           fst r = lastQuery
           /\ lastNavigationWasBack (state (snd r)) = Some false
           /\ trace (snd r) = trace w
         else if String.eqb q lastQuery then r = (lastQuery, w)
         else r = (q, w)
     end.
Proof.
  intros r target. subst r target. unfold usePrefixTrigger, prefixTarget, getState.
  destruct (default false (lastNavigationWasBack (state w))).
  { cbn [fst snd]. rewrite setState_trace, setState_state, app_nil_r.
    repeat split. }
  destruct (String.eqb q lastQuery).
  { cbn [fst snd]. rewrite app_nil_r. repeat split. }
  destruct (endsWith q " ") eqn:Eends.
  2:{ rewrite orb_true_r. cbn [andb snd]. rewrite app_nil_r. repeat split. }
  rewrite (endsWith_nonempty q " " Eends eq_refl). cbn [negb orb andb].
  destruct (truthyString (trim q)).
  2:{ cbn [negb snd]. rewrite app_nil_r. repeat split. }
  cbn [negb]. rewrite <- findCommandForPrefix_preorder.
  destruct (findCommandForPrefix (trim q) commands) as [c|].
  - cbn [snd]. rewrite selectCommand_calls. repeat split.
  - cbn [snd]. rewrite app_nil_r. repeat split.
Qed.

(* ===================================================================== *)
(** * The keyboard controller *)
(* ===================================================================== *)

Lemma findIndexFrom_found {A} (p : A -> bool) (l : list A) (i0 : Z) :
  let r := findIndexFrom p l i0 in
  0 <= i0 ->
  r = -1
  \/ (i0 <= r < i0 + Z.of_nat (length l)
      /\ exists x, l !! Z.to_nat (r - i0) = Some x /\ p x = true).
Proof.
  revert i0. induction l as [|x rest IH]; intros i0 r H0; subst r;
    cbn [findIndexFrom]; [now left|].
  destruct (p x) eqn:Ep.
  - right. split; [cbn [length]; lia|]. exists x.
    rewrite Z.sub_diag. auto.
  - destruct (IH (i0 + 1)) as [H|[Hr [y [Hy Hp]]]]; [lia|now left|].
    right. split; [cbn [length]; lia|]. exists y. split; [|exact Hp].
    replace (Z.to_nat (findIndexFrom p rest (i0 + 1) - i0))
      with (S (Z.to_nat (findIndexFrom p rest (i0 + 1) - (i0 + 1)))) by lia.
    exact Hy.
Qed.

Lemma currentIndexOf_range st its :
  currentIndexOf st its = -1
  \/ (0 <= currentIndexOf st its < Z.of_nat (length its)
      /\ exists x, at_index its (currentIndexOf st its) = Some x
                   /\ activeId st = Some (navId x)).
Proof.
  unfold currentIndexOf. destruct (activeId st) as [a|]; [|now left].
  destruct (truthyString a); [|now left]. unfold findIndex.
  destruct (findIndexFrom_found (fun it => String.eqb (navId it) a) its 0)
    as [H|[Hr [x [Hx Hp]]]]; [lia|now left|].
  right. split; [lia|]. exists x. unfold at_index.
  destruct (Z.ltb_spec (findIndexFrom (fun it => String.eqb (navId it) a) its 0) 0);
    [lia|].
  rewrite Z.sub_0_r in Hx. split; [exact Hx|].
  apply String.eqb_eq in Hp. now rewrite Hp.
Qed.

Lemma calculateNextIndex_in_range cur k len lp :
  0 <= cur < len ->
  0 <= calculateNextIndex cur k len lp < len.
Proof.
  intros H. unfold calculateNextIndex.
  destruct (String.eqb k "ArrowDown").
  - destruct (Z.ltb_spec cur (len - 1)); [lia|]. destruct lp; lia.
  - destruct (Z.ltb_spec 0 cur); [lia|]. destruct lp; lia.
Qed.

(** C8, as the code has it.  With a non-empty [items] list and a key
    event outside a text field: the index [calculateNextIndex] computes
    from an index of the list is an index of the list, whatever the key
    and [loop].  On move-down at the last index, without [loop] the
    computed index is the current one and the handler changes neither the
    state nor the queue of notifications; with [loop] the computed index
    is 0 and the first item is the active one afterwards.  On move-up at
    index 0, likewise: a no-op without [loop], and with [loop] the
    computed index is [length - 1] and the last item is the active one
    afterwards.  With no active item the current index is -1: move-down
    computes 0, and another key computes [length - 1] with [loop] and -1
    without, below the range; the handler then changes nothing on
    move-up.  In every case the computed index is at least -1 and at most
    [length - 1]. *)
Theorem keyboard_navigation_at_edges
    (commands : list Command) (w : World) (e : KeyboardEvent)
    (its : list NavItem) :
  String.eqb (targetTagName e) "INPUT"
    || String.eqb (targetTagName e) "TEXTAREA" = false ->
  items (state w) = Some its ->
  0 < Z.of_nat (length its) ->
  let len := Z.of_nat (length its) in
  let cur := currentIndexOf (state w) its in
  let lp := loop (state w) in
  let w' := handleGlobalKeyDown commands e w in
  (forall k l, 0 <= cur -> 0 <= calculateNextIndex cur k len l < len)
  /\ (key e = "ArrowDown" -> cur = len - 1 ->
      calculateNextIndex cur "ArrowDown" len lp = (if lp then 0 else cur)
      /\ (lp = false ->
          state w' = state w /\ stateRef w' = stateRef w
          /\ microtasks w' = microtasks w)
      /\ (lp = true ->
          exists first, at_index its 0 = Some first
                        /\ activeId (state w') = Some (navId first)))
  /\ (key e = "ArrowUp" -> cur = 0 ->
      calculateNextIndex cur "ArrowUp" len lp = (if lp then len - 1 else cur)
      /\ (lp = false ->
          state w' = state w /\ stateRef w' = stateRef w
          /\ microtasks w' = microtasks w)
      /\ (lp = true ->
          exists final, at_index its (len - 1) = Some final
                        /\ activeId (state w') = Some (navId final)))
  /\ (forall k l, cur = -1 ->
        calculateNextIndex cur k len l
        = (if String.eqb k "ArrowDown" then 0
           else if l then len - 1 else -1))
  /\ (key e = "ArrowUp" -> cur = -1 -> lp = false ->
      state w' = state w /\ stateRef w' = stateRef w
      /\ microtasks w' = microtasks w)
  /\ (forall k l, -1 <= calculateNextIndex cur k len l < len).
Proof.
  intros Htag Hitems Hlen len cur lp w'.
  pose proof (currentIndexOf_range (state w) its) as Hcur. fold cur len in Hcur.
  assert (forall k,
            isNavigationKey k = true ->
            String.eqb k "Enter" = false ->
            handleGlobalKeyDown commands
              {| targetTagName := targetTagName e; key := k |} w
            = let w0 := log StopPropagation (log PreventDefault w) in
              let n := calculateNextIndex cur k len lp in
              if (n =? cur) || (n <? 0) || (len <=? n) then w0
              else match at_index its n with
                   | None => w0
                   | Some targetItem =>
                       setState
                         [SetActiveId (Some (navId targetItem));
                          SetScrollTrigger (Some keyboard);
                          SetKeyboardNavigationActive (Some true);
                          SetNavigationDirection
                            (Some (if String.eqb k "ArrowDown"
                                   then down else up))] w0
                   end) as Hstep.
  { intros k Hnav Henter. unfold handleGlobalKeyDown. cbn [targetTagName key].
    rewrite Htag, Hnav. cbn [negb]. unfold getState. rewrite Hitems.
    unfold default, from_option, Datatypes.id. fold len cur lp.
    destruct (Z.eqb_spec len 0) as [E|_]; [lia|].
    rewrite Henter. cbn [andb]. reflexivity. }
  assert (e = {| targetTagName := targetTagName e; key := key e |}) as He
    by now destruct e.
  split; [intros k l H0; apply calculateNextIndex_in_range; lia|].
  split; [|split; [|split; [|split]]].
  - intros Hkey Hlast. subst w'. rewrite He, Hkey, Hstep by reflexivity.
    cbv zeta. unfold calculateNextIndex. cbn [String.eqb Ascii.eqb Bool.eqb].
    destruct (Z.ltb_spec cur (len - 1)) as [E|_]; [lia|].
    split; [reflexivity|]. split.
    + intros ->. rewrite Z.eqb_refl. cbn [orb]. auto.
    + intros ->. destruct Hcur as [Hc|[Hr [x [Hx Hact]]]]; [lia|].
      destruct (Z.eqb_spec 0 cur) as [E0|E0].
      * cbn [orb]. exists x. rewrite E0. split; [exact Hx|exact Hact].
      * change (0 <? 0) with false.
        destruct (Z.leb_spec len 0) as [E1|_]; [lia|]. cbn [orb].
        destruct (at_index its 0) as [first|] eqn:Ef.
        -- exists first. split; [reflexivity|]. now rewrite setState_state.
        -- unfold at_index in Ef. cbn in Ef. destruct its; [cbn in Hlen; lia|].
           discriminate.
  - intros Hkey Hfirst. subst w'. rewrite He, Hkey, Hstep by reflexivity.
    cbv zeta. unfold calculateNextIndex. cbn [String.eqb Ascii.eqb Bool.eqb].
    destruct (Z.ltb_spec 0 cur) as [E|_]; [lia|].
    split; [reflexivity|]. split.
    + intros ->. rewrite Z.eqb_refl. cbn [orb]. auto.
    + intros ->. destruct Hcur as [Hc|[Hr [x [Hx Hact]]]]; [lia|].
      destruct (Z.eqb_spec (len - 1) cur) as [E0|E0].
      * cbn [orb]. exists x. rewrite E0. split; [exact Hx|exact Hact].
      * destruct (Z.ltb_spec (len - 1) 0) as [E1|_]; [lia|].
        destruct (Z.leb_spec len (len - 1)) as [E2|_]; [lia|]. cbn [orb].
        destruct (at_index its (len - 1)) as [final|] eqn:Ef.
        -- exists final. split; [reflexivity|]. now rewrite setState_state.
        -- unfold at_index in Ef.
           destruct (Z.ltb_spec (len - 1) 0) as [E3|_]; [lia|].
           apply lookup_ge_None in Ef. lia.
  - intros k l Hnone. rewrite Hnone. unfold calculateNextIndex.
    destruct (String.eqb k "ArrowDown").
    + destruct (Z.ltb_spec (-1) (len - 1)); [lia|lia].
    + destruct (Z.ltb_spec 0 (-1)); [lia|reflexivity].
  - intros Hkey Hnone ->. subst w'. rewrite He, Hkey, Hstep by reflexivity.
    cbv zeta. rewrite Hnone. unfold calculateNextIndex.
    cbn [String.eqb Ascii.eqb Bool.eqb].
    destruct (Z.ltb_spec 0 (-1)) as [E|_]; [lia|].
    rewrite Z.eqb_refl. cbn [orb]. auto.
  - intros k l. unfold calculateNextIndex.
    destruct (String.eqb k "ArrowDown").
    + destruct (Z.ltb_spec cur (len - 1)); destruct l; lia.
    + destruct (Z.ltb_spec 0 cur); destruct l; lia.
Qed.

(* ===================================================================== *)
(** * The theorems at concrete inputs *)
(* ===================================================================== *)

Lemma flatten_agrees_with_find_witness :
  InTree calculator exampleTree
  /\ firstWithId "calculator" (flattenNavigables exampleTree)
     = Some calculator
  /\ findNavigableById "calculator" exampleTree = Some calculator.
Proof.
  assert (InTree calculator exampleTree) as Hin.
  { apply InTree_child, InTree_later, InTree_here. }
  split; [exact Hin|].
  destruct (flatten_agrees_with_find exampleTree "calculator" calculator Hin
              eq_refl) as (_ & _ & _ & n & Hfind & Hfirst & _).
  assert (n = calculator) as ->.
  { vm_compute in Hfind. now inversion Hfind. }
  split; assumption.
Defined.

Lemma searchWithCommandScore_ranked_witness :
  0 <= 1
  /\ Z.of_nat (length (searchWithCommandScore exampleScore
                         [devtools; calculator; openFirst] "open" 1)) <= 1.
Proof.
  split; [lia|].
  apply (searchWithCommandScore_ranked exampleScore "open" None
           [devtools; calculator; openFirst] 1).
  lia.
Defined.

Lemma setState_burst_notifies_each_time_witness :
  wellFormed watchedWorld
  /\ microtasks watchedWorld = []
  /\ trace (flushMicrotasks (setStateBurst [[]; []; []] watchedWorld))
     = [Notified 0; Notified 0; Notified 0]%nat.
Proof.
  assert (wellFormed watchedWorld) as Hw by (unfold wellFormed; cbn; lia).
  split; [exact Hw|]. split; [reflexivity|].
  apply (setState_burst_notifies_each_time watchedWorld [[]; []; []] Hw eq_refl).
Defined.

Lemma navigate_then_goBack_witness :
  history (state exampleWorld) = []
  /\ goBack exampleWorld = (false, exampleWorld).
Proof.
  split; [reflexivity|].
  apply (navigate_then_goBack exampleWorld (view (state exampleWorld))).
  reflexivity.
Defined.


Lemma selectCommand_failed_action_witness :
  findCommandById "boom" [failing] = Some failing
  /\ execThrows Throws = true
  /\ enableRecentCommands (storeConfig busyWorld) = true
  /\ fst (selectCommand [failing] "boom" (Some 1%nat) busyWorld)
     = Returned tt
  /\ trace (snd (selectCommand [failing] "boom" (Some 1%nat) busyWorld))
     = trace busyWorld
       ++ [SelectCommandCalled "boom" (Some 1%nat); Executed "boom"]
  /\ recentCommands
       (state (snd (selectCommand [failing] "boom" (Some 1%nat) busyWorld)))
     = ["boom"; "k"; "j"; "i"; "h"; "g"; "f"; "e"; "d"; "c"].
Proof.
  split; [reflexivity|]. split; [reflexivity|]. split; [reflexivity|].
  destruct (selectCommand_failed_action [failing] busyWorld "boom"
              (Some 1%nat) (plain "boom" "Explode") None Throws eq_refl
              eq_refl) as (Hres & Htrace & Hkept & _).
  split; [exact Hres|]. split; [exact Htrace|].
  destruct (Hkept eq_refl) as (_ & Hstate & _).
  rewrite Hstate. reflexivity.
Defined.

Lemma keyboard_navigation_at_edges_witness :
  items (state rowsWorld) = Some twoRows
  /\ currentIndexOf (state rowsWorld) twoRows = 1
  /\ state (handleGlobalKeyDown exampleTree arrowDown rowsWorld)
     = state rowsWorld.
Proof.
  split; [reflexivity|]. split; [reflexivity|].
  destruct (keyboard_navigation_at_edges exampleTree rowsWorld arrowDown
              twoRows eq_refl eq_refl ltac:(cbn; lia)) as (_ & Hdown & _).
  destruct (Hdown eq_refl eq_refl) as (_ & Hnoop & _).
  now apply Hnoop.
Defined.

(* ===================================================================== *)
(** * Where the code departs from the specification *)
(* ===================================================================== *)

(** C2.  A burst of two calls of [setState] runs the callback of the one
    subscriber twice, not once. *)
Lemma burst_is_not_coalesced :
  ~ (forall (w : World) (partials : list PartialState) (i : nat),
       wellFormed w -> microtasks w = [] ->
       (2 <= length partials)%nat ->
       subscriptionCount i (subscribers w) = 1%nat ->
       notifiedCount i (trace (flushMicrotasks (setStateBurst partials w)))
       = (notifiedCount i (trace w) + 1)%nat).
Proof.
  intros H.
  specialize (H watchedWorld [[]; []] 0%nat).
  assert (wellFormed watchedWorld) as Hw by (unfold wellFormed; cbn; lia).
  specialize (H Hw eq_refl (le_n 2) eq_refl).
  vm_compute in H. discriminate H.
Qed.

(** C3.  Of two items with one name the map keeps the second, and the
    search returns the second and not the first. *)
Lemma first_seen_does_not_win :
  ~ (forall (items : list Command) (s : string),
       stringToItemMap items !! s = firstOwner s items)
  /\ firstOwner "open" [openFirst; openSecond] = Some (0%nat, openFirst)
  /\ stringToItemMap [openFirst; openSecond] !! "open"
     = Some (1%nat, openSecond)
  /\ searchWithFuse (Some exactFuse) [openFirst; openSecond] "open" 50
     = Returned [openSecond].
Proof.
  assert (stringToItemMap [openFirst; openSecond] !! "open"
          = Some (1%nat, openSecond)) as Hmap by (vm_compute; reflexivity).
  split; [|split; [reflexivity|split; [exact Hmap|vm_compute; reflexivity]]].
  intros H. specialize (H [openFirst; openSecond] "open").
  pose proof (eq_trans (eq_sym Hmap) H) as Hboth.
  vm_compute in Hboth. discriminate Hboth.
Qed.


(** C7.  A query that ends with two spaces fires the detector, and a
    query of one space does not fire it although a node has the empty
    string among its prefixes. *)
Lemma trigger_is_not_single_space :
  ~ (forall (commands : list Command) (q : string) (onClose : nat)
            (lastQuery : string) (w : World),
       default false (lastNavigationWasBack (state w)) = false ->
       q <> lastQuery ->
       (selectCalls (trace (snd (usePrefixTrigger commands q onClose lastQuery w)))
        <> selectCalls (trace w)
        <-> claimedTrigger commands q = true))
  /\ claimedTrigger exampleTree "!calc  " = false
  /\ selectCalls
       (trace (snd (usePrefixTrigger exampleTree "!calc  " 1%nat "" exampleWorld)))
     = [("calculator", Some 1%nat)]
  /\ claimedTrigger [blankPrefix] " " = true
  /\ usePrefixTrigger [blankPrefix] " " 1%nat "" exampleWorld
     = (" ", exampleWorld).
Proof.
  split; [|repeat split; vm_compute; reflexivity].
  intros H.
  specialize (H exampleTree "!calc  " 1%nat "" exampleWorld eq_refl).
  destruct H as [H _]; [discriminate|].
  assert (claimedTrigger exampleTree "!calc  " = true) as Hc.
  { apply H. vm_compute. discriminate. }
  vm_compute in Hc. discriminate Hc.
Qed.

(** C8.  With two items and none of them active, move-up without [loop]
    computes the index -1, which is no index of the list; the handler
    then leaves the state as it is. *)
Lemma move_up_without_active_item :
  ~ (forall (w : World) (its : list NavItem) (k : string),
       items (state w) = Some its ->
       0 < Z.of_nat (length its) ->
       isNavigationKey k = true ->
       0 <= calculateNextIndex (currentIndexOf (state w) its) k
              (Z.of_nat (length its)) (loop (state w))
         <= Z.of_nat (length its) - 1)
  /\ currentIndexOf (state idleRowsWorld) twoRows = -1
  /\ calculateNextIndex (-1) "ArrowUp" 2 false = -1
  /\ state (handleGlobalKeyDown exampleTree arrowUp idleRowsWorld)
     = state idleRowsWorld.
Proof.
  split; [|repeat split; vm_compute; reflexivity].
  intros H.
  specialize (H idleRowsWorld twoRows "ArrowUp" eq_refl ltac:(cbn; lia)
                eq_refl).
  vm_compute in H. destruct H as [H _]. apply H. reflexivity.
Qed.


(* ===================================================================== *)
(** * More on the store: subscriptions *)
(* ===================================================================== *)

Lemma runCleanup_subscribers broken w :
  subscribers (runCleanup broken w)
  = List.filter (fun entry => negb (existsb (Nat.eqb (fst entry)) broken))
      (subscribers w).
Proof.
  unfold runCleanup. revert w. induction broken as [|i r IH]; intros w.
  - cbn. induction (subscribers w) as [|e l IHl]; [reflexivity|].
    cbn. now rewrite <- IHl.
  - cbn [fold_left]. rewrite IH. unfold unsubscribe, mapDelete.
    cbn [subscribers set_subscribers]. clear.
    induction (subscribers w) as [|e l IHl]; [reflexivity|].
    cbn [List.filter existsb].
    destruct (Nat.eqb (fst e) i) eqn:E; cbn [negb orb List.filter].
    + exact IHl.
    + destruct (negb (existsb (Nat.eqb (fst e)) r)); now rewrite IHl.
Qed.

Lemma runCleanup_others broken w :
  state (runCleanup broken w) = state w
  /\ storage (runCleanup broken w) = storage w
  /\ nextSubscriptionId (runCleanup broken w) = nextSubscriptionId w.
Proof.
  unfold runCleanup. revert w. induction broken as [|i r IH]; intros w;
    [auto|].
  cbn [fold_left]. destruct (IH (unsubscribe i w)) as (-> & -> & ->). auto.
Qed.

Lemma existsb_brokenKeys_throws entries e :
  In e entries -> subscriberThrows (callback (snd e)) = true ->
  existsb (Nat.eqb (fst e)) (brokenKeys entries) = true.
Proof.
  intros Hin Hthrows. apply existsb_exists. exists (fst e).
  split; [|apply Nat.eqb_refl]. unfold brokenKeys. apply in_map.
  apply filter_In. auto.
Qed.

Lemma runNotify_unfold w :
  runNotify w
  = let touched :=
      map (fun entry => (fst entry, touch (clock w) (snd entry)))
        (subscribers w) in
    let w1 := set_trace (trace w ++ passCalls (subscribers w))
                (set_subscribers touched w) in
    if 0 <? Z.of_nat (length (brokenKeys (subscribers w)))
    then queueMicrotask (CleanupTask (brokenKeys (subscribers w))) w1
    else w1.
Proof.
  unfold runNotify. rewrite forEachSubscriber_spec. reflexivity.
Qed.

Lemma filter_all_kept {A} (p : A -> bool) (l : list A) :
  (forall x, In x l -> p x = true) -> List.filter p l = l.
Proof.
  induction l as [|x r IH]; intros H; [reflexivity|]. cbn [List.filter].
  rewrite (H x (or_introl eq_refl)). f_equal. apply IH.
  intros y Hy. apply H. now right.
Qed.

(** One waiting notification pass, run to the end. *)
Lemma flush_one_pass w :
  microtasks w = [NotifyTask] ->
  let w' := flushMicrotasks w in
  let touched :=
    map (fun entry => (fst entry, touch (clock w) (snd entry))) (subscribers w) in
  trace w' = trace w ++ passCalls (subscribers w)
  /\ subscribers w'
     = List.filter
         (fun entry =>
            negb (existsb (Nat.eqb (fst entry)) (brokenKeys (subscribers w))))
         touched
  /\ microtasks w' = []
  /\ state w' = state w.
Proof.
  intros Hq w' touched. subst w'. unfold flushMicrotasks. rewrite Hq.
  change (2 * length [NotifyTask])%nat with 2%nat.
  cbn [drain]. rewrite Hq. cbn [runMicrotask]. rewrite runNotify_unfold.
  cbn [subscribers clock trace set_microtasks]. fold touched.
  set (broken := brokenKeys (subscribers w)).
  destruct (0 <? Z.of_nat (length broken)) eqn:Eb.
  - cbn [queueMicrotask microtasks set_microtasks set_trace set_subscribers
           app runMicrotask].
    set (w1 := set_microtasks [] _).
    destruct (runCleanup_spec broken w1) as [Hm Ht].
    destruct (runCleanup_others broken w1) as (Hst & _ & _).
    rewrite Hm, Ht, Hst, runCleanup_subscribers. subst w1. cbn. auto.
  - cbn [microtasks set_microtasks set_trace set_subscribers subscribers
           trace state].
    repeat split. destruct broken as [|k r]; [|discriminate Eb].
    symmetry. apply filter_all_kept. reflexivity.
Qed.

(** X1.  One [setState] in a task that started with an empty queue: when
    the queue has run, every subscriber was called once, in subscription
    order, also those that come after one whose callback threw; the
    subscriptions whose id is the id of a throwing callback are removed
    and the others stay, so no remaining callback throws; and the state
    keeps the update. *)
Theorem notification_isolates_failures (w : World) (partial : PartialState) :
  wellFormed w ->
  microtasks w = [] ->
  let w' := flushMicrotasks (setState partial w) in
  let touched :=
    map (fun entry => (fst entry, touch (clock w) (snd entry))) (subscribers w) in
  trace w' = trace w ++ passCalls (subscribers w)
  /\ subscribers w'
     = List.filter
         (fun entry =>
            negb (existsb (Nat.eqb (fst entry)) (brokenKeys (subscribers w))))
         touched
  /\ Forall (fun entry => subscriberThrows (callback (snd entry)) = false)
       (subscribers w')
  /\ microtasks w' = []
  /\ state w' = spread (state w) partial.
Proof.
  intros Hw Hq w' touched.
  assert (brokenKeys touched = brokenKeys (subscribers w)) as Hbk.
  { subst touched. unfold brokenKeys. clear.
    induction (subscribers w) as [|[i m] l IH]; [reflexivity|].
    cbn [map List.filter fst snd touch callback].
    destruct (subscriberThrows (callback m)); cbn [map fst]; now rewrite IH. }
  assert (microtasks (setState partial w) = [NotifyTask]) as Hone.
  { rewrite (setState_queues partial w Hw), Hq. reflexivity. }
  destruct (flush_one_pass (setState partial w) Hone) as (Ht & Hs & Hm & Hst).
  fold w' in Ht, Hs, Hm, Hst.
  rewrite setState_trace, setState_subscribers in Ht.
  rewrite setState_subscribers, setState_clock in Hs. fold touched in Hs.
  rewrite setState_state in Hst.
  repeat split; try assumption.
  rewrite Hs. apply List.Forall_forall. intros e He.
  apply filter_In in He as [He Hk].
  destruct (subscriberThrows (callback (snd e))) eqn:Et; [|reflexivity].
  rewrite <- Hbk in Hk.
  rewrite (existsb_brokenKeys_throws touched e He Et) in Hk. discriminate.
Qed.

Lemma mapSet_fresh {V} (k : nat) (v : V) (m : list (nat * V)) :
  Forall (fun entry => (fst entry < k)%nat) m -> mapSet k v m = m ++ [(k, v)].
Proof.
  induction 1 as [|[k' v'] l Hk _ IH]; [reflexivity|]. cbn [mapSet app].
  cbn [fst] in Hk.
  destruct (Nat.eqb_spec k' k) as [E|_]; [lia|]. now rewrite IH.
Qed.

Lemma mapDelete_fresh {V} (k : nat) (m : list (nat * V)) :
  Forall (fun entry => (fst entry < k)%nat) m -> mapDelete k m = m.
Proof.
  unfold mapDelete. induction 1 as [|[k' v'] l Hk _ IH]; [reflexivity|].
  cbn [List.filter fst] in *.
  destruct (Nat.eqb_spec k' k) as [E|_]; [lia|]. cbn [negb]. now rewrite IH.
Qed.

(** X2.  In a store whose subscription ids all came from its counter,
    [subscribe] appends the new subscription under the next id and keeps
    the ids below the counter; the function it returns removes exactly
    that subscription, and calling it a second time changes nothing. *)
Theorem subscribe_then_unsubscribe (w : World) (cb : Subscriber) :
  subscriptionsFresh w ->
  let r := subscribe cb w in
  let unsubscribed := unsubscribe (fst r) (snd r) in
  fst r = nextSubscriptionId w
  /\ subscribers (snd r)
     = subscribers w
       ++ [(fst r, {| callback := cb; metaId := fst r;
                      mountedAt := clock w; lastActive := clock w |})]
  /\ subscriptionsFresh (snd r)
  /\ subscribers unsubscribed = subscribers w
  /\ unsubscribe (fst r) unsubscribed = unsubscribed.
Proof.
  intros Hfresh r unsubscribed. subst unsubscribed r.
  unfold subscribe, unsubscribe, subscriptionsFresh in *.
  cbn [fst snd subscribers nextSubscriptionId set_subscribers
         set_nextSubscriptionId clock].
  rewrite (mapSet_fresh _ _ _ Hfresh).
  assert (mapDelete (nextSubscriptionId w)
            (subscribers w ++
               [(nextSubscriptionId w,
                 {| callback := cb; metaId := nextSubscriptionId w;
                    mountedAt := clock w; lastActive := clock w |})])
          = subscribers w) as Hdel.
  { unfold mapDelete. rewrite List.filter_app. cbn [List.filter fst].
    rewrite Nat.eqb_refl. cbn [negb]. rewrite app_nil_r.
    apply (mapDelete_fresh _ _ Hfresh). }
  rewrite Hdel.
  split; [reflexivity|]. split; [reflexivity|]. split.
  - apply Forall_app. split.
    + eapply Forall_impl; [exact Hfresh|]. cbn. intros e He. lia.
    + repeat constructor.
  - split; [reflexivity|].
    rewrite (mapDelete_fresh _ _ Hfresh). reflexivity.
Qed.

Lemma drain_no_subscribers fuel : forall w,
  subscribers w = [] ->
  trace (drain fuel w) = trace w
  /\ subscribers (drain fuel w) = []
  /\ state (drain fuel w) = state w
  /\ (length (microtasks w) <= fuel -> microtasks (drain fuel w) = [])%nat.
Proof.
  induction fuel as [|fuel IH]; intros w Hs; cbn [drain].
  - repeat split; try assumption. intros H. destruct (microtasks w); [reflexivity|].
    cbn in H. lia.
  - destruct (microtasks w) as [|task queue] eqn:Eq.
    { repeat split; try assumption; try reflexivity. intros _. exact Eq. }
    set (w1 := runMicrotask task (set_microtasks queue w)).
    assert (subscribers w1 = [] /\ trace w1 = trace w /\ state w1 = state w
            /\ microtasks w1 = queue) as (H1 & H2 & H3 & H4).
    { subst w1. destruct task as [|broken]; cbn [runMicrotask].
      - unfold runNotify. cbn [subscribers set_microtasks]. rewrite Hs.
        cbn. now rewrite app_nil_r.
      - destruct (runCleanup_spec broken (set_microtasks queue w)) as [-> ->].
        destruct (runCleanup_others broken (set_microtasks queue w)) as (-> & _).
        rewrite runCleanup_subscribers. cbn [subscribers set_microtasks].
        rewrite Hs. auto. }
    destruct (IH w1 H1) as (I1 & I2 & I3 & I4).
    rewrite I1, I3, H2, H3. repeat split; try assumption.
    intros Hlen. apply I4. rewrite H4. cbn in Hlen. lia.
Qed.

(** X3.  [destroy()] puts the initial state back, removes every
    subscriber, restarts the id counter, and queues no notification; a
    second [destroy()] changes nothing more; and the notification passes
    that were waiting when the store was destroyed call nobody. *)
Theorem destroy_resets (w : World) :
  state (destroy w) = initialState w
  /\ subscribers (destroy w) = []
  /\ nextSubscriptionId (destroy w) = 0%nat
  /\ microtasks (destroy w) = microtasks w
  /\ destroy (destroy w) = destroy w
  /\ trace (flushMicrotasks (destroy w)) = trace w
  /\ microtasks (flushMicrotasks (destroy w)) = []
  /\ state (flushMicrotasks (destroy w)) = initialState w.
Proof.
  assert (subscribers (destroy w) = []) as Hs by reflexivity.
  destruct (drain_no_subscribers (2 * length (microtasks (destroy w)))
              (destroy w) Hs) as (H1 & _ & H3 & H4).
  repeat split; try reflexivity.
  - exact H1.
  - apply H4. lia.
  - exact H3.
Qed.

(** X4.  The id counter restarts at [destroy()], so ids are handed out
    again: the unsubscribe function of the first subscriber of a store,
    called after the store was destroyed and someone subscribed anew,
    removes the new subscriber. *)
Theorem stale_unsubscribe_removes_newcomer (w : World) (old new : Subscriber) :
  nextSubscriptionId w = 0%nat ->
  let first := subscribe old w in
  let second := subscribe new (destroy (snd first)) in
  fst first = fst second
  /\ subscribers (snd second)
     = [(0%nat, {| callback := new; metaId := 0%nat;
                   mountedAt := clock w; lastActive := clock w |})]
  /\ subscribers (unsubscribe (fst first) (snd second)) = [].
Proof.
  intros H0 first second. subst first second.
  unfold subscribe at 2 3 4. cbn [fst snd]. unfold destroy.
  cbn [nextSubscriptionId set_nextSubscriptionId set_subscribers set_stateRef
         set_state subscribers clock mapSet].
  unfold subscribe. cbn [fst snd clock set_subscribers set_nextSubscriptionId].
  rewrite H0. cbn. repeat split.
Qed.

(* ===================================================================== *)
(** * More on the store: preferences, recent commands, selection *)
(* ===================================================================== *)

Lemma sameLibrary_eq a b : sameLibrary a b = true -> a = b.
Proof. destruct a as [[|]|], b as [[|]|]; cbn; congruence. Qed.

Lemma sameLibrary_refl a : sameLibrary a a = true.
Proof. now destruct a as [[|]|]. Qed.

Lemma spread_recent_same (s : CommandState) :
  spread s [SetRecentCommands (recentCommands s)] = s.
Proof. now destruct s. Qed.

Lemma init_searchLibrary (w : World) :
  searchLibrary (state (init w))
  = match loadSearchLibrary w with
    | Some saved => Some saved
    | None => searchLibrary (state w)
    end.
Proof.
  unfold init.
  set (library := match loadSearchLibrary w with
                  | Some saved => Some saved
                  | None => searchLibrary (state w)
                  end).
  set (w1 := if negb _ then _ else w).
  assert (searchLibrary (state w1) = library /\ storeConfig w1 = storeConfig w)
    as [H1 H2].
  { subst w1. destruct (sameLibrary library (searchLibrary (state w))) eqn:E;
      cbn [negb].
    - split; [|reflexivity]. symmetry. now apply sameLibrary_eq.
    - now rewrite setState_state, setState_storeConfig. }
  rewrite H2. destruct (enableRecentCommands (storeConfig w)); [|exact H1].
  rewrite setState_state. cbn [spread fold_left applyUpdate searchLibrary].
  exact H1.
Qed.

Lemma init_storage (w : World) :
  storage (init w) = storage w /\ storeConfig (init w) = storeConfig w.
Proof.
  unfold init. set (w1 := if negb _ then _ else w).
  assert (storage w1 = storage w /\ storeConfig w1 = storeConfig w) as [H1 H2].
  { subst w1. destruct (negb _); [|auto].
    now rewrite setState_storage, setState_storeConfig. }
  rewrite H2. destruct (enableRecentCommands (storeConfig w)); [|auto].
  now rewrite setState_storage, setState_storeConfig.
Qed.

(** X5.  [init()] reads and never writes storage.  Afterwards the search
    library is the stored one when that is ['fuse'] or ['commandscore'] and
    the one in memory otherwise (nothing stored, another string stored, or
    storage failing).  With tracking enabled the recent commands are the
    stored list, and the empty list when nothing is stored or storage
    fails: what was in memory is replaced.  With tracking disabled they are
    untouched.  A second [init()] leaves the state as the first left it. *)
Theorem init_loads_preferences (w : World) :
  storage (init w) = storage w
  /\ searchLibrary (state (init w))
     = (if storageFails (storage w) then searchLibrary (state w)
        else match storedSearchLibrary (storage w) with
             | Some stored =>
                 if String.eqb stored "fuse" then Some fuse
                 else if String.eqb stored "commandscore"
                      then Some commandscore
                      else searchLibrary (state w)
             | None => searchLibrary (state w)
             end)
  /\ recentCommands (state (init w))
     = (if enableRecentCommands (storeConfig w)
        then (if storageFails (storage w) then []
              else match storedRecent (storage w) with
                   | Some stored => stored
                   | None => []
                   end)
        else recentCommands (state w))
  /\ view (state (init w)) = view (state w)
  /\ history (state (init w)) = history (state w)
  /\ state (init (init w)) = state (init w).
Proof.
  destruct (init_storage w) as [Hst Hcf].
  split; [exact Hst|]. split; [|split; [|split; [|split]]].
  - rewrite init_searchLibrary. unfold loadSearchLibrary, loadSearchLibraryFrom.
    destruct (storageFails (storage w)); [reflexivity|].
    destruct (storedSearchLibrary (storage w)) as [s|]; [|reflexivity].
    destruct (String.eqb s "fuse"); [reflexivity|].
    now destruct (String.eqb s "commandscore").
  - rewrite init_recent. unfold loadRecentCommands, loadRecentCommandsFrom.
    destruct (enableRecentCommands (storeConfig w)); [|reflexivity].
    destruct (storageFails (storage w)); [reflexivity|].
    now destruct (storedRecent (storage w)).
  - unfold init. set (w1 := if negb _ then _ else w).
    assert (view (state w1) = view (state w)) as H1.
    { subst w1. destruct (negb _); [|reflexivity]. now rewrite setState_state. }
    destruct (enableRecentCommands (storeConfig w1)); [|exact H1].
    now rewrite setState_state.
  - unfold init. set (w1 := if negb _ then _ else w).
    assert (history (state w1) = history (state w)) as H1.
    { subst w1. destruct (negb _); [|reflexivity]. now rewrite setState_state. }
    destruct (enableRecentCommands (storeConfig w1)); [|exact H1].
    now rewrite setState_state.
  - pose proof (init_searchLibrary w) as Hlib.
    pose proof (init_recent w) as Hrec.
    unfold init at 1.
    assert (loadSearchLibrary (init w) = loadSearchLibrary w) as Hl
      by (unfold loadSearchLibrary; now rewrite Hst).
    assert (loadRecentCommands (init w) = loadRecentCommands w) as Hr
      by (unfold loadRecentCommands; now rewrite Hst).
    rewrite Hl.
    assert (match loadSearchLibrary w with
            | Some saved => Some saved
            | None => searchLibrary (state (init w))
            end = searchLibrary (state (init w))) as ->.
    { rewrite Hlib. now destruct (loadSearchLibrary w). }
    rewrite sameLibrary_refl. cbn [negb]. rewrite Hcf.
    destruct (enableRecentCommands (storeConfig w)); [|reflexivity].
    rewrite setState_state, Hr, <- Hrec. apply spread_recent_same.
Qed.

Lemma addRecentCommands_snoc ids i w :
  addRecentCommands (ids ++ [i]) w = addRecentCommand i (addRecentCommands ids w).
Proof. unfold addRecentCommands. now rewrite fold_left_app. Qed.

(** X6.  Ids that are pairwise different and not yet in the list, added
    one after the other, end up in front in reverse order of their
    addition, before the former entries, and the list is cut to the ten
    most recent. *)
Theorem addRecentCommands_most_recent_first (ids : list string) (w : World) :
  List.NoDup ids ->
  Forall (fun i => ~ In i (recentCommands (state w))) ids ->
  recentCommands (state (addRecentCommands ids w))
  = match ids with
    | [] => recentCommands (state w)
    | _ => take 10 (rev ids ++ recentCommands (state w))
    end.
Proof.
  set (l := recentCommands (state w)).
  induction ids as [|i ids IH] using rev_ind; intros Hnd Hnew; [reflexivity|].
  apply NoDup_remove in Hnd as [Hnd Hi]. rewrite app_nil_r in Hnd, Hi.
  apply Forall_app in Hnew as [Hnew Hil].
  apply Forall_inv in Hil.
  specialize (IH Hnd Hnew).
  rewrite addRecentCommands_snoc, addRecentCommand_recent, IH.
  rewrite rev_app_distr. cbn [rev app].
  assert (forall r, (forall x, In x r -> In x (rev ids ++ l)) ->
                    List.filter (fun j => negb (String.eqb j i)) r = r) as Hkeep.
  { intros r Hr. apply filter_ne_id. intros Hin. apply Hr in Hin.
    apply in_app_or in Hin as [Hin|Hin]; [|contradiction].
    apply Hi. now apply in_rev. }
  destruct ids as [|j ids'].
  - cbn [app]. rewrite Hkeep; [|cbn; auto].
    destruct l; reflexivity.
  - destruct (j :: ids') eqn:E; [discriminate|]. rewrite <- E in *.
    rewrite Hkeep by (intros x Hx; eapply In_take; exact Hx).
    change (take 10 (i :: take 10 (rev (j :: ids') ++ l)))
      with (i :: take 9 (take 10 (rev (j :: ids') ++ l))).
    rewrite take_take. reflexivity.
Qed.

Lemma In_preorder_tree c x : In c (preorder x) -> InTree c [x].
Proof.
  revert c. induction x as [b p e|b p s|b ch IH] using Command_forest_ind;
    intros c Hin.
  - destruct Hin as [<-|[]]. constructor.
  - destruct Hin as [<-|[]]. constructor.
  - rewrite preorder_category in Hin. destruct Hin as [<-|Hin]; [constructor|].
    apply InTree_child.
    induction IH as [|y r Hy _ IHr]; [destruct Hin|].
    cbn [preorderForest] in Hin. apply in_app_or in Hin as [Hin|Hin].
    + specialize (Hy c Hin). inversion Hy as [rest|b' ch' rest H|z rest H]; subst.
      * constructor.
      * now apply InTree_child.
      * inversion H.
    + apply InTree_later. now apply IHr.
Qed.

Lemma In_preorderForest_tree c T : In c (preorderForest T) -> InTree c T.
Proof.
  induction T as [|x r IH]; intros Hin; [destruct Hin|].
  cbn [preorderForest] in Hin. apply in_app_or in Hin as [Hin|Hin].
  - apply In_preorder_tree in Hin.
    inversion Hin as [rest|b ch rest H|z rest H]; subst.
    + constructor.
    + now apply InTree_child.
    + inversion H.
  - apply InTree_later. now apply IH.
Qed.

Lemma findNavigableById_absent i T :
  idAbsent i T -> findNavigableById i T = None.
Proof.
  intros Habs. rewrite <- firstWithId_preorderForest. unfold firstWithId.
  destruct (List.find _ _) as [c|] eqn:E; [|reflexivity].
  apply find_some in E as [Hin Hid]. apply String.eqb_eq in Hid.
  apply In_preorderForest_tree in Hin. now apply Habs in Hin.
Qed.

(** X7.  [selectCommand] with an id that no node of the tree has resolves
    and does nothing: the state (so also the recent commands), storage and
    the queue of notifications are what they were, and nothing is
    executed or closed. *)
Theorem selectCommand_unknown_id
    (commands : list Command) (w : World) (commandId : string)
    (onClose : option nat) :
  idAbsent commandId commands ->
  let r := selectCommand commands commandId onClose w in
  fst r = Returned tt
  /\ state (snd r) = state w
  /\ storage (snd r) = storage w
  /\ microtasks (snd r) = microtasks w
  /\ trace (snd r) = trace w ++ [SelectCommandCalled commandId onClose].
Proof.
  intros Habs r. subst r. unfold selectCommand, findCommandById.
  rewrite (findNavigableById_absent _ _ Habs). repeat split.
Qed.

Lemma addRecentCommand_keeps i w :
  view (state (addRecentCommand i w)) = view (state w)
  /\ history (state (addRecentCommand i w)) = history (state w)
  /\ lastNavigationWasBack (state (addRecentCommand i w))
     = lastNavigationWasBack (state w)
  /\ activeId (state (addRecentCommand i w)) = activeId (state w)
  /\ items (state (addRecentCommand i w)) = items (state w).
Proof.
  unfold addRecentCommand, saveRecentCommands. cbn [state set_storage].
  rewrite setState_state. repeat split.
Qed.

(** What the [try] block of [selectCommand] leaves alone. *)
Lemma selectCommandBody_keeps c i f w :
  let w' := snd (selectCommandBody c i f w) in
  lastNavigationWasBack (state w') = lastNavigationWasBack (state w)
  /\ activeId (state w') = activeId (state w)
  /\ items (state w') = items (state w).
Proof.
  unfold selectCommandBody.
  set (w1 := if enableRecentCommands (storeConfig w) then _ else w).
  assert (lastNavigationWasBack (state w1) = lastNavigationWasBack (state w)
          /\ activeId (state w1) = activeId (state w)
          /\ items (state w1) = items (state w)) as (H1 & H2 & H3).
  { subst w1. destruct (enableRecentCommands _); [|auto].
    destruct (addRecentCommand_keeps i w) as (_ & _ & -> & -> & ->). auto. }
  destruct c as [b p e|b p s|b ch]; cbn [snd].
  - destruct (execThrows e); [|destruct f]; cbn [snd]; auto.
  - unfold navigate. rewrite setState_state. cbn. auto.
  - unfold navigate. rewrite setState_state. cbn. auto.
Qed.

Lemma selectCommand_keeps commands i f w :
  let w' := snd (selectCommand commands i f w) in
  lastNavigationWasBack (state w') = lastNavigationWasBack (state w)
  /\ activeId (state w') = activeId (state w)
  /\ items (state w') = items (state w).
Proof.
  unfold selectCommand.
  set (w1 := log (SelectCommandCalled i f) w).
  destruct (findCommandById i commands) as [c|]; [|cbn; auto].
  pose proof (selectCommandBody_keeps c i f w1) as H.
  destruct (selectCommandBody c i f w1) as [[u|m] w2]; exact H.
Qed.

Lemma goBack_after_push (w : World) (v : ViewState) :
  let back := goBack (navigate v w) in
  fst back = true
  /\ view (state (snd back)) = view (state w)
  /\ history (state (snd back)) = history (state w).
Proof.
  unfold goBack, navigate. rewrite !setState_state.
  cbn [spread fold_left applyUpdate history view].
  set (h := history (state w)).
  rewrite length_app. cbn [length].
  destruct (Z.eqb_spec (Z.of_nat (length h + 1)) 0) as [E|_]; [lia|].
  unfold at_index.
  destruct (Z.ltb_spec (Z.of_nat (length h + 1) - 1) 0) as [E|_]; [lia|].
  replace (Z.to_nat (Z.of_nat (length h + 1) - 1)) with (length h) by lia.
  rewrite list_lookup_middle by reflexivity.
  cbn [fst snd]. rewrite setState_state.
  cbn [spread fold_left applyUpdate history view].
  rewrite dropLast_snoc. auto.
Qed.

(** X8.  [selectCommand] for an id found on a category or a portal opens
    that view with an empty query (a portal view carries the portal's
    [showSearchInput]), pushes the view that was current, and calls
    neither [execute] nor [onClose]; [goBack()] right after it returns
    true and restores the view and the history from before the
    selection. *)
Theorem selectCommand_opens_view
    (commands : list Command) (w : World) (commandId : string)
    (onClose : option nat) (c : Command) :
  findCommandById commandId commands = Some c ->
  (forall b p e, c <> ActionCommand b p e) ->
  let w' := snd (selectCommand commands commandId onClose w) in
  view (state w')
  = match c with
    | PortalCommand _ _ show =>
        {| type := portal; portalId := Some commandId; categoryId := None;
           query := Some ""; showSearchInput := show |}
    | _ =>
        {| type := category; portalId := None; categoryId := Some commandId;
           query := Some ""; showSearchInput := None |}
    end
  /\ history (state w') = history (state w) ++ [view (state w)]
  /\ trace w' = trace w ++ [SelectCommandCalled commandId onClose]
  /\ fst (goBack w') = true
  /\ view (state (snd (goBack w'))) = view (state w)
  /\ history (state (snd (goBack w'))) = history (state w).
Proof.
  intros Hfind Hkind w'. subst w'. unfold selectCommand. rewrite Hfind.
  unfold selectCommandBody.
  set (w0 := log (SelectCommandCalled commandId onClose) w).
  set (w1 := if enableRecentCommands (storeConfig w0) then _ else w0).
  assert (view (state w1) = view (state w)
          /\ history (state w1) = history (state w)
          /\ trace w1 = trace w ++ [SelectCommandCalled commandId onClose])
    as (Hv & Hh & Ht).
  { subst w1. destruct (enableRecentCommands _); [|auto].
    destruct (addRecentCommand_keeps commandId w0) as (-> & -> & _).
    rewrite addRecentCommand_trace. auto. }
  destruct c as [b p e|b p s|b ch]; [exfalso; now apply (Hkind b p e)| |];
    cbn [snd].
  - destruct (goBack_after_push w1 {| type := portal; portalId := Some commandId;
                                      categoryId := None; query := Some "";
                                      showSearchInput := s |})
      as (G1 & G2 & G3).
    rewrite G1, G2, G3, navigate_trace. unfold navigate.
    rewrite setState_state. cbn [spread fold_left applyUpdate view history].
    rewrite Hv, Hh. repeat split; auto.
  - destruct (goBack_after_push w1 {| type := category; portalId := None;
                                      categoryId := Some commandId;
                                      query := Some "";
                                      showSearchInput := None |})
      as (G1 & G2 & G3).
    rewrite G1, G2, G3, navigate_trace. unfold navigate.
    rewrite setState_state. cbn [spread fold_left applyUpdate view history].
    rewrite Hv, Hh. repeat split; auto.
Qed.

(* ===================================================================== *)
(** * More on the detector and the keyboard controller *)
(* ===================================================================== *)

(** X9.  After a [goBack()] that succeeded, the next run of the prefix
    detector calls no [selectCommand], whatever the query is, keeps the
    query it had remembered, and turns the flag off again; the view and
    the history stay as [goBack()] left them. *)
Theorem goBack_guards_prefix_trigger
    (commands : list Command) (w : World) (q : string) (onClose : nat)
    (lastQuery : string) :
  fst (goBack w) = true ->
  let w1 := snd (goBack w) in
  let r := usePrefixTrigger commands q onClose lastQuery w1 in
  fst r = lastQuery
  /\ selectCalls (trace (snd r)) = selectCalls (trace w)
  /\ lastNavigationWasBack (state (snd r)) = Some false
  /\ view (state (snd r)) = view (state w1)
  /\ history (state (snd r)) = history (state w1).
Proof.
  unfold goBack.
  destruct (Z.of_nat (length (history (state w))) =? 0); [discriminate|].
  destruct (at_index _ _) as [previousView|]; [|discriminate].
  intros _. cbv zeta. cbn [snd]. unfold usePrefixTrigger, getState.
  rewrite setState_state.
  cbn [spread fold_left applyUpdate lastNavigationWasBack default from_option].
  unfold Datatypes.id. cbn [fst snd].
  rewrite !setState_state, !setState_trace.
  cbn [spread fold_left applyUpdate lastNavigationWasBack view history].
  auto.
Qed.

(** X10.  The detector does not fire twice for one query: when no
    navigation back is pending, running the effect again with the same
    query, on what the first run left, changes nothing and calls
    nothing. *)
Theorem usePrefixTrigger_once
    (commands : list Command) (w : World) (q : string) (onClose : nat)
    (lastQuery : string) :
  default false (lastNavigationWasBack (state w)) = false ->
  let r := usePrefixTrigger commands q onClose lastQuery w in
  usePrefixTrigger commands q onClose (fst r) (snd r) = r.
Proof.
  intros Hflag r. subst r.
  assert (forall w', lastNavigationWasBack (state w')
                     = lastNavigationWasBack (state w) ->
                     forall l, String.eqb q l = true ->
                     usePrefixTrigger commands q onClose l w' = (l, w')) as Hskip.
  { intros w' Hw' l Hl. unfold usePrefixTrigger, getState.
    now rewrite Hw', Hflag, Hl. }
  destruct (usePrefixTrigger commands q onClose lastQuery w) as [l1 w1] eqn:E.
  cbn [fst snd]. unfold usePrefixTrigger, getState in E. rewrite Hflag in E.
  destruct (String.eqb q lastQuery) eqn:Eq.
  { inversion E; subst. now apply Hskip. }
  destruct (negb (truthyString q) || negb (endsWith q " ")).
  { inversion E; subst. apply Hskip; [reflexivity|apply String.eqb_refl]. }
  destruct (negb (truthyString (trim q))).
  { inversion E; subst. apply Hskip; [reflexivity|apply String.eqb_refl]. }
  destruct (findCommandForPrefix (trim q) commands) as [c|].
  - inversion E; subst. apply Hskip; [|apply String.eqb_refl].
    apply selectCommand_keeps.
  - inversion E; subst. apply Hskip; [reflexivity|apply String.eqb_refl].
Qed.

Lemma selectCommandBody_trace c i f w :
  exists rest, trace (snd (selectCommandBody c i f w)) = trace w ++ rest.
Proof.
  unfold selectCommandBody.
  set (w1 := if enableRecentCommands (storeConfig w) then _ else w).
  assert (trace w1 = trace w) as Ht.
  { subst w1. destruct (enableRecentCommands _); [|reflexivity].
    apply addRecentCommand_trace. }
  destruct c as [b p e|b p s|b ch]; cbn [snd].
  - destruct (execThrows e); [|destruct f]; cbn [snd log trace set_trace];
      rewrite Ht, <- ?app_assoc; eexists; reflexivity.
  - rewrite navigate_trace, Ht. exists []. now rewrite app_nil_r.
  - rewrite navigate_trace, Ht. exists []. now rewrite app_nil_r.
Qed.

Lemma selectCommand_trace commands i f w :
  exists rest, trace (snd (selectCommand commands i f w)) = trace w ++ rest.
Proof.
  unfold selectCommand.
  set (w1 := log (SelectCommandCalled i f) w).
  assert (trace w1 = trace w ++ [SelectCommandCalled i f]) as H1 by reflexivity.
  destruct (findCommandById i commands) as [c|]; [|eexists; exact H1].
  destruct (selectCommandBody_trace c i f w1) as [rest Hr].
  destruct (selectCommandBody c i f w1) as [[u|m] w2]; cbn [snd] in *;
    rewrite Hr, H1, <- app_assoc; eexists; reflexivity.
Qed.

Lemma at_index_In {A} (l : list A) (i : Z) (x : A) :
  at_index l i = Some x -> In x l.
Proof.
  unfold at_index. destruct (i <? 0); [discriminate|]. intros H.
  apply list_elem_of_In. eapply list_elem_of_lookup_2. exact H.
Qed.

(** X11.  The keyboard handler ignores an event whose target is an input or
    a text area, and a key other than the three navigation keys: the world
    is untouched.  For a navigation key elsewhere it prevents the default
    action and stops propagation, also when there are no items; it never
    changes [items]; and the active id afterwards is the one before or the
    id of one of the items. *)
Theorem handleGlobalKeyDown_stays_in_items
    (commands : list Command) (e : KeyboardEvent) (w : World) :
  let w' := handleGlobalKeyDown commands e w in
  let ignored :=
    String.eqb (targetTagName e) "INPUT"
    || String.eqb (targetTagName e) "TEXTAREA"
    || negb (isNavigationKey (key e)) in
  (if ignored then w' = w
   else exists rest,
          trace w' = trace w ++ PreventDefault :: StopPropagation :: rest)
  /\ items (state w') = items (state w)
  /\ (activeId (state w') = activeId (state w)
      \/ exists it, In it (default [] (items (state w)))
                    /\ activeId (state w') = Some (navId it)).
Proof.
  intros w' ignored. subst w' ignored. unfold handleGlobalKeyDown.
  destruct (String.eqb (targetTagName e) "INPUT"
            || String.eqb (targetTagName e) "TEXTAREA"); cbn [orb].
  { auto. }
  destruct (isNavigationKey (key e)); cbn [negb]; [|auto].
  unfold getState.
  set (its := default [] (items (state w))).
  set (w0 := log StopPropagation (log PreventDefault w)).
  assert (trace w0 = trace w ++ [PreventDefault; StopPropagation]) as Ht0.
  { subst w0. cbn [log trace set_trace]. now rewrite <- app_assoc. }
  assert (forall w1 rest,
            trace w1 = trace w0 ++ rest ->
            exists rest', trace w1
                          = trace w ++ PreventDefault :: StopPropagation :: rest')
    as Hext.
  { intros w1 rest H. exists rest. rewrite H, Ht0, <- app_assoc. reflexivity. }
  destruct (Z.of_nat (length its) =? 0).
  { split; [apply (Hext w0 []); now rewrite app_nil_r|]. auto. }
  destruct (String.eqb (key e) "Enter" && (0 <=? currentIndexOf (state w) its)).
  { destruct (at_index its (currentIndexOf (state w) its)) as [currentItem|].
    - destruct (selectCommand_trace commands (navId currentItem) None w0)
        as [rest Hr].
      destruct (selectCommand_keeps commands (navId currentItem) None w0)
        as (_ & Ha & Hi).
      split; [eapply Hext; exact Hr|]. rewrite Ha, Hi. auto.
    - split; [apply (Hext w0 []); now rewrite app_nil_r|]. auto. }
  set (n := calculateNextIndex _ _ _ _).
  destruct ((n =? currentIndexOf (state w) its) || (n <? 0)
            || (Z.of_nat (length its) <=? n)).
  { split; [apply (Hext w0 []); now rewrite app_nil_r|]. auto. }
  destruct (at_index its n) as [targetItem|] eqn:En.
  - rewrite setState_trace, setState_state.
    split; [apply (Hext w0 []); now rewrite app_nil_r|].
    split; [reflexivity|]. right. exists targetItem.
    split; [eapply at_index_In; exact En|reflexivity].
  - split; [apply (Hext w0 []); now rewrite app_nil_r|]. auto.
Qed.

(* ===================================================================== *)
(** * More on the ranking *)
(* ===================================================================== *)

Lemma last_In {A} (l : list A) (x : A) : last l = Some x -> In x l.
Proof.
  induction l as [|y r IH]; [discriminate|]. rewrite last_cons.
  destruct (last r) as [z|]; intros H; inversion H; subst.
  - right. now apply IH.
  - now left.
Qed.

Lemma itemObjects_lookup (items : list Command) (obj : ItemObject) :
  In obj (itemObjects items) -> items !! fst obj = Some (snd obj).
Proof.
  unfold itemObjects. intros H. apply list_elem_of_In in H.
  apply elem_of_lookup_imap in H as (i & it & -> & Hit). exact Hit.
Qed.

Lemma stringToItemMap_values (items : list Command) (s : string)
    (obj : ItemObject) :
  stringToItemMap items !! s = Some obj -> items !! fst obj = Some (snd obj).
Proof.
  unfold stringToItemMap. rewrite fillMap_lookup, lookup_empty.
  destruct (last _) as [o|] eqn:E; [|discriminate].
  intros H. inversion H; subst. apply last_In in E.
  apply filter_In in E as [E _]. now apply itemObjects_lookup.
Qed.

Lemma lookup_In {A} (l : list A) (i : nat) (x : A) : l !! i = Some x -> In x l.
Proof.
  intros H. apply list_elem_of_In. eapply list_elem_of_lookup_2. exact H.
Qed.

(** The loop of [searchWithFuse] keeps one entry for an item. *)
Lemma collectResults_distinct (m : gmap string ItemObject)
    (results : list FuseResult) : forall matched acc,
  List.NoDup (map (fun s => fst (item s)) acc) ->
  (forall s, In s acc -> fst (item s) ∈ matched) ->
  List.NoDup (map (fun s => fst (item s)) (collectResults m results matched acc)).
Proof.
  induction results as [|r rest IH]; intros matched acc Hnd Hsub;
    cbn [collectResults]; [exact Hnd|].
  destruct (fuseScore r) as [sc|]; [|now apply IH].
  destruct (m !! fuseItem r) as [obj|]; [|now apply IH].
  destruct (decide (fst obj ∈ matched)) as [Hin|Hnin]; [now apply IH|].
  apply IH.
  - rewrite map_app. cbn [map item].
    apply List.NoDup_app; [exact Hnd|repeat constructor; intros []|].
    intros x Hx [<-|[]]. apply in_map_iff in Hx as [s [Hs Hin]].
    apply Hnin. rewrite <- Hs. now apply Hsub.
  - intros s Hs. apply in_app_or in Hs as [Hs|[<-|[]]].
    + apply elem_of_union. right. now apply Hsub.
    + apply elem_of_union. left. now apply elem_of_singleton.
Qed.

Lemma map_take {A B} (f : A -> B) (n : nat) (l : list A) :
  map f (take n l) = take n (map f l).
Proof.
  revert n. induction l as [|x r IH]; intros [|n]; cbn; [reflexivity..|].
  now rewrite IH.
Qed.

Lemma searchWithFuse_In fuseSearch items query maxResults found it :
  searchWithFuse (Some fuseSearch) items query maxResults = Returned found ->
  In it found -> In it items.
Proof.
  unfold searchWithFuse, slice0. intros H Hit. inversion H; subst. clear H.
  apply in_map_iff in Hit as [s [<- Hs]]. apply In_take in Hs.
  apply (Permutation_in s (sortJs_perm _)) in Hs.
  apply collectResults_from_map in Hs as [[]|[r [_ [_ Hm]]]].
  apply stringToItemMap_values in Hm. eapply lookup_In. exact Hm.
Qed.

Lemma searchWithCommandScore_In commandScore items query maxResults it :
  In it (searchWithCommandScore commandScore items query maxResults) ->
  In it items.
Proof.
  unfold searchWithCommandScore, slice0. intros H.
  apply in_map_iff in H as [s [<- Hs]]. apply In_take in Hs.
  apply (Permutation_in s (sortJs_perm _)) in Hs.
  apply filter_In in Hs as [Hs _]. apply in_map_iff in Hs as [x [<- Hx]].
  exact Hx.
Qed.

Lemma searchItems_In commandScore fuseModule items query algorithm maxResults it :
  In it (searchItems commandScore fuseModule items query algorithm maxResults) ->
  In it items.
Proof.
  unfold searchItems. destruct (truthyString query); cbn [negb].
  2:{ unfold slice0. apply In_take. }
  destruct algorithm; [apply searchWithCommandScore_In|].
  destruct (searchWithFuse fuseModule items query maxResults) as [found|msg]
    eqn:E; [|apply searchWithCommandScore_In].
  destruct fuseModule as [fuseSearch|]; [|discriminate E].
  now apply (searchWithFuse_In fuseSearch items query maxResults).
Qed.

(** X12.  With Fuse.js loaded, whatever its search returns: no item object
    is returned twice, every returned item is the input item at the
    position that stands for it, and with a count [maxResults] there are at
    most [maxResults] of them. *)
Theorem searchWithFuse_distinct_items
    (fuseSearch : list string -> string -> list FuseResult)
    (items : list Command) (query : string) (maxResults : Z) :
  exists objs : list ItemObject,
    searchWithFuse (Some fuseSearch) items query maxResults
    = Returned (map snd objs)
    /\ List.NoDup (map fst objs)
    /\ Forall (fun obj => items !! fst obj = Some (snd obj)) objs
    /\ (0 <= maxResults -> Z.of_nat (length objs) <= maxResults).
Proof.
  unfold searchWithFuse.
  set (m := stringToItemMap items).
  set (collected := collectResults m _ ∅ []).
  exists (map item (slice0 (sortJs byScoreDesc collected) maxResults)).
  split; [now rewrite map_map|].
  assert (forall s, In s (slice0 (sortJs byScoreDesc collected) maxResults) ->
                    In s collected) as Hsub.
  { intros s Hs. unfold slice0 in Hs. apply In_take in Hs.
    now apply (Permutation_in s (sortJs_perm collected)) in Hs. }
  split; [|split].
  - rewrite map_map. unfold slice0. rewrite map_take.
    apply NoDup_take_keep.
    eapply Permutation_NoDup.
    + apply Permutation_map. symmetry. apply sortJs_perm.
    + apply collectResults_distinct; [constructor|intros s []].
  - apply List.Forall_forall. intros obj Hobj.
    apply in_map_iff in Hobj as [s [<- Hs]]. apply Hsub in Hs.
    apply collectResults_from_map in Hs as [[]|[r [_ [_ Hm]]]].
    now apply stringToItemMap_values in Hm.
  - intros Hmax. rewrite length_map. now apply slice0_length.
Qed.

Lemma map_item_scored (p : Q -> bool) (commandScore : string -> string -> Q)
    (query : string) (l : list Command) :
  map item (List.filter (fun s => p (score s))
              (map (scoreItem commandScore query) l))
  = List.filter (fun it => p (scoreOf commandScore query it)) l.
Proof.
  unfold scoreOf. induction l as [|x r IH]; [reflexivity|].
  cbn [map List.filter].
  destruct (p (score (scoreItem commandScore query x))); cbn [map];
    now rewrite IH.
Qed.

Lemma take_all_of {A} (l : list A) (n : Z) :
  Z.of_nat (length l) <= n -> slice0 l n = l.
Proof.
  intros H. rewrite slice0_take by lia. apply firstn_all2. lia.
Qed.

Lemma kept_length commandScore query (items : list Command) :
  (length (List.filter (fun s => Qle_bool MIN_SCORE (score s))
             (map (scoreItem commandScore query) items))
   <= length items)%nat.
Proof.
  etransitivity; [apply List.filter_length_le|]. now rewrite length_map.
Qed.

(** X13.  The contract of [searchItems] for either algorithm, whether
    Fuse.js is loaded or not and whatever it returns: every item returned
    is one of the input items, and with a count [maxResults] there are at
    most [maxResults] of them.  While Fuse.js is not loaded the fuzzy
    algorithm gives what the lexical one gives. *)
Theorem searchItems_contract
    (commandScore : string -> string -> Q)
    (fuseModule : option (list string -> string -> list FuseResult))
    (items : list Command) (query : string) (algorithm : SearchAlgorithm)
    (maxResults : Z) :
  0 <= maxResults ->
  let found := searchItems commandScore fuseModule items query algorithm
                 maxResults in
  Forall (fun it => In it items) found
  /\ Z.of_nat (length found) <= maxResults
  /\ (fuseModule = None ->
      found = searchItems commandScore None items query commandscore maxResults).
Proof.
  intros Hmax found. split; [|split].
  - apply List.Forall_forall. intros it. apply searchItems_In.
  - subst found. unfold searchItems.
    destruct (truthyString query); cbn [negb]; [|now apply slice0_length].
    assert (Z.of_nat (length (searchWithCommandScore commandScore items query
                                maxResults)) <= maxResults) as Hlex.
    { unfold searchWithCommandScore. rewrite length_map.
      now apply slice0_length. }
    destruct algorithm; [exact Hlex|].
    destruct fuseModule as [fuseSearch|]; [|exact Hlex].
    cbn [searchWithFuse]. rewrite length_map. now apply slice0_length.
  - intros ->. subst found. unfold searchItems.
    destruct (truthyString query); cbn [negb]; [|reflexivity].
    now destruct algorithm.
Qed.

(** X14.  When [maxResults] is at least the number of items, the lexical
    algorithm drops nothing but the items that score below 0.1: its result
    is a rearrangement of the items whose score is at least 0.1. *)
Theorem searchWithCommandScore_complete
    (commandScore : string -> string -> Q) (items : list Command)
    (query : string) (maxResults : Z) :
  Z.of_nat (length items) <= maxResults ->
  Permutation (searchWithCommandScore commandScore items query maxResults)
    (List.filter (fun it => Qle_bool MIN_SCORE (scoreOf commandScore query it))
       items).
Proof.
  intros Hlen. unfold searchWithCommandScore.
  set (kept := List.filter _ (map (scoreItem commandScore query) items)).
  rewrite take_all_of.
  2:{ rewrite (Permutation_length (sortJs_perm kept)).
      pose proof (kept_length commandScore query items). fold kept in H. lia. }
  rewrite <- (map_item_scored (fun v => Qle_bool MIN_SCORE v)). fold kept.
  apply Permutation_map, sortJs_perm.
Qed.

(** X15.  The category view.  For the id of a category, [PortalRenderer]
    lists, under the category's name, all its children in their order when
    the query is empty; for a non-empty query ranked by the lexical
    algorithm (also when the fuzzy one is chosen and Fuse.js is not
    loaded) it lists the children whose score is at least 0.1, all of them:
    the list is never cut.  For an id that no node has it gives nothing. *)
Theorem PortalRenderer_category
    (commandScore : string -> string -> Q)
    (fuseModule : option (list string -> string -> list FuseResult))
    (commands : list Command) (viewId query : string)
    (library : option SearchAlgorithm) (b : BaseCommand)
    (children : list Command) :
  findNavigableById viewId commands = Some (CategoryCommand b children) ->
  exists shown,
    PortalRenderer commandScore fuseModule commands viewId query library
    = CategoryData (name b) (map toItemData shown)
    /\ Forall (fun it => In it children) shown
    /\ (query = "" -> shown = children)
    /\ (query <> "" ->
        library <> Some fuse \/ fuseModule = None ->
        Permutation shown
          (List.filter
             (fun it => Qle_bool MIN_SCORE (scoreOf commandScore query it))
             children)).
Proof.
  intros Hfind. unfold PortalRenderer. rewrite Hfind.
  exists (filteredChildren commandScore fuseModule children query library).
  split; [reflexivity|]. unfold filteredChildren.
  destruct (truthyString query) eqn:Eq.
  - assert (query <> "") as Hne by (intros ->; discriminate Eq).
    split; [|split; [contradiction|]].
    + apply List.Forall_forall. intros it. apply searchItems_In.
    + intros _ Hlex. unfold searchItems. rewrite Eq. cbn [negb].
      assert (forall n, Z.of_nat (length children) <= n ->
                Permutation
                  (searchWithCommandScore commandScore children query n)
                  (List.filter
                     (fun it => Qle_bool MIN_SCORE (scoreOf commandScore query it))
                     children)) as Hall.
      { intros n Hn. unfold searchWithCommandScore.
        set (kept := List.filter _ (map (scoreItem commandScore query) children)).
        rewrite take_all_of.
        2:{ rewrite (Permutation_length (sortJs_perm kept)).
            pose proof (kept_length commandScore query children). fold kept in H.
            lia. }
        rewrite <- (map_item_scored (fun v => Qle_bool MIN_SCORE v)). fold kept.
        apply Permutation_map, sortJs_perm. }
      destruct Hlex as [Hl| ->].
      * destruct library as [[|]|]; [|contradiction|]; cbn; apply Hall; lia.
      * destruct (default commandscore library); cbn; apply Hall; lia.
  - assert (query = "") as ->.
    { unfold truthyString in Eq. destruct (String.eqb_spec query "");
        [assumption|discriminate]. }
    split; [apply List.Forall_forall; auto|]. split; [reflexivity|].
    intros H. contradiction.
Qed.

(* ===================================================================== *)
(** * The search hook: its cache and its id map *)
(* ===================================================================== *)

Lemma cacheGet_set_same key v cache : cacheGet key (cacheSet key v cache) = Some v.
Proof.
  induction cache as [|[k v'] rest IH]; cbn [cacheSet cacheGet].
  - now rewrite String.eqb_refl.
  - destruct (String.eqb k key) eqn:E; cbn [cacheGet]; rewrite ?E;
      [now rewrite String.eqb_refl|exact IH].
Qed.

Lemma cacheGet_set_other key key' v cache :
  key' <> key -> cacheGet key' (cacheSet key v cache) = cacheGet key' cache.
Proof.
  intros Hne. induction cache as [|[k v'] rest IH]; cbn [cacheSet cacheGet].
  - destruct (String.eqb_spec key key'); [congruence|reflexivity].
  - destruct (String.eqb_spec k key) as [->|Hk]; cbn [cacheGet].
    + destruct (String.eqb_spec key key'); [congruence|reflexivity].
    + now rewrite IH.
Qed.

Lemma cacheSet_length key v cache :
  (length (cacheSet key v cache) <= S (length cache))%nat.
Proof.
  induction cache as [|[k v'] rest IH]; cbn [cacheSet length]; [lia|].
  destruct (String.eqb k key); cbn [length]; lia.
Qed.

Lemma cacheSet_keys key v cache :
  truthyString key = true ->
  Forall (fun entry => truthyString (fst entry) = true) cache ->
  Forall (fun entry => truthyString (fst entry) = true) (cacheSet key v cache).
Proof.
  intros Hk. induction 1 as [|[k v'] rest Hx Hrest IH]; cbn [cacheSet].
  - now repeat constructor.
  - destruct (String.eqb k key); constructor; assumption.
Qed.

Lemma cacheGet_delete key cache : cacheGet key (cacheDelete key cache) = None.
Proof.
  unfold cacheDelete. induction cache as [|[k v] rest IH]; [reflexivity|].
  cbn [List.filter fst]. destruct (String.eqb k key) eqn:E; cbn [negb];
    [exact IH|]. cbn [cacheGet]. now rewrite E.
Qed.

Lemma cacheKeyOf_truthy numberToString q algorithm maxResults :
  truthyString q = true ->
  truthyString (cacheKeyOf numberToString q algorithm maxResults) = true.
Proof. unfold cacheKeyOf. destruct q; [discriminate|reflexivity]. Qed.

(** X16.  The result cache of the search hook stays small: a cache with
    at most 51 entries, none under the empty key, has at most 51 entries
    after any computation of [filteredCommands]; and when a new result is
    stored in a cache of 51 entries, the entry that was stored first is
    the one that goes. *)
Theorem filteredCommands_cache_bounded
    (commandScore : string -> string -> Q)
    (fuseModule : option (list string -> string -> list FuseResult))
    (numberToString : Z -> string)
    (flattenedItems : list Command) (q : string)
    (algorithm : SearchAlgorithm) (maxResults : Z) (cache : SearchCache) :
  cacheBounded cache ->
  let after := snd (filteredCommands commandScore fuseModule numberToString
                      flattenedItems q algorithm maxResults cache) in
  cacheBounded after
  /\ (forall oldest v rest,
        cache = (oldest, v) :: rest -> length cache = 51%nat ->
        after <> cache ->
        cacheGet oldest after = None).
Proof.
  intros [Hlen Hkeys] after. subst after. unfold filteredCommands.
  destruct (truthyString q) eqn:Eq; cbn [negb snd].
  2:{ split; [now split|]. intros oldest v rest _ _ H. now contradiction H. }
  set (key := cacheKeyOf numberToString q algorithm maxResults).
  assert (truthyString key = true) as Hkey by now apply cacheKeyOf_truthy.
  destruct (cacheGet key cache) as [cached|] eqn:Eget; cbn [snd].
  { split; [now split|]. intros oldest v rest _ _ H. now contradiction H. }
  set (results := searchItems _ _ _ _ _ _).
  destruct (Z.ltb_spec 50 (Z.of_nat (length cache))) as [Hfull|Hroom].
  - destruct cache as [|[firstKey v0] rest]; [cbn in Hfull; lia|].
    apply Forall_cons in Hkeys as [Hfirst Hrest]. cbn [fst] in Hfirst.
    rewrite Hfirst.
    assert (firstKey <> key) as Hne.
    { intros ->. cbn [cacheGet] in Eget. rewrite String.eqb_refl in Eget.
      discriminate. }
    assert (length (cacheDelete firstKey ((firstKey, v0) :: rest)) <= 50)%nat
      as Hdel.
    { unfold cacheDelete. cbn [List.filter fst]. rewrite String.eqb_refl.
      cbn [negb]. etransitivity; [apply List.filter_length_le|].
      cbn [length] in Hlen. lia. }
    split; [split|].
    + etransitivity; [apply cacheSet_length|]. lia.
    + apply cacheSet_keys; [exact Hkey|].
      unfold cacheDelete. apply List.Forall_forall. intros entry Hin.
      apply filter_In in Hin as [Hin _].
      assert (Forall (fun entry => truthyString (fst entry) = true)
                ((firstKey, v0) :: rest)) as Hall by now constructor.
      rewrite List.Forall_forall in Hall. now apply Hall.
    + intros oldest v rest' Hc _ _. inversion Hc; subst.
      rewrite cacheGet_set_other by assumption. apply cacheGet_delete.
  - split; [split|].
    + etransitivity; [apply cacheSet_length|]. lia.
    + now apply cacheSet_keys.
    + intros oldest v rest Hc H51 _. rewrite H51 in Hroom. lia.
Qed.

(** X17.  A result is looked up by query, algorithm and [maxResults]
    only: once [filteredCommands] has answered a non-empty query, the same
    query with the same algorithm and [maxResults] gets the same list and
    leaves the cache as it is, also when the list of items is another
    one by then. *)
Theorem filteredCommands_hit_ignores_items
    (commandScore : string -> string -> Q)
    (fuseModule : option (list string -> string -> list FuseResult))
    (numberToString : Z -> string)
    (flattenedItems otherItems : list Command) (q : string)
    (algorithm : SearchAlgorithm) (maxResults : Z) (cache : SearchCache) :
  truthyString q = true ->
  let first := filteredCommands commandScore fuseModule numberToString
                 flattenedItems q algorithm maxResults cache in
  filteredCommands commandScore fuseModule numberToString otherItems q
    algorithm maxResults (snd first)
  = first.
Proof.
  intros Hq first. subst first. unfold filteredCommands. rewrite Hq.
  cbn [negb].
  set (key := cacheKeyOf numberToString q algorithm maxResults).
  destruct (cacheGet key cache) as [cached|] eqn:Eget; cbn [snd].
  - now rewrite Eget.
  - now rewrite cacheGet_set_same.
Qed.

Lemma flattenItemInto_category b ch result :
  flattenItemInto (CategoryCommand b ch) result
  = flattenInto ch (<[id b := CategoryCommand b ch]> result).
Proof.
  cbn [flattenItemInto baseOf]. generalize (<[id b := CategoryCommand b ch]> result).
  generalize (CategoryCommand b ch). intros _.
  induction ch as [|x r IH]; intros m; [reflexivity|].
  cbn [flattenInto]. apply IH.
Qed.

Lemma flattenItemInto_preorder c : forall result,
  flattenItemInto c result
  = fold_left (fun m x => <[id (baseOf x) := x]> m) (preorder c) result.
Proof.
  induction c as [b p e|b p s|b ch IH] using Command_forest_ind;
    intros result; try reflexivity.
  rewrite flattenItemInto_category, preorder_category. cbn [fold_left baseOf].
  generalize (<[id b := CategoryCommand b ch]> result).
  induction IH as [|x r Hx _ IHr]; intros m; [reflexivity|].
  cbn [flattenInto preorderForest]. rewrite fold_left_app, <- Hx. apply IHr.
Qed.

Lemma flattenInto_preorder T : forall result,
  flattenInto T result
  = fold_left (fun m x => <[id (baseOf x) := x]> m) (preorderForest T) result.
Proof.
  induction T as [|x r IH]; intros result; [reflexivity|].
  cbn [flattenInto preorderForest].
  now rewrite fold_left_app, <- flattenItemInto_preorder.
Qed.

Lemma fold_insert_lookup (l : list Command) (m : gmap string Command)
    (i : string) :
  fold_left (fun m x => <[id (baseOf x) := x]> m) l m !! i
  = match last (List.filter (fun c => String.eqb (id (baseOf c)) i) l) with
    | Some c => Some c
    | None => m !! i
    end.
Proof.
  revert m. induction l as [|x r IH]; intros m; [reflexivity|].
  cbn [fold_left List.filter]. rewrite IH.
  destruct (String.eqb_spec (id (baseOf x)) i) as [E|E].
  - rewrite last_cons. destruct (last _); [reflexivity|].
    rewrite <- E. apply lookup_insert_eq.
  - destruct (last _); [reflexivity|]. now apply lookup_insert_ne.
Qed.

Lemma last_filter_unique (l : list Command) (i : string) :
  List.NoDup (map (fun c => id (baseOf c)) l) ->
  last (List.filter (fun c => String.eqb (id (baseOf c)) i) l)
  = List.find (fun c => String.eqb (id (baseOf c)) i) l.
Proof.
  induction l as [|x r IH]; intros Hnd; [reflexivity|].
  cbn [map] in Hnd. apply NoDup_cons_iff in Hnd as [Hx Hr].
  cbn [List.filter List.find].
  destruct (String.eqb_spec (id (baseOf x)) i) as [E|E]; [|now apply IH].
  rewrite last_cons.
  assert (List.filter (fun c => String.eqb (id (baseOf c)) i) r = []) as ->.
  { destruct (List.filter _ r) as [|y t] eqn:Ef; [reflexivity|exfalso].
    assert (In y (List.filter (fun c => String.eqb (id (baseOf c)) i) r))
      as Hy by (rewrite Ef; now left).
    apply filter_In in Hy as [Hy Hid]. apply String.eqb_eq in Hid.
    apply Hx. rewrite E, <- Hid.
    now apply (in_map (fun c => id (baseOf c))). }
  reflexivity.
Qed.

(** X18.  The id map of the search hook holds, for an id, the last node in
    pre-order that has it.  It has an entry for an id exactly when the
    direct search finds a node, and in a tree whose ids are all different
    its entry is the node [findNavigableById] returns. *)
Theorem flattenedCommands_lookup (T : list Command) (i : string) :
  flattenedCommands T !! i
  = last (List.filter (fun c => String.eqb (id (baseOf c)) i)
            (preorderForest T))
  /\ (flattenedCommands T !! i = None <-> findNavigableById i T = None)
  /\ (List.NoDup (treeIds T) ->
      flattenedCommands T !! i = findNavigableById i T).
Proof.
  assert (flattenedCommands T !! i
          = last (List.filter (fun c => String.eqb (id (baseOf c)) i)
                    (preorderForest T))) as Hlast.
  { unfold flattenedCommands. rewrite flattenInto_preorder, fold_insert_lookup.
    rewrite lookup_empty. now destruct (last _). }
  split; [exact Hlast|]. split.
  - rewrite Hlast, <- firstWithId_preorderForest. unfold firstWithId.
    set (p := fun c => String.eqb (id (baseOf c)) i).
    split; intros H.
    + destruct (List.find p (preorderForest T)) as [c|] eqn:E; [|reflexivity].
      apply find_some in E as [Hin Hp].
      assert (In c (List.filter p (preorderForest T))) as Hc
        by (apply filter_In; auto).
      destruct (List.filter p (preorderForest T)) as [|y t]; [destruct Hc|].
      rewrite last_cons in H. destruct (last t); discriminate.
    + destruct (last (List.filter p (preorderForest T))) as [c|] eqn:E;
        [|reflexivity].
      apply last_In, filter_In in E as [Hin Hp].
      now rewrite (find_none _ _ H c Hin) in Hp.
  - intros Hnd. rewrite Hlast, <- firstWithId_preorderForest.
    now apply last_filter_unique.
Qed.

(** X19.  In a tree whose ids are all different, [recentCommandObjects]
    has one entry for each recent id, in the order of the ids: the node
    the direct search finds, or [undefined] for an id that no node has.
    The test [cmd !== null] drops nothing. *)
Theorem recentCommandObjects_keeps_stale_ids
    (T : list Command) (recent : list string) :
  List.NoDup (treeIds T) ->
  recentCommandObjects recent (flattenedCommands T)
  = map (fun i => findNavigableById i T) recent
  /\ length (recentCommandObjects recent (flattenedCommands T)) = length recent
  /\ (forall n i, recent !! n = Some i -> idAbsent i T ->
        recentCommandObjects recent (flattenedCommands T) !! n = Some None).
Proof.
  intros Hnd.
  assert (recentCommandObjects recent (flattenedCommands T)
          = map (fun i => findNavigableById i T) recent) as Heq.
  { unfold recentCommandObjects. destruct recent as [|i r]; [reflexivity|].
    change (Z.of_nat (length (i :: r)) =? 0) with false. cbv iota.
    rewrite filter_all_kept by reflexivity.
    apply map_ext. intros j.
    unfold flattenedCommands. rewrite flattenInto_preorder, fold_insert_lookup.
    rewrite lookup_empty, (last_filter_unique _ _ Hnd).
    rewrite <- firstWithId_preorderForest. unfold firstWithId.
    now destruct (List.find _ _). }
  split; [exact Heq|]. split.
  - now rewrite Heq, length_map.
  - intros n i Hn Habs. rewrite Heq, list_lookup_fmap, Hn. cbn.
    now rewrite (findNavigableById_absent _ _ Habs).
Qed.

(* ===================================================================== *)
(** * lib/utils.ts, the range extractor and the loader of Fuse.js *)
(* ===================================================================== *)

Lemma shallowEqualLoop_drop (a b : list string) : forall n i,
  (i + n = length a)%nat -> length a = length b ->
  (shallowEqualLoop a b i n = true <-> drop i a = drop i b).
Proof.
  induction n as [|n IH]; intros i Hi Hlen; cbn [shallowEqualLoop].
  - rewrite !drop_ge by lia. tauto.
  - destruct (a !! i) as [x|] eqn:Ea.
    2:{ apply lookup_ge_None in Ea. lia. }
    destruct (b !! i) as [y|] eqn:Eb.
    2:{ apply lookup_ge_None in Eb. lia. }
    rewrite (drop_S a x i Ea), (drop_S b y i Eb).
    destruct (String.eqb_spec x y) as [->|Hne]; cbn [negb].
    + rewrite (IH (S i)) by lia. split; [now intros ->|].
      intros H. now inversion H.
    + split; [discriminate|]. intros H. inversion H. contradiction.
Qed.

(** X20.  [shallowEqualArrays] decides equality of two arrays of strings:
    it answers true exactly when they have the same strings in the same
    order. *)
Theorem shallowEqualArrays_iff (a b : list string) :
  shallowEqualArrays a b = true <-> a = b.
Proof.
  unfold shallowEqualArrays.
  destruct (Nat.eqb_spec (length a) (length b)) as [Hlen|Hlen]; cbn [negb].
  - rewrite (shallowEqualLoop_drop a b (length a) 0) by lia. reflexivity.
  - split; [discriminate|]. intros ->. contradiction.
Qed.

Lemma countUp_In (i : Z) (n : nat) (x : Z) :
  In x (countUp i n) <-> i <= x < i + Z.of_nat n.
Proof.
  revert i. induction n as [|n IH]; intros i; cbn [countUp In].
  - lia.
  - rewrite IH. lia.
Qed.

Lemma setOf_In (xs seen : list Z) (x : Z) :
  In x (setOf xs seen) <-> In x xs /\ ~ In x seen.
Proof.
  revert seen. induction xs as [|y r IH]; intros seen; cbn [setOf In].
  - tauto.
  - destruct (existsb (Z.eqb y) seen) eqn:E.
    + apply existsb_exists in E as [z [Hz Hyz]]. apply Z.eqb_eq in Hyz.
      subst z. rewrite IH. split; [tauto|].
      intros [[->|H] Hn]; [contradiction|tauto].
    + assert (~ In y seen) as Hy.
      { intros H. assert (existsb (Z.eqb y) seen = true) as Ht.
        { apply existsb_exists. exists y. split; [exact H|apply Z.eqb_refl]. }
        congruence. }
      cbn [In]. rewrite IH. cbn [In]. split.
      * intros [->|[H Hn]]; [tauto|]. split; [tauto|]. tauto.
      * intros [[->|H] Hn]; [tauto|].
        destruct (Z.eq_dec y x) as [->|Hne]; [tauto|]. right. tauto.
Qed.

Lemma setOf_NoDup (xs seen : list Z) : List.NoDup (setOf xs seen).
Proof.
  revert seen. induction xs as [|y r IH]; intros seen; cbn [setOf].
  - constructor.
  - destruct (existsb (Z.eqb y) seen); [apply IH|].
    constructor; [|apply IH]. rewrite setOf_In. cbn [In]. tauto.
Qed.

Lemma insertSorted_ascending_perm (x : Z) (l : list Z) :
  Permutation (insertSorted ascending x l) (x :: l).
Proof.
  induction l as [|y r IH]; [reflexivity|]. cbn [insertSorted].
  destruct (Qle_bool (ascending x y) 0); [reflexivity|].
  rewrite IH. apply perm_swap.
Qed.

Lemma sortJs_ascending_perm (l : list Z) : Permutation (sortJs ascending l) l.
Proof.
  induction l as [|x r IH]; [reflexivity|]. cbn [sortJs].
  rewrite insertSorted_ascending_perm. now constructor.
Qed.

Lemma ascending_le (x y : Z) : Qle_bool (ascending x y) 0 = true <-> x <= y.
Proof.
  rewrite Qle_bool_iff. unfold ascending.
  change 0%Q with (inject_Z 0). rewrite <- Zle_Qle. lia.
Qed.

Lemma insertSorted_ascending_sorted (x : Z) (l : list Z) :
  StronglySorted Z.le l -> StronglySorted Z.le (insertSorted ascending x l).
Proof.
  induction 1 as [|y r Hr IH Hy]; cbn [insertSorted].
  - repeat constructor.
  - destruct (Qle_bool (ascending x y) 0) eqn:E.
    + apply ascending_le in E. constructor; [now constructor|].
      constructor; [exact E|]. eapply Forall_impl; [exact Hy|].
      cbn. intros z Hz. lia.
    + assert (y < x) as Hlt.
      { destruct (Z.lt_ge_cases y x) as [H|H]; [exact H|].
        apply ascending_le in H. congruence. }
      constructor; [exact IH|].
      rewrite (insertSorted_ascending_perm x r). constructor; [lia|exact Hy].
Qed.

Lemma sortJs_ascending_sorted (l : list Z) :
  StronglySorted Z.le (sortJs ascending l).
Proof.
  induction l as [|x r IH]; cbn [sortJs]; [constructor|].
  now apply insertSorted_ascending_sorted.
Qed.

Lemma sorted_distinct_strict (l : list Z) :
  StronglySorted Z.le l -> List.NoDup l -> StronglySorted Z.lt l.
Proof.
  induction 1 as [|x r Hr IH Hx]; intros Hnd; [constructor|].
  apply NoDup_cons_iff in Hnd as [Hnin Hnd]. constructor; [now apply IH|].
  rewrite List.Forall_forall in *. intros y Hy.
  specialize (Hx y Hy). assert (x <> y) by (intros ->; contradiction). lia.
Qed.

(** X21.  The range extractor of the virtual list returns the pinned
    indices together with the indices from [startIndex] to [endIndex],
    each once, in strictly ascending order. *)
Theorem rangeExtractor_sorted_union
    (pinnedIndices : list Z) (startIndex endIndex : Z) :
  let extracted := rangeExtractor pinnedIndices startIndex endIndex in
  StronglySorted Z.lt extracted
  /\ forall i, In i extracted
               <-> In i pinnedIndices \/ startIndex <= i <= endIndex.
Proof.
  intros extracted. subst extracted. unfold rangeExtractor.
  set (merged := pinnedIndices ++ visibleIndices startIndex endIndex).
  split.
  - apply sorted_distinct_strict; [apply sortJs_ascending_sorted|].
    eapply Permutation_NoDup;
      [symmetry; apply sortJs_ascending_perm|apply setOf_NoDup].
  - intros i. split.
    + intros H. apply (Permutation_in i (sortJs_ascending_perm _)) in H.
      apply setOf_In in H as [H _]. subst merged.
      apply in_app_or in H as [H|H]; [now left|right].
      unfold visibleIndices in H. apply countUp_In in H. lia.
    + intros H.
      apply (Permutation_in i (Permutation_sym (sortJs_ascending_perm _))).
      apply setOf_In. split; [|intros []]. subst merged. apply in_or_app.
      destruct H as [H|H]; [now left|right].
      unfold visibleIndices. apply countUp_In. lia.
Qed.

Lemma loaderStep_failed (s : FuseLoader) (step : LoaderStep) :
  loadedModule s = None -> fuseLoadingPromise s = Some Rejected ->
  loaderStep s step = s.
Proof.
  intros Hm Hp. destruct step; cbn [loaderStep];
    unfold loadFuse, preloadFuse, importSettles; now rewrite ?Hm, ?Hp.
Qed.

Lemma loaderStep_loaded (s : FuseLoader) (step : LoaderStep) module :
  loadedModule s = Some module -> fuseLoadingPromise s <> Some Pending ->
  loadedModule (loaderStep s step) = Some module
  /\ fuseLoadingPromise (loaderStep s step) <> Some Pending.
Proof.
  intros Hm Hp. destruct step; cbn [loaderStep];
    unfold loadFuse, preloadFuse, importSettles; rewrite ?Hm; auto.
  destruct (fuseLoadingPromise s) as [[| |]|] eqn:E;
    try (split; [exact Hm|rewrite E; discriminate]).
  congruence.
Qed.

(** X22.  Loading Fuse.js is tried once.  After the import was rejected,
    no call of [loadFuse] or [preloadFuse] starts another one: the status
    stays ['loading'] for ever, the module stays unset, and a fuzzy search
    keeps getting the lexical result.  And once the module is loaded (no
    import pending) it stays the module, with status ['loaded']. *)
Theorem fuse_load_is_not_retried
    (s : FuseLoader) (steps : list LoaderStep)
    (commandScore : string -> string -> Q) (items : list Command)
    (query : string) (maxResults : Z) :
  let s' := fold_left loaderStep steps s in
  (loadedModule s = None -> fuseLoadingPromise s = Some Rejected ->
   s' = s
   /\ getFuseStatus s' = loading
   /\ searchItems commandScore (loadedModule s') items query fuse maxResults
      = searchItems commandScore (loadedModule s') items query commandscore
          maxResults)
  /\ (forall module,
        loadedModule s = Some module -> fuseLoadingPromise s <> Some Pending ->
        loadedModule s' = Some module /\ getFuseStatus s' = loaded).
Proof.
  intros s'. subst s'. split.
  - intros Hm Hp.
    assert (fold_left loaderStep steps s = s) as ->.
    { induction steps as [|step r IH]; [reflexivity|]. cbn [fold_left].
      now rewrite (loaderStep_failed s step Hm Hp). }
    split; [reflexivity|]. split.
    + unfold getFuseStatus. now rewrite Hm, Hp.
    + rewrite Hm. unfold searchItems. now destruct (negb (truthyString query)).
  - intros module. revert s.
    induction steps as [|step r IH]; intros s Hm Hp; cbn [fold_left].
    + split; [exact Hm|]. unfold getFuseStatus. now rewrite Hm.
    + destruct (loaderStep_loaded s step module Hm Hp) as [H1 H2].
      now apply IH.
Qed.

(* ===================================================================== *)
(** * The height estimator and its cache *)
(* ===================================================================== *)

Lemma entryGet_set_same key v cache : entryGet key (entrySet key v cache) = Some v.
Proof.
  induction cache as [|[k v'] rest IH]; cbn [entrySet entryGet].
  - now rewrite String.eqb_refl.
  - destruct (String.eqb k key) eqn:E; cbn [entryGet]; rewrite ?E;
      [now rewrite String.eqb_refl|exact IH].
Qed.

Lemma entrySet_length key v cache :
  (length (entrySet key v cache) <= S (length cache))%nat.
Proof.
  induction cache as [|[k v'] rest IH]; cbn [entrySet length]; [lia|].
  destruct (String.eqb k key); cbn [length]; lia.
Qed.

Lemma entrySet_length_new key v cache :
  entryGet key cache = None ->
  length (entrySet key v cache) = S (length cache).
Proof.
  induction cache as [|[k v'] rest IH]; cbn [entrySet entryGet length];
    [reflexivity|].
  destruct (String.eqb k key); [discriminate|]. intros H. cbn [length].
  now rewrite IH.
Qed.

Lemma entrySet_keys key v cache :
  truthyString key = true ->
  Forall (fun entry => truthyString (fst entry) = true) cache ->
  Forall (fun entry => truthyString (fst entry) = true) (entrySet key v cache).
Proof.
  intros Hk. induction 1 as [|[k v'] rest Hx Hrest IH]; cbn [entrySet].
  - now repeat constructor.
  - destruct (String.eqb k key); constructor; assumption.
Qed.

Lemma entryGet_delete key cache : entryGet key (entryDelete key cache) = None.
Proof.
  unfold entryDelete. induction cache as [|[k v] rest IH]; [reflexivity|].
  cbn [List.filter fst]. destruct (String.eqb k key) eqn:E; cbn [negb];
    [exact IH|]. cbn [entryGet]. now rewrite E.
Qed.

Lemma entryDelete_shrinks key cache :
  In key (map fst cache) ->
  (length (entryDelete key cache) < length cache)%nat.
Proof.
  unfold entryDelete. induction cache as [|[k v] rest IH]; [intros []|].
  cbn [map fst In List.filter length].
  destruct (String.eqb_spec k key) as [->|Hne]; cbn [negb].
  - intros _. pose proof (List.filter_length_le
                            (fun entry => negb (String.eqb (fst entry) key)) rest).
    lia.
  - intros [H|H]; [contradiction|]. cbn [length]. apply IH in H. lia.
Qed.

(** The loop of [evictOldest] keeps what it had when no entry is older,
    and otherwise ends on an entry that no other entry is older than. *)
Lemma findOldest_least (entries : HeightCache) : forall oldestKey oldestTime,
  (findOldest entries oldestKey oldestTime = oldestKey
   /\ Forall (fun entry => oldestTime <= lastAccessed (snd entry)) entries)
  \/ (exists key e,
        findOldest entries oldestKey oldestTime = Some key
        /\ In (key, e) entries
        /\ lastAccessed e < oldestTime
        /\ Forall (fun entry => lastAccessed e <= lastAccessed (snd entry))
             entries).
Proof.
  induction entries as [|[k1 e1] rest IH]; intros ok t; cbn [findOldest].
  - left. split; [reflexivity|constructor].
  - destruct (Z.ltb_spec (lastAccessed e1) t) as [Hlt|Hge].
    + right. destruct (IH (Some k1) (lastAccessed e1))
        as [[Hr Hall]|(k & e & Hr & Hin & Hlt' & Hall)].
      * exists k1, e1. repeat split; [exact Hr|now left|exact Hlt|].
        constructor; [cbn; lia|exact Hall].
      * exists k, e. repeat split; [exact Hr|now right|lia|].
        constructor; [cbn; lia|exact Hall].
    + destruct (IH ok t) as [[Hr Hall]|(k & e & Hr & Hin & Hlt' & Hall)].
      * left. split; [exact Hr|]. constructor; [exact Hge|exact Hall].
      * right. exists k, e. repeat split; [exact Hr|now right|exact Hlt'|].
        constructor; [cbn; lia|exact Hall].
Qed.

Lemma getCacheKey_truthy numberToString it index :
  truthyString (getCacheKey numberToString it index) = true.
Proof.
  unfold getCacheKey. destruct (truthyString (virtualId it)) eqn:E.
  - destruct (virtualId it); [discriminate|reflexivity].
  - reflexivity.
Qed.

Lemma header_name_includes s :
  String.eqb s "recent-commands-header" = true ->
  stringIncludes s "header" = true.
Proof. intros H. apply String.eqb_eq in H. now subst. Qed.

Lemma divider_name_includes s :
  String.eqb s "recent-commands-divider" = true ->
  stringIncludes s "divider" = true.
Proof. intros H. apply String.eqb_eq in H. now subst. Qed.

(** The height the rules give an item, by its id alone. *)
Lemma heightFor_analyze heights it :
  heightFor heights (analyzeItemContent it)
  = if stringIncludes (virtualId it) "header" then header heights
    else if stringIncludes (virtualId it) "divider" then divider heights
    else if String.prefix "recent-" (virtualId it) then compact heights
    else withDescription heights.
Proof.
  unfold analyzeItemContent.
  destruct (stringIncludes (virtualId it) "header") eqn:Eh.
  { rewrite orb_true_r. reflexivity. }
  destruct (String.eqb (virtualId it) "recent-commands-header") eqn:E1.
  { apply header_name_includes in E1. congruence. }
  cbn [orb].
  destruct (stringIncludes (virtualId it) "divider") eqn:Ed.
  { rewrite orb_true_r. reflexivity. }
  destruct (String.eqb (virtualId it) "recent-commands-divider") eqn:E2.
  { apply divider_name_includes in E2. congruence. }
  cbn [orb].
  now destruct (String.prefix "recent-" (virtualId it)).
Qed.

(** X23.  What [estimateHeight] gives an item that has no explicit height
    and no cached height: the header height when its id contains
    "header"; else the divider height when it contains "divider"; else
    the compact height when it starts with "recent-"; else the
    with-description height.  The configured default, large and
    long-description heights are never chosen. *)
Theorem estimateHeight_by_id
    (numberToString : Q -> string) (heights : HeightConfig)
    (it : VirtualItem) (index nowGet nowEvict nowSet : Z)
    (cache : HeightCache) :
  explicitHeight it = None ->
  entryGet (getCacheKey numberToString it index) cache = None ->
  let estimated :=
    fst (estimateHeight numberToString heights it index nowGet nowEvict
           nowSet cache) in
  estimated
  = (if stringIncludes (virtualId it) "header" then header heights
     else if stringIncludes (virtualId it) "divider" then divider heights
     else if String.prefix "recent-" (virtualId it) then compact heights
     else withDescription heights)
  /\ In estimated
       [header heights; divider heights; compact heights;
        withDescription heights].
Proof.
  intros Hexp Hmiss estimated. subst estimated.
  unfold estimateHeight, heightCacheGet. rewrite Hexp, Hmiss. cbn [fst].
  rewrite heightFor_analyze. split; [reflexivity|].
  destruct (stringIncludes (virtualId it) "header"); [now left|].
  destruct (stringIncludes (virtualId it) "divider"); [right; now left|].
  destruct (String.prefix "recent-" (virtualId it)); cbn; tauto.
Qed.

(** X24.  The cache is keyed by the item and its index and shared by all
    estimators: once an item without explicit height was estimated, the
    next estimate for it at the same index is the same number, also from
    an estimator configured with other heights. *)
Theorem estimateHeight_cache_is_shared
    (numberToString : Q -> string) (heights otherHeights : HeightConfig)
    (it : VirtualItem) (index : Z)
    (nowGet nowEvict nowSet nowGet' nowEvict' nowSet' : Z)
    (cache : HeightCache) :
  explicitHeight it = None ->
  let first := estimateHeight numberToString heights it index nowGet
                 nowEvict nowSet cache in
  fst (estimateHeight numberToString otherHeights it index nowGet' nowEvict'
         nowSet' (snd first))
  = fst first.
Proof.
  intros Hexp first. subst first. unfold estimateHeight, heightCacheGet.
  rewrite Hexp.
  set (key := getCacheKey numberToString it index).
  destruct (entryGet key cache) as [entry|] eqn:Eget; cbn [fst snd].
  - now rewrite entryGet_set_same.
  - unfold heightCacheSet. fold key. now rewrite entryGet_set_same.
Qed.

(** X25.  [HeightCache.set] keeps the cache within [maxSize] entries when
    there is room or some entry was accessed before the time the eviction
    reads; the entry it evicts is one that no other entry is older than.
    When the cache is full and every entry was accessed at that time or
    later, nothing is evicted and a new key makes it one entry larger than
    [maxSize]. *)
Theorem heightCacheSet_bound
    (numberToString : Q -> string) (it : VirtualItem) (index : Z)
    (height : Q) (nowEvict nowSet : Z) (cache : HeightCache) :
  heightCacheBounded cache ->
  let after := heightCacheSet numberToString it index height nowEvict nowSet
                 cache in
  (Z.of_nat (length cache) < maxSize
   \/ Exists (fun entry => lastAccessed (snd entry) < nowEvict) cache ->
   heightCacheBounded after)
  /\ (forall key,
        findOldest cache None nowEvict = Some key ->
        exists e,
          In (key, e) cache
          /\ Forall (fun entry => lastAccessed e <= lastAccessed (snd entry))
               cache
          /\ entryGet key (evictOldest nowEvict cache) = None)
  /\ (Z.of_nat (length cache) = maxSize ->
      Forall (fun entry => nowEvict <= lastAccessed (snd entry)) cache ->
      entryGet (getCacheKey numberToString it index) cache = None ->
      Z.of_nat (length after) = maxSize + 1).
Proof.
  intros [Hlen Hkeys] after. subst after. unfold heightCacheSet.
  set (key := getCacheKey numberToString it index).
  assert (truthyString key = true) as Hkey by apply getCacheKey_truthy.
  split; [|split].
  - intros Hroom.
    destruct (Z.leb_spec maxSize (Z.of_nat (length cache))) as [Hfull|Hfree].
    + destruct Hroom as [Hroom|Hold]; [lia|].
      unfold evictOldest.
      destruct (findOldest_least cache None nowEvict)
        as [[_ Hall]|(k & e & -> & Hin & _ & _)].
      { exfalso. apply List.Exists_exists in Hold as [entry [He Hlt]].
        rewrite List.Forall_forall in Hall. specialize (Hall entry He). lia. }
      assert (truthyString k = true) as Hk.
      { rewrite List.Forall_forall in Hkeys. apply (Hkeys (k, e) Hin). }
      rewrite Hk. split.
      * pose proof (entrySet_length key
                      {| entryHeight := height; entryKey := key;
                         lastAccessed := nowSet; accessCount := 0 |}
                      (entryDelete k cache)).
        pose proof (entryDelete_shrinks k cache
                      (in_map fst cache (k, e) Hin)).
        lia.
      * apply entrySet_keys; [exact Hkey|].
        unfold entryDelete. apply List.Forall_forall. intros entry He.
        apply filter_In in He as [He _].
        rewrite List.Forall_forall in Hkeys. now apply Hkeys.
    + split.
      * pose proof (entrySet_length key
                      {| entryHeight := height; entryKey := key;
                         lastAccessed := nowSet; accessCount := 0 |} cache).
        lia.
      * now apply entrySet_keys.
  - intros k Hfind.
    destruct (findOldest_least cache None nowEvict)
      as [[Hnone _]|(k' & e' & Hr & Hin' & _ & Hall)]; [congruence|].
    assert (k' = k) as -> by congruence.
    exists e'. split; [exact Hin'|]. split; [exact Hall|].
    unfold evictOldest. rewrite Hfind.
    assert (truthyString k = true) as ->.
    { rewrite List.Forall_forall in Hkeys. apply (Hkeys (k, e') Hin'). }
    apply entryGet_delete.
  - intros Hfull Hall Hmiss.
    destruct (Z.leb_spec maxSize (Z.of_nat (length cache))) as [_|Hfree];
      [|lia].
    unfold evictOldest.
    destruct (findOldest_least cache None nowEvict)
      as [[-> _]|(k & e & _ & Hin & Hlt & _)].
    + rewrite (entrySet_length_new _ _ _ Hmiss). lia.
    + exfalso. rewrite List.Forall_forall in Hall.
      specialize (Hall (k, e) Hin). cbn in Hall. lia.
Qed.

Lemma recent_row_includes (cid : string) :
  stringIncludes (String.append "recent-" cid) "header"
  = stringIncludes cid "header"
  /\ stringIncludes (String.append "recent-" cid) "divider"
     = stringIncludes cid "divider"
  /\ String.prefix "recent-" (String.append "recent-" cid) = true.
Proof. repeat split. now destruct cid. Qed.

(** X26.  The rows of the recent section, as the list turns them into
    virtual items: there are none when a query is typed or nothing is
    recent; otherwise there is the header row, one row for each recent
    command, and the divider row, and when no recent command has "header"
    or "divider" in its id the rules size them as header, compact rows
    and divider. *)
Theorem recent_section_heights
    (clockIcon : string) (heights : HeightConfig) (query : string)
    (recentObjects : list Command) :
  Forall (fun cmd => stringIncludes (id (baseOf cmd)) "header" = false
                     /\ stringIncludes (id (baseOf cmd)) "divider" = false)
    recentObjects ->
  let rows := commandVirtualItems
                (useRecentCommandsSection clockIcon query recentObjects) in
  if truthyString query || (Z.of_nat (length recentObjects) =? 0)
  then rows = []
  else
    length rows = (length recentObjects + 2)%nat
    /\ map (fun row => heightFor heights (analyzeItemContent row)) rows
       = header heights
         :: map (fun _ => compact heights) recentObjects
         ++ [divider heights].
Proof.
  intros Hids rows. subst rows. unfold useRecentCommandsSection.
  destruct (truthyString query || (Z.of_nat (length recentObjects) =? 0));
    [reflexivity|].
  unfold commandVirtualItems. cbn [map]. rewrite !map_app, !map_map.
  cbn [map itemId]. split.
  - cbn [length]. rewrite length_app, length_map. cbn [length]. lia.
  - f_equal. f_equal.
    apply map_ext_in. intros cmd Hin. rewrite heightFor_analyze.
    cbn [virtualId]. rewrite List.Forall_forall in Hids.
    destruct (Hids cmd Hin) as [Hh Hd].
    destruct (recent_row_includes (id (baseOf cmd))) as (-> & -> & ->).
    now rewrite Hh, Hd.
Qed.

(* ===================================================================== *)
(** * The further theorems at concrete inputs *)
(* ===================================================================== *)

Lemma notification_isolates_failures_witness :
  wellFormed crowdedWorld
  /\ microtasks crowdedWorld = []
  /\ trace (flushMicrotasks (setState [] crowdedWorld))
     = [Notified 0; Notified 1]%nat
  /\ map fst (subscribers (flushMicrotasks (setState [] crowdedWorld)))
     = [1%nat].
Proof.
  assert (wellFormed crowdedWorld) as Hw by (unfold wellFormed; cbn; lia).
  split; [exact Hw|]. split; [reflexivity|].
  destruct (notification_isolates_failures crowdedWorld [] Hw eq_refl)
    as (Ht & Hs & _).
  split; [exact Ht|]. rewrite Hs. reflexivity.
Defined.

Lemma subscribe_then_unsubscribe_witness :
  subscriptionsFresh watchedWorld
  /\ subscribers
       (unsubscribe 1 (snd (subscribe {| subscriberName := 9;
                                         subscriberThrows := false |}
                              watchedWorld)))
     = subscribers watchedWorld.
Proof.
  assert (subscriptionsFresh watchedWorld) as Hf.
  { unfold subscriptionsFresh. cbn. repeat constructor. }
  split; [exact Hf|].
  apply (subscribe_then_unsubscribe watchedWorld
           {| subscriberName := 9; subscriberThrows := false |} Hf).
Defined.

Lemma stale_unsubscribe_removes_newcomer_witness :
  nextSubscriptionId exampleWorld = 0%nat
  /\ subscribers
       (unsubscribe 0
          (snd (subscribe {| subscriberName := 2; subscriberThrows := false |}
                  (destroy watchedWorld))))
     = [].
Proof.
  split; [reflexivity|].
  apply (stale_unsubscribe_removes_newcomer exampleWorld
           {| subscriberName := 7; subscriberThrows := false |}
           {| subscriberName := 2; subscriberThrows := false |} eq_refl).
Defined.

Lemma addRecentCommands_most_recent_first_witness :
  List.NoDup elevenIds
  /\ recentCommands (state (addRecentCommands elevenIds exampleWorld))
     = ["k"; "j"; "i"; "h"; "g"; "f"; "e"; "d"; "c"; "b"].
Proof.
  assert (List.NoDup elevenIds) as Hnd.
  { unfold elevenIds. repeat constructor; cbn; intuition discriminate. }
  split; [exact Hnd|].
  apply (addRecentCommands_most_recent_first elevenIds exampleWorld Hnd).
  unfold elevenIds. repeat constructor; intros [].
Defined.

Lemma selectCommand_unknown_id_witness :
  idAbsent "nowhere" exampleTree
  /\ state (snd (selectCommand exampleTree "nowhere" None exampleWorld))
     = state exampleWorld.
Proof.
  assert (idAbsent "nowhere" exampleTree) as Habs.
  { intros c Hc. apply InTree_preorderForest in Hc. cbn in Hc.
    intuition (subst; discriminate). }
  split; [exact Habs|].
  apply (selectCommand_unknown_id exampleTree exampleWorld "nowhere" None Habs).
Defined.

Lemma selectCommand_opens_view_witness :
  findCommandById "calculator" exampleTree = Some calculator
  /\ fst (goBack (snd (selectCommand exampleTree "calculator" None exampleWorld)))
     = true.
Proof.
  split; [reflexivity|].
  apply (selectCommand_opens_view exampleTree exampleWorld "calculator" None
           calculator eq_refl).
  intros b p e. discriminate.
Defined.

Lemma goBack_guards_prefix_trigger_witness :
  fst (goBack insideCategory) = true
  /\ selectCalls
       (trace (snd (usePrefixTrigger exampleTree "!calc " 1%nat ""
                      (snd (goBack insideCategory)))))
     = selectCalls (trace insideCategory).
Proof.
  split; [reflexivity|].
  apply (goBack_guards_prefix_trigger exampleTree insideCategory "!calc "
           1%nat "" eq_refl).
Defined.

Lemma usePrefixTrigger_once_witness :
  default false (lastNavigationWasBack (state exampleWorld)) = false
  /\ (let r := usePrefixTrigger exampleTree "!calc " 1%nat "" exampleWorld in
      usePrefixTrigger exampleTree "!calc " 1%nat (fst r) (snd r) = r).
Proof.
  split; [reflexivity|].
  apply (usePrefixTrigger_once exampleTree exampleWorld "!calc " 1%nat ""
           eq_refl).
Defined.

Lemma searchItems_contract_witness :
  0 <= 1
  /\ Z.of_nat (length (searchItems exampleScore (Some exactFuse)
                         [openFirst; openSecond; devtools] "open" fuse 1))
     <= 1.
Proof.
  split; [lia|].
  apply (searchItems_contract exampleScore (Some exactFuse)
           [openFirst; openSecond; devtools] "open" fuse 1).
  lia.
Defined.

Lemma searchWithCommandScore_complete_witness :
  Z.of_nat (length [devtools; openFirst; calculator]) <= 50
  /\ Permutation
       (searchWithCommandScore exampleScore [devtools; openFirst; calculator]
          "open" 50)
       [openFirst].
Proof.
  assert (Z.of_nat (length [devtools; openFirst; calculator]) <= 50) as Hlen
    by (cbn; lia).
  split; [exact Hlen|].
  exact (searchWithCommandScore_complete exampleScore
           [devtools; openFirst; calculator] "open" 50 Hlen).
Defined.

Lemma PortalRenderer_category_witness :
  findNavigableById "dev-tools" exampleTree = Some devToolsCategory
  /\ exists shown,
       PortalRenderer exampleScore None exampleTree "dev-tools" "" None
       = CategoryData "Dev Tools" (map toItemData shown)
       /\ Forall (fun it => In it [devtools; calculator]) shown.
Proof.
  split; [reflexivity|].
  destruct (PortalRenderer_category exampleScore None exampleTree "dev-tools"
              "" None (plain "dev-tools" "Dev Tools") [devtools; calculator]
              eq_refl) as (shown & H1 & H2 & _).
  exists shown. split; assumption.
Defined.

Lemma filteredCommands_cache_bounded_witness :
  cacheBounded []
  /\ cacheBounded
       (snd (filteredCommands exampleScore None showZ [devtools; openFirst]
               "open" commandscore 50 [])).
Proof.
  assert (cacheBounded []) as Hb by (split; [cbn; lia|constructor]).
  split; [exact Hb|].
  apply (filteredCommands_cache_bounded exampleScore None showZ
           [devtools; openFirst] "open" commandscore 50 [] Hb).
Defined.

Lemma filteredCommands_hit_ignores_items_witness :
  truthyString "open" = true
  /\ fst (filteredCommands exampleScore None showZ [] "open" commandscore 50
            (snd (filteredCommands exampleScore None showZ
                    [devtools; openFirst] "open" commandscore 50 [])))
     = [openFirst].
Proof.
  split; [reflexivity|].
  rewrite (filteredCommands_hit_ignores_items exampleScore None showZ
             [devtools; openFirst] [] "open" commandscore 50 [] eq_refl).
  reflexivity.
Defined.

Lemma recentCommandObjects_keeps_stale_ids_witness :
  List.NoDup (treeIds exampleTree)
  /\ recentCommandObjects ["calculator"; "gone"] (flattenedCommands exampleTree)
     = [Some calculator; None].
Proof.
  assert (List.NoDup (treeIds exampleTree)) as Hnd.
  { cbn. repeat constructor; cbn; intuition discriminate. }
  split; [exact Hnd|].
  destruct (recentCommandObjects_keeps_stale_ids exampleTree
              ["calculator"; "gone"] Hnd) as [-> _].
  reflexivity.
Defined.

Lemma estimateHeight_by_id_witness :
  explicitHeight headerRow = None
  /\ entryGet (getCacheKey showQ headerRow 0) [] = None
  /\ fst (estimateHeight showQ DEFAULT_HEIGHTS headerRow 0 5 5 5 []) = 32%Q.
Proof.
  split; [reflexivity|]. split; [reflexivity|].
  destruct (estimateHeight_by_id showQ DEFAULT_HEIGHTS headerRow 0 5 5 5 []
              eq_refl eq_refl) as [-> _].
  reflexivity.
Defined.

Lemma estimateHeight_cache_is_shared_witness :
  explicitHeight headerRow = None
  /\ fst (estimateHeight showQ
            (mergeHeights {| standard' := None; header' := Some 40%Q;
                             divider' := None; withDescription' := None;
                             withLongDescription' := None; compact' := None;
                             large' := None |})
            headerRow 0 6 6 6
            (snd (estimateHeight showQ DEFAULT_HEIGHTS headerRow 0 5 5 5 [])))
     = fst (estimateHeight showQ DEFAULT_HEIGHTS headerRow 0 5 5 5 []).
Proof.
  split; [reflexivity|].
  apply (estimateHeight_cache_is_shared showQ DEFAULT_HEIGHTS).
  reflexivity.
Defined.

Lemma heightCacheSet_bound_witness :
  heightCacheBounded []
  /\ heightCacheBounded (heightCacheSet showQ headerRow 0 32 5 5 []).
Proof.
  assert (heightCacheBounded []) as Hb
    by (split; [unfold maxSize; cbn; lia|constructor]).
  split; [exact Hb|].
  apply (heightCacheSet_bound showQ headerRow 0 32 5 5 [] Hb).
  left. unfold maxSize. cbn. lia.
Defined.

Lemma recent_section_heights_witness :
  Forall (fun cmd => stringIncludes (id (baseOf cmd)) "header" = false
                     /\ stringIncludes (id (baseOf cmd)) "divider" = false)
    [devtools; calculator]
  /\ map (fun row => heightFor DEFAULT_HEIGHTS (analyzeItemContent row))
       (commandVirtualItems
          (useRecentCommandsSection "clock" "" [devtools; calculator]))
     = [32; 48; 48; 16]%Q.
Proof.
  assert (Forall (fun cmd => stringIncludes (id (baseOf cmd)) "header" = false
                             /\ stringIncludes (id (baseOf cmd)) "divider" = false)
            [devtools; calculator]) as Hids.
  { repeat constructor. }
  split; [exact Hids|].
  pose proof (recent_section_heights "clock" DEFAULT_HEIGHTS ""
                [devtools; calculator] Hids) as H.
  cbv zeta in H. change (truthyString "" || (Z.of_nat 2 =? 0)) with false in H.
  cbv iota in H. exact (proj2 H).
Defined.

Lemma searchWithFuse_distinct_items_witness :
  exists objs : list ItemObject,
    searchWithFuse (Some exactFuse) [openFirst; openSecond] "open" 1
    = Returned (map snd objs)
    /\ List.NoDup (map fst objs)
    /\ Z.of_nat (length objs) <= 1.
Proof.
  destruct (searchWithFuse_distinct_items exactFuse [openFirst; openSecond]
              "open" 1) as (objs & Hres & Hnd & _ & Hlen).
  exists objs. split; [exact Hres|]. split; [exact Hnd|].
  apply Hlen. lia.
Defined.

Lemma flattenedCommands_lookup_witness :
  List.NoDup (treeIds exampleTree)
  /\ flattenedCommands exampleTree !! "calculator"
     = findNavigableById "calculator" exampleTree.
Proof.
  assert (List.NoDup (treeIds exampleTree)) as Hnd.
  { cbn. repeat constructor; cbn; intuition discriminate. }
  split; [exact Hnd|].
  destruct (flattenedCommands_lookup exampleTree "calculator") as (_ & _ & H).
  exact (H Hnd).
Defined.

Lemma fuse_load_is_not_retried_witness :
  let s := {| loadedModule := None; fuseLoadingPromise := Some Rejected |} in
  fold_left loaderStep
    [CallLoadFuse; CallPreloadFuse; ImportSettles (Some exactFuse)] s = s
  /\ getFuseStatus s = loading.
Proof.
  intros s.
  destruct (fuse_load_is_not_retried s
              [CallLoadFuse; CallPreloadFuse; ImportSettles (Some exactFuse)]
              exampleScore [openFirst] "open" 50) as [Hfailed _].
  destruct (Hfailed eq_refl eq_refl) as (Hsame & Hstatus & _).
  split; [exact Hsame|]. rewrite Hsame in Hstatus. exact Hstatus.
Defined.
